(** * Verification of the overthink build planner (package [ov])

    A shallow embedding of [ov/intermediates.go]: the popularity-weighted
    topological sort of layers (GlobalLayerOrder), the absolute layer
    sequence of an image, and the synthesis of intermediate images from a
    prefix trie (ComputeIntermediates), together with the merge planner of
    the specification; of [ov/transfer.go]: the transfer of an image
    between container engines; and of the steps that [ov/generate.go]
    writes for a layer.

    Conventions of the embedding
    - Go maps are [gmap string _]; a lookup of a missing key in a
      [map[string]int] or [map[string]bool] yields the zero value, written
      out with [default].
    - Go's [for k, v := range m] visits the entries of a map in an
      unspecified order.  Every such loop runs over [range m], where
      [range] is an arbitrary enumeration of the entries of the map.
    - A Go function returning [(T, error)] returns a pair [T * option error].
    - Loops and recursions that Go does not bound are given fuel; [None]
      stands for a run that does not return.
    - Calls of the operating system are recorded, in order, beside the
      value returned; what the world answers is a parameter. *)

From stdpp Require Import gmap strings list fin_maps pretty sorting.
From Stdlib Require Import ZArith Lia Ascii.

Local Open Scope Z_scope.
Local Set Warnings "-register-all,-clear-no-such-hyp".

(** ** Data model *)

Module Layer.
(** [Layer]: the struct is declared outside [src/]; the functions embedded
    here read [Name] and [Depends] only. *)
Record t : Type := Build { Name : string; Depends : list string }.
End Layer.

(** Modelled from the spec: the type of the [Merge] setting is declared
    outside [src/]; it is only copied from the defaults into an
    intermediate.  It is kept here as an optional size cap. *)
Definition MergeConfig : Type := option Z.

Module ResolvedImage.
(** [ResolvedImage], with the fields that [createIntermediate] fills in and
    the tests and [generate.go] read. *)
Record t : Type := Build {
  Name : string;
  Base : string;
  IsExternalBase : bool;
  Layers : list string;
  Tag : string;
  Registry : string;
  Pkg : string;
  Platforms : list string;
  User : string;
  UID : Z;
  GID : Z;
  Merge : MergeConfig;
  Auto : bool;
  Home : string;
  FullTag : string;
  Bootc : bool
}.

(** [img.Base = parentName; img.IsExternalBase = ext] *)
Definition setBase (img : t) (parentName : string) (ext : bool) : t :=
  Build (Name img) parentName ext (Layers img) (Tag img) (Registry img)
        (Pkg img) (Platforms img) (User img) (UID img) (GID img)
        (Merge img) (Auto img) (Home img) (FullTag img) (Bootc img).
End ResolvedImage.

Module ImageConfig.
(** The fields of [cfg.Defaults] that [createIntermediate] reads. *)
Record t : Type := Build {
  Registry : string;
  Pkg : string;
  Platforms : list string;
  User : string;
  UID : option Z;
  GID : option Z;
  Merge : MergeConfig
}.
End ImageConfig.

Record Config : Type := { Defaults : ImageConfig.t }.

(** Go [error] values, one constructor per message built in the source. *)
Inductive error : Type :=
| ErrCycleDetected      (* "cycle detected in layer dependency graph" *)
| ErrResolvingLayers (img : string) (cause : error)
                        (* "resolving layers for image %q: %w" *)
| ErrComputingGlobalOrder (cause : error)
                        (* "computing global layer order: %w" *)
| ErrUnknownLayer (name : string)   (* spec: unknown_layer(name) *)
| ErrLayerCycle                     (* spec: layer_cycle *)
| ErrImageCycle.                    (* spec: image_cycle *)

(** [m[k]] on a [map[string]int]: the zero value when the key is missing. *)
Definition intAt (m : gmap string Z) (k : string) : Z := default 0 (m !! k).

(** [m[k]] on a [map[string]bool]. *)
Definition boolAt (m : gmap string bool) (k : string) : bool :=
  default false (m !! k).

(** [s > t] on Go strings: bytewise lexicographic comparison. *)
Definition stringGt (s t : string) : bool := String.ltb t s.

(** Modelled from the spec: [sortStrings] is defined outside [src/]; it
    sorts a slice of strings in ascending lexicographic order. *)
Definition sortStrings (s : list string) : list string :=
  merge_sort String.le s.

(** ** sortByPopularity *)

(** The body of the inner loop: compare [s[i]] with [s[j]] and swap them when
    they are out of order. *)
Definition swapIfOutOfOrder (popularity : gmap string Z)
    (i j : nat) (s : list string) : list string :=
  match s !! i, s !! j with
  | Some si, Some sj =>
      let pi := intAt popularity si in
      let pj := intAt popularity sj in
      if bool_decide (pi < pj) || (bool_decide (pi = pj) && stringGt si sj)
      then <[j := si]> (<[i := sj]> s)
      else s
  | _, _ => s
  end.

(** [for j := i + 1; j < len(s); j++ { ... }] *)
Definition sortInner (popularity : gmap string Z) (i : nat)
    (s : list string) : list string :=
  foldl (λ s j, swapIfOutOfOrder popularity i j s) s
        (seq (S i) (length s - S i)).

(** [for i := 0; i < len(s)-1; i++ { ... }] *)
Definition sortByPopularity (s : list string) (popularity : gmap string Z)
    : list string :=
  foldl (λ s i, sortInner popularity i s) s (seq 0 (length s - 1)).

(** ** Loops with early exit *)

(** A loop whose body may not return ([None]). *)
Definition foldOpt {A S : Type} (body : S → A → option S)
    : S → list A → option S :=
  fix go (s : S) (l : list A) : option S :=
    match l with
    | [] => Some s
    | x :: l => match body s x with None => None | Some s => go s l end
    end.

(** A loop over a state [S] whose body may not return, or may make the
    enclosing function return an error. *)
Definition forEach {A S : Type} (body : A → S → option (S * option error))
    : list A → S → option (S * option error) :=
  fix go (l : list A) (s : S) : option (S * option error) :=
    match l with
    | [] => Some (s, None)
    | x :: l =>
        match body x s with
        | None => None
        | Some (s, Some err) => Some (s, Some err)
        | Some (s, None) => go l s
        end
    end.

(** ** The prefix trie *)

Module trieNode.
(** [children] is a Go map; it is kept as an association list with unique
    keys, in insertion order.  The only loop over it with more than one
    entry goes through [sortedKeys]. *)
Inductive t : Type :=
| Build (layer : string) (children : list (string * t)) (images : list string).

Definition layer (n : t) : string := let '(Build l _ _) := n in l.
Definition children (n : t) : list (string * t) :=
  let '(Build _ c _) := n in c.
Definition images (n : t) : list string := let '(Build _ _ i) := n in i.

(** [m[key]] *)
Fixpoint lookup (key : string) (m : list (string * t)) : option t :=
  match m with
  | [] => None
  | (k, v) :: m => if decide (k = key) then Some v else lookup key m
  end.

(** [m[key] = v] *)
Fixpoint insert (key : string) (v : t) (m : list (string * t))
    : list (string * t) :=
  match m with
  | [] => [(key, v)]
  | (k, w) :: m =>
      if decide (k = key) then (k, v) :: m else (k, w) :: insert key v m
  end.
End trieNode.

Definition newTrieNode (layer : string) : trieNode.t :=
  trieNode.Build layer [] [].

(** The trie-building loop of [ComputeIntermediates] for one image: walk
    down [seq], creating the missing children, and record [imgName] at the
    node reached. *)
Fixpoint trieAdd (seq : list string) (imgName : string) (node : trieNode.t)
    : trieNode.t :=
  match seq with
  | [] =>
      trieNode.Build (trieNode.layer node) (trieNode.children node)
                     (trieNode.images node ++ [imgName])
  | layer :: seq =>
      let child :=
        default (newTrieNode layer)
                (trieNode.lookup layer (trieNode.children node)) in
      trieNode.Build (trieNode.layer node)
        (trieNode.insert layer (trieAdd seq imgName child)
                         (trieNode.children node))
        (trieNode.images node)
  end.

(** [sortedKeys] *)
Definition sortedKeys (m : list (string * trieNode.t)) : list string :=
  sortStrings (m.*1).

(** The chain-collecting loop of [walkTrie]: keep walking while [current]
    has exactly one child and no terminal image. *)
Fixpoint followChain (current : trieNode.t) (pathLayers : list string)
    : list string * trieNode.t :=
  match current with
  | trieNode.Build _ [(layerName, next)] [] =>
      followChain next (pathLayers ++ [layerName])
  | _ => (pathLayers, current)
  end.

(** Number of edges on the longest path below a node. *)
Fixpoint trieHeight (n : trieNode.t) : nat :=
  match n with
  | trieNode.Build _ cs _ =>
      foldr (λ c h, Nat.max (S (trieHeight c.2)) h) 0%nat cs
  end.

(** ** topoSortByPopularity *)

Section Planner.
(** The order in which [range] visits a map. *)
Variable range : ∀ V : Type, gmap string V → list (string * V).
Arguments range {V} _.

(** First loop: in-degrees and the reversed graph. *)
Definition buildInDegree (graph : gmap string (list string))
    : gmap string Z * gmap string (list string) :=
  foldl (λ '(inDegree, reverseGraph) '(node, deps),
           (<[node := Z.of_nat (length deps)]> inDegree,
            foldl (λ rg dep, <[dep := default [] (rg !! dep) ++ [node]]> rg)
                  reverseGraph deps))
        (∅, ∅) (range graph).

(** Second loop: the nodes without dependencies. *)
Definition initialQueue (inDegree : gmap string Z) : list string :=
  foldl (λ queue '(node, degree),
           if bool_decide (degree = 0) then queue ++ [node] else queue)
        [] (range inDegree).

(** [for _, dep := range dependents { inDegree[dep]--; ... }] *)
Definition releaseDependents (dependents : list string)
    (inDegree : gmap string Z) (queue : list string)
    : gmap string Z * list string :=
  foldl (λ '(inDegree, queue) dep,
           let d := intAt inDegree dep - 1 in
           (<[dep := d]> inDegree,
            if bool_decide (d = 0) then queue ++ [dep] else queue))
        (inDegree, queue) dependents.

(** [for len(queue) > 0 { ... }]; yields the final [result]. *)
Fixpoint kahnLoop (fuel : nat) (reverseGraph : gmap string (list string))
    (popularity : gmap string Z) (queue : list string)
    (inDegree : gmap string Z) (result : list string)
    : option (list string) :=
  match queue with
  | [] => Some result
  | node :: queue =>
      match fuel with
      | O => None
      | S fuel =>
          let result := result ++ [node] in
          let dependents := default [] (reverseGraph !! node) in
          let '(inDegree, queue) :=
            releaseDependents dependents inDegree queue in
          kahnLoop fuel reverseGraph popularity
                   (sortByPopularity queue popularity) inDegree result
      end
  end.

(** The nodes emitted by the loop, before the length check. *)
Definition kahnEmitted (graph : gmap string (list string))
    (popularity : gmap string Z) : option (list string) :=
  let '(inDegree, reverseGraph) := buildInDegree graph in
  let queue := sortByPopularity (initialQueue inDegree) popularity in
  kahnLoop (size graph) reverseGraph popularity queue inDegree [].

Definition topoSortByPopularity (graph : gmap string (list string))
    (popularity : gmap string Z) : option (list string * option error) :=
  result ← kahnEmitted graph popularity;
  if bool_decide (length result ≠ size graph)
  then Some ([], Some ErrCycleDetected)
  else Some (result, None).

(** ** Helpers defined outside [src/] *)

(** [ResolveLayerOrder(selection, layers, parentLayers)] and
    [LayersProvidedByImage(name, images, layers)] are called by the code
    embedded here and defined elsewhere in the package; the embedding is
    parameterised by them.  [None] for [parentLayers] is Go's [nil]. *)
Variable ResolveLayerOrder :
  list string → gmap string Layer.t → option (gmap string bool) →
  list string * option error.
Variable LayersProvidedByImage :
  string → gmap string ResolvedImage.t → gmap string Layer.t →
  gmap string bool * option error.

(** ** collectAllImageLayers and AbsoluteLayerSequence *)

(** [for _, l := range resolved { if !seen[l] { ... } }] *)
Definition appendUnseen (st : gset string * list string)
    (resolved : list string) : gset string * list string :=
  foldl (λ '(seen, result) l,
           if bool_decide (l ∈ seen) then (seen, result)
           else ({[l]} ∪ seen, result ++ [l]))
        st resolved.

(** The closure [walk] of [collectAllImageLayers]; the state is
    [(seen, result)]. *)
Fixpoint walk (fuel : nat) (images : gmap string ResolvedImage.t)
    (layers : gmap string Layer.t) (name : string)
    (st : gset string * list string) : option (gset string * list string) :=
  match fuel with
  | O => None
  | S fuel =>
      match images !! name with
      | None => Some st
      | Some img =>
          st ← (if ResolvedImage.IsExternalBase img then Some st
                else walk fuel images layers (ResolvedImage.Base img) st);
          match ResolveLayerOrder (ResolvedImage.Layers img) layers None with
          | (_, Some _) => Some st
          | (resolved, None) => Some (appendUnseen st resolved)
          end
      end
  end.

(** A chain of bases that names more images than the map holds never
    ends: [S (size images)] calls are enough for any walk that returns. *)
Definition collectAllImageLayers (imageName : string)
    (images : gmap string ResolvedImage.t) (layers : gmap string Layer.t)
    : option (list string) :=
  snd <$> walk (S (size images)) images layers imageName (∅, []).

Definition AbsoluteLayerSequence (imageName : string)
    (images : gmap string ResolvedImage.t) (layers : gmap string Layer.t)
    (globalOrder : list string) : option (list string) :=
  allLayers ← collectAllImageLayers imageName images layers;
  let layerSet : gset string := list_to_set allLayers in
  Some (filter (λ l, l ∈ layerSet) globalOrder).

(** ** GlobalLayerOrder *)

(** Merge [resolved] into [allLayers], skipping what is already there. *)
Definition mergeResolved (allLayers resolved : list string) : list string :=
  snd (appendUnseen (list_to_set allLayers, allLayers) resolved).

(** [popularity[l]++]; the counter is bounded by the number of images. *)
Definition increment (popularity : gmap string Z) (l : string)
    : gmap string Z :=
  <[l := intAt popularity l + 1]> popularity.

(** The popularity loop, on the images still to visit. *)
Fixpoint countPopularity (images : gmap string ResolvedImage.t)
    (layers : gmap string Layer.t)
    (todo : list (string * ResolvedImage.t)) (popularity : gmap string Z)
    : option (error + gmap string Z) :=
  match todo with
  | [] => Some (inr popularity)
  | (_, img) :: todo =>
      match ResolveLayerOrder (ResolvedImage.Layers img) layers None with
      | (_, Some err) =>
          Some (inl (ErrResolvingLayers (ResolvedImage.Name img) err))
      | (resolved, None) =>
          allLayers ←
            collectAllImageLayers (ResolvedImage.Name img) images layers;
          countPopularity images layers todo
            (foldl increment popularity (mergeResolved allLayers resolved))
      end
  end.

(** The dependency graph over the layers that appear in some image. *)
Definition buildGraph (popularity : gmap string Z)
    (layers : gmap string Layer.t) : gmap string (list string) :=
  foldl (λ graph '(name, _),
           match layers !! name with
           | None => graph
           | Some layer =>
               <[name := filter (λ dep, is_Some (popularity !! dep))
                                (Layer.Depends layer)]> graph
           end)
        ∅ (range popularity).

Definition GlobalLayerOrder (images : gmap string ResolvedImage.t)
    (layers : gmap string Layer.t) : option (list string * option error) :=
  r ← countPopularity images layers (range images) ∅;
  match r with
  | inl err => Some ([], Some err)
  | inr popularity =>
      topoSortByPopularity (buildGraph popularity layers) popularity
  end.

(** ** resolveExternalBase *)

Fixpoint resolveExternalBaseLoop (fuel : nat) (current : string)
    (images : gmap string ResolvedImage.t) : option string :=
  match fuel with
  | O => None
  | S fuel =>
      match images !! current with
      | None => Some current
      | Some img =>
          if ResolvedImage.IsExternalBase img
          then Some (ResolvedImage.Base img)
          else resolveExternalBaseLoop fuel (ResolvedImage.Base img) images
      end
  end.

Definition resolveExternalBase (imageName : string)
    (images : gmap string ResolvedImage.t) : option string :=
  resolveExternalBaseLoop (S (size images)) imageName images.

(** ** Creating intermediates *)

(** Each nested call marks a layer of [layers] that was not needed before,
    or returns at once: [size layers + 2] nested calls are never reached. *)
Fixpoint addTransitiveDeps (fuel : nat) (layerName : string)
    (layers : gmap string Layer.t) (needed : gset string)
    (excluded : gmap string bool) : option (gset string) :=
  match fuel with
  | O => None
  | S fuel =>
      match layers !! layerName with
      | None => Some needed
      | Some layer =>
          foldOpt (λ needed dep,
                     if boolAt excluded dep || bool_decide (dep ∈ needed)
                     then Some needed
                     else addTransitiveDeps fuel dep layers
                                            ({[dep]} ∪ needed) excluded)
                  needed (Layer.Depends layer)
      end
  end.

Definition computeOwnLayers (parentName : string) (pathLayers : list string)
    (result : gmap string ResolvedImage.t) (layers : gmap string Layer.t)
    (globalOrder : list string) : option (list string) :=
  let parentProvided : gmap string bool :=
    match result !! parentName with
    | Some _ =>
        match LayersProvidedByImage parentName result layers with
        | (provided, None) => provided
        | (_, Some _) => ∅
        end
    | None => ∅
    end in
  let own := filter (λ l, boolAt parentProvided l = false) pathLayers in
  needed ←
    foldOpt (λ needed l,
               addTransitiveDeps (size layers + 2) l layers
                                 ({[l]} ∪ needed) parentProvided)
            ∅ own;
  let ordered :=
    filter (λ l, l ∈ needed ∧ boolAt parentProvided l = false) globalOrder in
  Some (match ordered with [] => own | _ => ordered end).

Definition resolvePlatforms (cfg : Config) : list string :=
  match ImageConfig.Platforms (Defaults cfg) with
  | [] => ["linux/amd64"; "linux/arm64"]
  | platforms => platforms
  end.

(** Modelled from the spec: [resolveIntPtr] is defined outside [src/]; the
    first pointer that is set wins, else the fallback ("UID/GID to 1000
    unless overridden"). *)
Definition resolveIntPtr (a b : option Z) (fallback : Z) : Z :=
  match a, b with
  | Some x, _ => x
  | None, Some y => y
  | None, None => fallback
  end.

Definition createIntermediate (name parentName : string)
    (pathLayers : list string) (result origImages : gmap string ResolvedImage.t)
    (cfg : Config) (tag : string) (layers : gmap string Layer.t)
    (globalOrder : list string) : option (gmap string ResolvedImage.t) :=
  ownLayers ← computeOwnLayers parentName pathLayers result layers globalOrder;
  let isExternalBase := bool_decide (result !! parentName = None) in
  let d := Defaults cfg in
  let pkg := if decide (ImageConfig.Pkg d = "") then "rpm"
             else ImageConfig.Pkg d in
  let user := if decide (ImageConfig.User d = "") then "user"
              else ImageConfig.User d in
  let fullTag :=
    if decide (ImageConfig.Registry d = "") then name +:+ ":" +:+ tag
    else ImageConfig.Registry d +:+ "/" +:+ name +:+ ":" +:+ tag in
  let img :=
    ResolvedImage.Build name parentName isExternalBase ownLayers tag
      (ImageConfig.Registry d) pkg (resolvePlatforms cfg) user
      (resolveIntPtr (ImageConfig.UID d) None 1000)
      (resolveIntPtr (ImageConfig.GID d) None 1000)
      (ImageConfig.Merge d) true ("/home/" +:+ user) fullTag false in
  Some (<[name := img]> result).

Definition updateImageBase (imgName parentName : string)
    (result : gmap string ResolvedImage.t) : gmap string ResolvedImage.t :=
  match result !! imgName with
  | None => result
  | Some img =>
      <[imgName := ResolvedImage.setBase img parentName
                     (bool_decide (result !! parentName = None))]> result
  end.

Definition assignLayersForIntermediate (imgName parentName : string)
    (pathLayers : list string) (result origImages : gmap string ResolvedImage.t)
    (layers : gmap string Layer.t) (globalOrder : list string)
    : gmap string ResolvedImage.t :=
  result.

Definition isExistingImageReusable (imgName : string)
    (pathLayers : list string) (origImages : gmap string ResolvedImage.t)
    (layers : gmap string Layer.t) (parentName : string)
    (result : gmap string ResolvedImage.t) (globalOrder : list string)
    : bool :=
  bool_decide (is_Some (origImages !! imgName)).

(** The naming loop of [pickIntermediateName]. *)
Fixpoint pickNameLoop (fuel : nat) (baseName name : string) (suffix : Z)
    (result origImages : gmap string ResolvedImage.t) : option string :=
  match fuel with
  | O => None
  | S fuel =>
      if bool_decide (is_Some (origImages !! name))
      then pickNameLoop fuel baseName (baseName +:+ "-" +:+ pretty suffix)
                        (suffix + 1) result origImages
      else if bool_decide (is_Some (result !! name))
      then pickNameLoop fuel baseName (baseName +:+ "-" +:+ pretty suffix)
                        (suffix + 1) result origImages
      else Some name
  end.

(** The candidate names are pairwise different, so one of the first
    [size origImages + size result + 1] is free. *)
Definition pickIntermediateName (node : trieNode.t)
    (pathLayers : list string) (result origImages : gmap string ResolvedImage.t)
    : option string :=
  match trieNode.images node with
  | [img] => Some img
  | _ =>
      baseName ← last pathLayers;
      pickNameLoop (S (size origImages + size result)) baseName baseName 2
                   result origImages
  end.

(** ** walkTrie *)

(** The body of the loop of [walkTrie] for one child; [recurse] is the
    recursive call. *)
Definition walkEdge
    (recurse : trieNode.t → string → gmap string ResolvedImage.t →
               option (gmap string ResolvedImage.t * option error))
    (node : trieNode.t) (parentName : string)
    (origImages : gmap string ResolvedImage.t) (layers : gmap string Layer.t)
    (cfg : Config) (tag : string) (globalOrder : list string)
    (childLayerName : string) (result : gmap string ResolvedImage.t)
    : option (gmap string ResolvedImage.t * option error) :=
  child ← trieNode.lookup childLayerName (trieNode.children node);
  let '(pathLayers, current) := followChain child [childLayerName] in
  let nChildren := length (trieNode.children current) in
  let nImages := length (trieNode.images current) in
  let isBranch :=
    bool_decide (2 ≤ nChildren)%nat
    || (bool_decide (1 ≤ nChildren)%nat && bool_decide (0 < nImages)%nat) in
  let isLeaf := bool_decide (nChildren = 0%nat) in
  if isBranch then
    intermediateName ←
      pickIntermediateName current pathLayers result origImages;
    '(intermediateName, result) ←
      match trieNode.images current with
      | [img0] =>
          if negb (isExistingImageReusable img0 pathLayers origImages layers
                     parentName result globalOrder)
          then
            result ← createIntermediate intermediateName parentName
                       pathLayers result origImages cfg tag layers
                       globalOrder;
            Some (intermediateName,
                  updateImageBase img0 intermediateName result)
          else
            let intermediateName := img0 in
            let result := updateImageBase intermediateName parentName result in
            Some (intermediateName,
                  assignLayersForIntermediate intermediateName parentName
                    pathLayers result origImages layers globalOrder)
      | (_ :: _ :: _) as imgs =>
          result ← createIntermediate intermediateName parentName
                     pathLayers result origImages cfg tag layers globalOrder;
          Some (intermediateName,
                foldl (λ result imgName,
                         updateImageBase imgName intermediateName result)
                      result imgs)
      | [] =>
          result ← createIntermediate intermediateName parentName
                     pathLayers result origImages cfg tag layers globalOrder;
          Some (intermediateName, result)
      end;
    recurse current intermediateName result
  else if isLeaf then
    Some (foldl (λ result imgName, updateImageBase imgName parentName result)
                result (trieNode.images current), None)
  else Some (result, None).

(** Every recursive call is on a node strictly below [node]. *)
Fixpoint walkTrie (fuel : nat) (node : trieNode.t) (parentName : string)
    (result origImages : gmap string ResolvedImage.t)
    (layers : gmap string Layer.t) (cfg : Config) (tag : string)
    (globalOrder : list string)
    : option (gmap string ResolvedImage.t * option error) :=
  match fuel with
  | O => None
  | S fuel =>
      forEach
        (walkEdge
           (λ current intermediateName result,
              walkTrie fuel current intermediateName result origImages layers
                       cfg tag globalOrder)
           node parentName origImages layers cfg tag globalOrder)
        (sortedKeys (trieNode.children node)) result
  end.

(** ** ComputeIntermediates *)

(** Group the images by their ultimate external base. *)
Definition buildBaseGroups (images : gmap string ResolvedImage.t)
    : option (gmap string (list string)) :=
  foldOpt (λ baseGroups '(name, _),
             extBase ← resolveExternalBase name images;
             Some (<[extBase := default [] (baseGroups !! extBase) ++ [name]]>
                     baseGroups))
          ∅ (range images).

(** [cp := *img; result[name] = &cp] for every image. *)
Definition copyImages (images : gmap string ResolvedImage.t)
    : gmap string ResolvedImage.t :=
  foldl (λ result '(name, img), <[name := img]> result) ∅ (range images).

Definition buildTrie (imageNames : list string)
    (images : gmap string ResolvedImage.t) (layers : gmap string Layer.t)
    (globalOrder : list string) : option trieNode.t :=
  foldOpt (λ root imgName,
             seq ← AbsoluteLayerSequence imgName images layers globalOrder;
             Some (trieAdd seq imgName root))
          (newTrieNode "") imageNames.

(** The first image of the group without own layers, [""] if there is
    none.  [images[imgName]] is dereferenced: no result for a missing
    image. *)
Fixpoint findRootImage (imageNames : list string)
    (images : gmap string ResolvedImage.t) : option string :=
  match imageNames with
  | [] => Some ""
  | imgName :: imageNames =>
      img ← images !! imgName;
      if bool_decide (ResolvedImage.Layers img = []) then Some imgName
      else findRootImage imageNames images
  end.

(** The body of the loop over the base groups. *)
Definition processGroup (images : gmap string ResolvedImage.t)
    (layers : gmap string Layer.t) (cfg : Config) (tag : string)
    (globalOrder : list string) (imageNames : list string)
    (result : gmap string ResolvedImage.t)
    : option (gmap string ResolvedImage.t * option error) :=
  let imageNames := sortStrings imageNames in
  if bool_decide (length imageNames ≤ 1)%nat then Some (result, None)
  else
    root ← buildTrie imageNames images layers globalOrder;
    rootImageName ← findRootImage imageNames images;
    startParent ←
      (if decide (rootImageName = "")
       then first ← head imageNames; resolveExternalBase first images
       else Some rootImageName);
    walkTrie (S (trieHeight root)) root startParent result images layers cfg
             tag globalOrder.

Definition ComputeIntermediates (images : gmap string ResolvedImage.t)
    (layers : gmap string Layer.t) (cfg : Config) (tag : string)
    : option (gmap string ResolvedImage.t * option error) :=
  baseGroups ← buildBaseGroups images;
  '(globalOrder, err) ← GlobalLayerOrder images layers;
  match err with
  | Some err => Some (∅, Some (ErrComputingGlobalOrder err))
  | None =>
      let result := copyImages images in
      '(result, err) ←
        forEach (λ '(_, imageNames) result,
                   processGroup images layers cfg tag globalOrder imageNames
                                result)
                (range baseGroups) result;
      match err with
      | Some err => Some (∅, Some err)
      | None => Some (result, None)
      end
  end.

End Planner.

(** ** The layer graph of the specification (component C1) *)

Module LayerGraph.

(** One round of the transitive closure: add the dependencies of the known
    layers of [needed], leaving out the excluded ones. *)
Definition expand (layers : gmap string Layer.t) (excluded : gmap string bool)
    (needed : gset string) : gset string :=
  needed ∪
  list_to_set
    (filter (λ dep, boolAt excluded dep = false)
       (concat (omap (λ l, Layer.Depends <$> layers !! l)
                     (elements needed)))).

(** The layers of [needed] all of whose needed dependencies are emitted. *)
Definition ready (layers : gmap string Layer.t) (needed : gset string)
    (emitted : list string) (l : string) : bool :=
  match layers !! l with
  | None => false
  | Some layer =>
      forallb (λ dep, bool_decide (dep ∈ needed → dep ∈ emitted))
              (Layer.Depends layer)
  end.

(** Kahn's algorithm, taking the smallest ready name at each step. *)
Fixpoint emit (fuel : nat) (layers : gmap string Layer.t)
    (needed : gset string) (remaining emitted : list string) : list string :=
  match fuel with
  | O => emitted
  | S fuel =>
      match List.find (ready layers needed emitted) remaining with
      | None => emitted
      | Some l =>
          emit fuel layers needed
               (filter (λ r, r ≠ l) remaining) (emitted ++ [l])
      end
  end.

(** Modelled from the spec: [ResolveLayerOrder] is defined outside [src/].
    "Returns a topological order containing selection and all transitive
    dependencies, minus any layer in excluded_parent_layers.  Fails if a
    name is unknown or a cycle is detected.  Tie-breaking in layer-order is
    by lexicographic ascending." *)
Definition ResolveLayerOrder (selection : list string)
    (layers : gmap string Layer.t) (parentLayers : option (gmap string bool))
    : list string * option error :=
  let excluded := default ∅ parentLayers in
  let start : gset string :=
    list_to_set (filter (λ l, boolAt excluded l = false) selection) in
  let needed := Nat.iter (size layers) (expand layers excluded) start in
  let names := sortStrings (elements needed) in
  match List.find (λ l, bool_decide (layers !! l = None)) names with
  | Some l => ([], Some (ErrUnknownLayer l))
  | None =>
      let order := emit (length names) layers needed names [] in
      if bool_decide (length order = length names) then (order, None)
      else ([], Some ErrLayerCycle)
  end.

(** Modelled from the spec: [LayersProvidedByImage] is defined outside
    [src/].  "Transitive closure of everything an image installs (its own
    layers + its base's provided set)."  A name that is no image provides
    nothing; a chain of bases that does not end is an [image_cycle]. *)
Fixpoint providedBy (fuel : nat) (name : string)
    (images : gmap string ResolvedImage.t) (layers : gmap string Layer.t)
    : gmap string bool * option error :=
  match fuel with
  | O => (∅, Some ErrImageCycle)
  | S fuel =>
      match images !! name with
      | None => (∅, None)
      | Some img =>
          let '(base, err) :=
            if ResolvedImage.IsExternalBase img then (∅, None)
            else providedBy fuel (ResolvedImage.Base img) images layers in
          match err with
          | Some err => (∅, Some err)
          | None =>
              match ResolveLayerOrder (ResolvedImage.Layers img) layers
                                      (Some base) with
              | (_, Some err) => (∅, Some err)
              | (own, None) =>
                  (foldl (λ m l, <[l := true]> m) base own, None)
              end
          end
      end
  end.

Definition LayersProvidedByImage (name : string)
    (images : gmap string ResolvedImage.t) (layers : gmap string Layer.t)
    : gmap string bool * option error :=
  providedBy (S (size images)) name images layers.

End LayerGraph.

(** ** The merge planner of the specification (component C7) *)

Module MergeStep.
Record t : Type := Build { Keep : bool; Layers : list nat }.
End MergeStep.

(** Flush the accumulator as a step: merge if it holds two layers or more,
    keep if exactly one. *)
Definition flush (acc : list nat) : list MergeStep.t :=
  match acc with
  | [] => []
  | [i] => [MergeStep.Build true [i]]
  | _ => [MergeStep.Build false acc]
  end.

(** The left-to-right scan; [i] is the index of the next layer, [acc] and
    [sum] the running accumulator. *)
Fixpoint planScan (maxBytes : Z) (sizes : list Z) (i : nat) (acc : list nat)
    (sum : Z) : list MergeStep.t :=
  match sizes with
  | [] => flush acc
  | s :: sizes =>
      match acc with
      | [] => planScan maxBytes sizes (S i) [i] s
      | _ =>
          if bool_decide (sum + s ≤ maxBytes)
          then planScan maxBytes sizes (S i) (acc ++ [i]) (sum + s)
          else flush acc ++ planScan maxBytes sizes (S i) [i] s
      end
  end.

(** Modelled from the spec: [planMerge] is defined outside [src/] (only its
    tests are there).  Section 4.7: a single left-to-right scan maintaining
    a running accumulator of indices and sum; at the end the accumulator is
    flushed. *)
Definition planMerge (sizes : list Z) (maxBytes : Z) : list MergeStep.t :=
  planScan maxBytes sizes 0 [] 0.

(** [const mb = 1024 * 1024] of [merge_test.go]. *)
Definition mb : Z := 1024 * 1024.

(** The line feed of Go's ["\n"]. *)
Definition nl : string := String "010"%char "".

(** * transfer.go *)

Module Transfer.

(** [ResolvedRuntime], with the fields [EnsureImage] reads. *)
Record ResolvedRuntime : Type :=
  { BuildEngine : string; RunEngine : string }.

(** A command of [os/exec]: the binary and its arguments. *)
Definition Cmd : Type := (string * list string)%type.

(** What the functions ask of the world, in the order they ask it. *)
Inductive call : Type :=
| LocalImageExistsCall (engine imageRef : string)
                             (* the package variable [LocalImageExists] *)
| StderrCall (text : string) (* [fmt.Fprintf(os.Stderr, ...)] *)
| StdoutPipeCall (cmd : Cmd) (* [cmd.StdoutPipe()] *)
| StartCall (cmd : Cmd)      (* [cmd.Start()] *)
| RunCall (cmd : Cmd)        (* [cmd.Run()] *)
| WaitCall (cmd : Cmd).      (* [cmd.Wait()] *)

Inductive error : Type :=
| ErrExec (text : string)    (* an error of [os/exec] *)
| ErrCreatingPipe (cause : error)          (* "creating pipe: %w" *)
| ErrStartingLoad (dstBinary : string) (cause : error)
                                           (* "starting %s load: %w" *)
| ErrSaveFailed (srcBinary : string) (cause : error)
                                           (* "%s save failed: %w" *)
| ErrLoadFailed (dstBinary : string) (cause : error)
                                           (* "%s load failed: %w" *)
| ErrNotFound (imageRef engine : string)
    (* "image %s not found in %s; build it first with: ov build" *)
| ErrNotFoundEither (imageRef runEngine buildEngine : string).
    (* "image %s not found in %s or %s; build it first with: ov build" *)

(** A computation: the calls made, in order, and the value returned. *)
Definition M (A : Type) : Type := (list call * A)%type.

Definition ret {A : Type} (a : A) : M A := ([], a).
#[export] Instance M_bind : MBind M :=
  λ A B f m, let '(calls, a) := m in
             let '(calls', b) := f a in (calls ++ calls', b).

Section World.
(** [EngineBinary] is defined outside [src/]. *)
Variable EngineBinary : string → string.
(** The answers of the world: what [LocalImageExists] returns, and the
    error, if any, of each call of [os/exec]. *)
Variable LocalImageExists : string → string → bool.
Variable exec : call → option error.

Definition localImageExists (engine imageRef : string) : M bool :=
  ([LocalImageExistsCall engine imageRef], LocalImageExists engine imageRef).

Definition perform (c : call) : M (option error) := ([c], exec c).

Definition stderr (text : string) : M unit := ([StderrCall text], tt).

Definition defaultLocalImageExists (engine imageRef : string) : M bool :=
  let binary := EngineBinary engine in
  if decide (engine = "podman") then
    err ← perform (RunCall (binary, ["image"; "exists"; imageRef]));
    ret (bool_decide (err = None))
  else
    err ← perform (RunCall (binary, ["image"; "inspect"; imageRef]));
    ret (bool_decide (err = None)).

Definition TransferImage (srcEngine dstEngine imageRef : string)
    : M (option error) :=
  let srcBinary := EngineBinary srcEngine in
  let dstBinary := EngineBinary dstEngine in
  _ ← stderr ("Transferring " +:+ imageRef +:+ " from " +:+ srcEngine
              +:+ " to " +:+ dstEngine +:+ nl);
  let save : Cmd := (srcBinary, ["save"; imageRef]) in
  let load : Cmd := (dstBinary, ["load"]) in
  err ← perform (StdoutPipeCall save);
  match err with
  | Some err => ret (Some (ErrCreatingPipe err))
  | None =>
      err ← perform (StartCall load);
      match err with
      | Some err => ret (Some (ErrStartingLoad dstBinary err))
      | None =>
          err ← perform (RunCall save);
          match err with
          | Some err => ret (Some (ErrSaveFailed srcBinary err))
          | None =>
              err ← perform (WaitCall load);
              match err with
              | Some err => ret (Some (ErrLoadFailed dstBinary err))
              | None =>
                  _ ← stderr ("Transferred " +:+ imageRef +:+ " to "
                              +:+ dstEngine +:+ nl);
                  ret None
              end
          end
      end
  end.

Definition EnsureImage (imageRef : string) (rt : ResolvedRuntime)
    : M (option error) :=
  inRun ← localImageExists (RunEngine rt) imageRef;
  if inRun : bool then ret None
  else if decide (BuildEngine rt = RunEngine rt)
  then ret (Some (ErrNotFound imageRef (RunEngine rt)))
  else
    inBuild ← localImageExists (BuildEngine rt) imageRef;
    if negb inBuild : bool
    then ret (Some (ErrNotFoundEither imageRef (RunEngine rt)
                                       (BuildEngine rt)))
    else TransferImage (BuildEngine rt) (RunEngine rt) imageRef.
End World.
End Transfer.

(** * generate.go: the steps of a layer *)

Module Generate.

(** The double quote. *)
Definition dq : string := String "034"%char "".

(** The fields of [Layer] that [writeLayerSteps] reads, and what its
    methods [RpmPackages], [CoprRepos] and [DebPackages] return (the
    error they return with it is dropped by the caller). *)
Record LayerFiles : Type := {
  HasRpmList : bool;
  HasDebList : bool;
  HasRootYml : bool;
  HasPixiToml : bool;
  HasPackageJson : bool;
  HasCargoToml : bool;
  HasUserYml : bool;
  RpmPackages : list string;
  CoprRepos : list string;
  DebPackages : list string
}.

(** A [strings.Builder]: the strings written to it, in order. *)
Definition Builder : Type := list string.
Definition WriteString (b : Builder) (s : string) : Builder := b ++ [s].
(** [b.String()] *)
Definition contents (b : Builder) : string := String.concat "" b.

(** [strings.SplitN(s, "/", 2)] when it returns two parts: [s] cut at its
    first slash. *)
Fixpoint splitSlash (s : string) : option (string * string) :=
  match s with
  | EmptyString => None
  | String c s =>
      if decide (c = "/"%char) then Some (EmptyString, s)
      else '(owner, project) ← splitSlash s; Some (String c owner, project)
  end.

Definition writeDnfInstall (b : Builder) (pkgs coprRepos : list string)
    : Builder :=
  let b := WriteString b
    ("RUN --mount=type=cache,dst=/var/cache/libdnf5,sharing=locked \" +:+ nl) in
  let b := WriteString b "    dnf install" in
  let b :=
    foldl (λ b repo,
             match splitSlash repo with
             | Some (owner, project) =>
                 WriteString b
                   (" \" +:+ nl +:+ "      --enable-repo=" +:+ dq +:+
                    "copr:copr.fedorainfracloud.org:" +:+ owner +:+ ":" +:+
                    project +:+ dq)
             | None => b
             end)
          b coprRepos in
  let b := WriteString b " -y" in
  let b := foldl (λ b pkg, WriteString b (" \" +:+ nl +:+ "      " +:+ pkg))
                 b pkgs in
  WriteString b nl.

Definition writeAptInstall (b : Builder) (pkgs : list string) : Builder :=
  let b := WriteString b
    ("RUN --mount=type=cache,dst=/var/cache/apt,sharing=locked \" +:+ nl) in
  let b := WriteString b
    ("    --mount=type=cache,dst=/var/lib/apt,sharing=locked \" +:+ nl) in
  let b := WriteString b
    "    apt-get update && apt-get install -y --no-install-recommends" in
  let b := foldl (λ b pkg, WriteString b (" \" +:+ nl +:+ "      " +:+ pkg))
                 b pkgs in
  WriteString b nl.

(** The first line of the steps that mount the files of the layer. *)
Definition bindMount (layerName : string) : string :=
  "RUN --mount=type=bind,from=" +:+ layerName +:+ ",source=/,target=/ctx \"
  +:+ nl.

Definition writeRootYml (b : Builder) (layerName pkg : string) : Builder :=
  let b := WriteString b (bindMount layerName) in
  let b :=
    if decide (pkg = "deb") then
      let b := WriteString b
        ("    --mount=type=cache,dst=/var/cache/apt,sharing=locked \" +:+ nl)
      in
      WriteString b
        ("    --mount=type=cache,dst=/var/lib/apt,sharing=locked \" +:+ nl)
    else
      WriteString b
        ("    --mount=type=cache,dst=/var/cache/libdnf5,sharing=locked \"
         +:+ nl) in
  WriteString b ("    cd /ctx && task -t root.yml install" +:+ nl).

Definition writePixiToml (b : Builder) (layerName : string) : Builder :=
  let b := WriteString b (bindMount layerName) in
  let b := WriteString b
    ("    --mount=type=cache,dst=/home/user/.cache/rattler,uid=1000,gid=1000 \"
     +:+ nl) in
  WriteString b
    ("    cd /home/user && pixi add --manifest-path /ctx/pixi.toml" +:+ nl).

Definition writePackageJson (b : Builder) (layerName : string) : Builder :=
  let b := WriteString b (bindMount layerName) in
  let b := WriteString b
    ("    --mount=type=cache,dst=/home/user/.cache/npm,uid=1000,gid=1000 \"
     +:+ nl) in
  WriteString b ("    npm install -g /ctx" +:+ nl).

Definition writeCargoToml (b : Builder) (layerName : string) : Builder :=
  let b := WriteString b (bindMount layerName) in
  let b := WriteString b
    ("    --mount=type=cache,dst=/home/user/.cargo/registry,uid=1000,gid=1000 \"
     +:+ nl) in
  WriteString b ("    cargo install --path /ctx" +:+ nl).

Definition writeUserYml (b : Builder) (layerName : string) : Builder :=
  let b := WriteString b (bindMount layerName) in
  let b := WriteString b
    ("    --mount=type=cache,dst=/home/user/.cache/npm,uid=1000,gid=1000 \"
     +:+ nl) in
  WriteString b ("    cd /ctx && task -t user.yml install" +:+ nl).

(** [if !asUser { b.WriteString("USER user\n"); asUser = true }] *)
Definition switchToUser (st : Builder * bool) : Builder * bool :=
  let '(b, asUser) := st in
  if asUser then (b, asUser) else (WriteString b ("USER user" +:+ nl), true).

(** [writeLayerSteps]; [g.Layers[layerName]] is dereferenced: no result
    (a panic) for a layer that is not in the map. *)
Definition writeLayerSteps (Layers : gmap string LayerFiles) (b : Builder)
    (layerName pkg : string) : option Builder :=
  layer ← Layers !! layerName;
  let b := WriteString b ("# Layer: " +:+ layerName +:+ nl) in
  let asUser := false in
  let b :=
    if bool_decide (pkg = "rpm") && HasRpmList layer then
      match RpmPackages layer with
      | [] => b
      | pkgs => writeDnfInstall b pkgs (CoprRepos layer)
      end
    else if bool_decide (pkg = "deb") && HasDebList layer then
      match DebPackages layer with
      | [] => b
      | pkgs => writeAptInstall b pkgs
      end
    else b in
  let b := if HasRootYml layer then writeRootYml b layerName pkg else b in
  let '(b, asUser) :=
    if HasPixiToml layer then
      let '(b, asUser) := switchToUser (b, asUser) in
      (writePixiToml b layerName, asUser)
    else (b, asUser) in
  let '(b, asUser) :=
    if HasPackageJson layer then
      let '(b, asUser) := switchToUser (b, asUser) in
      (writePackageJson b layerName, asUser)
    else (b, asUser) in
  let '(b, asUser) :=
    if HasCargoToml layer then
      let '(b, asUser) := switchToUser (b, asUser) in
      (writeCargoToml b layerName, asUser)
    else (b, asUser) in
  let '(b, asUser) :=
    if HasUserYml layer then
      let '(b, asUser) := switchToUser (b, asUser) in
      (writeUserYml b layerName, asUser)
    else (b, asUser) in
  let b := if asUser : bool then WriteString b ("USER root" +:+ nl) else b in
  Some (WriteString b nl).
End Generate.

(** ** Concrete inputs *)

(** An enumeration of a map: by ascending key encoding, and its reverse. *)
Definition rangeAscending (V : Type) (m : gmap string V)
    : list (string * V) := map_to_list m.
Definition rangeDescending (V : Type) (m : gmap string V)
    : list (string * V) := reverse (map_to_list m).

(** [ComputeIntermediates] with the layer graph of the specification. *)
Definition computeWith (range : ∀ V : Type, gmap string V → list (string * V))
    (images : gmap string ResolvedImage.t) (layers : gmap string Layer.t)
    (cfg : Config) (tag : string)
    : option (gmap string ResolvedImage.t * option error) :=
  ComputeIntermediates range LayerGraph.ResolveLayerOrder
    LayerGraph.LayersProvidedByImage images layers cfg tag.

(** An image as the tests build it: tag [v1], registry [r], family [rpm]. *)
Definition testImage (name base : string) (external : bool)
    (layers : list string) : ResolvedImage.t :=
  ResolvedImage.Build name base external layers "v1" "r" "rpm" [] "" 0 0 None
    false "" ("r/" +:+ name +:+ ":v1") false.

Definition testConfig : Config :=
  {| Defaults := ImageConfig.Build "r" "rpm" [] "" None None None |}.

(** The intermediate that [createIntermediate] builds under [testConfig]. *)
Definition autoImage (name base : string) (external : bool)
    (layers : list string) : ResolvedImage.t :=
  ResolvedImage.Build name base external layers "v1" "r" "rpm"
    ["linux/amd64"; "linux/arm64"] "user" 1000 1000 None true "/home/user"
    ("r/" +:+ name +:+ ":v1") false.

Module SharedPrefix.
(** [TestComputeIntermediates_SharedPrefix] *)
Definition layers : gmap string Layer.t :=
  list_to_map
    [("pixi", Layer.Build "pixi" []);
     ("python", Layer.Build "python" ["pixi"]);
     ("supervisord", Layer.Build "supervisord" ["python"]);
     ("testapi", Layer.Build "testapi" ["supervisord"]);
     ("openclaw", Layer.Build "openclaw" ["supervisord"])].

Definition images : gmap string ResolvedImage.t :=
  list_to_map
    [("fedora", testImage "fedora" "ext:1" true []);
     ("fedora-test", testImage "fedora-test" "fedora" false ["testapi"]);
     ("openclaw", testImage "openclaw" "fedora" false ["openclaw"])].

(** The images after [ComputeIntermediates]. *)
Definition result : gmap string ResolvedImage.t :=
  list_to_map
    [("fedora", testImage "fedora" "ext:1" true []);
     ("supervisord",
      autoImage "supervisord" "fedora" false
                ["pixi"; "python"; "supervisord"]);
     ("fedora-test",
      testImage "fedora-test" "supervisord" false ["testapi"]);
     ("openclaw", testImage "openclaw" "supervisord" false ["openclaw"])].
End SharedPrefix.

(** Layers [a], [b], [c] without dependencies. *)
Definition plainLayers : gmap string Layer.t :=
  list_to_map
    [("a", Layer.Build "a" []); ("b", Layer.Build "b" []);
     ("c", Layer.Build "c" [])].

Module TwoGroups.
(** Two pairs of images on two external bases; each pair shares layer [a]. *)
Definition images : gmap string ResolvedImage.t :=
  list_to_map
    [("p1", testImage "p1" "e1" true ["a"; "b"]);
     ("p2", testImage "p2" "e1" true ["a"; "c"]);
     ("q1", testImage "q1" "e2" true ["a"; "b"]);
     ("q2", testImage "q2" "e2" true ["a"; "c"])].
End TwoGroups.

Module OneGroup.
(** Two images on one external base sharing layer [a]. *)
Definition images : gmap string ResolvedImage.t :=
  list_to_map
    [("p1", testImage "p1" "e1" true ["a"; "b"]);
     ("p2", testImage "p2" "e1" true ["a"; "c"])].
End OneGroup.

Module CollidingName.
(** As [OneGroup], on an external base whose reference is [a], the name of
    a layer. *)
Definition images : gmap string ResolvedImage.t :=
  list_to_map
    [("p1", testImage "p1" "a" true ["a"; "b"]);
     ("p2", testImage "p2" "a" true ["a"; "c"])].
End CollidingName.

Module InternalBase.
(** [TestAbsoluteLayerSequence_WithInternalBase] *)
Definition images : gmap string ResolvedImage.t :=
  list_to_map
    [("base", testImage "base" "ext:1" true ["pixi"]);
     ("app", testImage "app" "base" false ["python"; "testapi"])].
End InternalBase.

Module TieBreaking.
(** [TestGlobalLayerOrder_PopularityTieBreaking] *)
Definition layers : gmap string Layer.t :=
  list_to_map
    [("pixi", Layer.Build "pixi" []);
     ("nodejs", Layer.Build "nodejs" []);
     ("python", Layer.Build "python" ["pixi"]);
     ("testapi", Layer.Build "testapi" ["python"])].

Definition images : gmap string ResolvedImage.t :=
  list_to_map
    [("a", testImage "a" "ext:1" true ["pixi"; "python"; "testapi"]);
     ("b", testImage "b" "ext:1" true ["pixi"; "nodejs"])].

(** pixi is used by both images, the other layers by one. *)
Definition popularity : gmap string Z :=
  list_to_map [("pixi", 2); ("nodejs", 1); ("python", 1); ("testapi", 1)].

Definition order : list string := ["pixi"; "nodejs"; "python"; "testapi"].
End TieBreaking.

Module LoneImage.
(** Two images on one external base sharing layer [a], and one image alone
    on another base. *)
Definition images : gmap string ResolvedImage.t :=
  list_to_map
    [("p1", testImage "p1" "e1" true ["a"; "b"]);
     ("p2", testImage "p2" "e1" true ["a"; "c"]);
     ("s", testImage "s" "e2" true ["a"])].

Definition result : gmap string ResolvedImage.t :=
  list_to_map
    [("a", autoImage "a" "e1" true ["a"]);
     ("p1", testImage "p1" "a" false ["a"; "b"]);
     ("p2", testImage "p2" "a" false ["a"; "c"]);
     ("s", testImage "s" "e2" true ["a"])].
End LoneImage.

Module ApartImages.
(** Two images on two external bases. *)
Definition images : gmap string ResolvedImage.t :=
  list_to_map
    [("p", testImage "p" "e1" true ["a"; "b"]);
     ("q", testImage "q" "e2" true ["a"; "c"])].
End ApartImages.

Module SelfBase.
(** An image without own layers on an internal base. *)
Definition images : gmap string ResolvedImage.t :=
  list_to_map
    [("A", testImage "A" "ext:1" true ["a"]);
     ("R", testImage "R" "A" false [])].

Definition result : gmap string ResolvedImage.t :=
  list_to_map
    [("A", testImage "A" "R" false ["a"]);
     ("R", testImage "R" "R" false [])].
End SelfBase.

Module UnknownLayer.
(** An image that names a layer the layer map does not have. *)
Definition images : gmap string ResolvedImage.t :=
  list_to_map [("a", testImage "a" "ext:1" true ["missing"])].
End UnknownLayer.

(** The trie of the two images of [OneGroup]. *)
Definition OneGroup_trie : trieNode.t :=
  trieNode.Build ""
    [("a", trieNode.Build "a"
             [("b", trieNode.Build "b" [] ["p1"]);
              ("c", trieNode.Build "c" [] ["p2"])]
             [])]
    [].

(** * Proofs *)

(** ** The merge planner (C10) *)

(** Sum of the sizes of the layers of a step. *)
Definition sumSizes (sizes : list Z) (idxs : list nat) : Z :=
  foldr (λ i acc, default 0 (sizes !! i) + acc) 0 idxs.

(** A step respects the cap: a keep of one layer, or a merge whose sizes
    sum to at most [maxBytes]. *)
Definition stepWithinCap (sizes : list Z) (maxBytes : Z) (step : MergeStep.t)
    : Prop :=
  (MergeStep.Keep step = true ∧ ∃ i, MergeStep.Layers step = [i]) ∨
  (MergeStep.Keep step = false ∧
   sumSizes sizes (MergeStep.Layers step) ≤ maxBytes).

Lemma sumSizes_app sizes a b :
  sumSizes sizes (a ++ b) = sumSizes sizes a + sumSizes sizes b.
Proof.
  induction a as [|i a IH]; simpl; [lia|]. rewrite IH. lia.
Qed.

Lemma flush_within_cap sizes maxBytes acc step :
  ((2 ≤ length acc)%nat → sumSizes sizes acc ≤ maxBytes) →
  step ∈ flush acc → stepWithinCap sizes maxBytes step.
Proof.
  intros Hsum Hin. destruct acc as [|i [|j acc]]; simpl in Hin.
  - by apply elem_of_nil in Hin.
  - apply list_elem_of_singleton in Hin as ->. left. eauto.
  - apply list_elem_of_singleton in Hin as ->. right. split; [done|].
    apply Hsum. simpl. lia.
Qed.

Lemma planScan_within_cap maxBytes all rest :
  ∀ pre i acc sum step,
    all = pre ++ rest → i = length pre →
    sum = sumSizes all acc →
    ((2 ≤ length acc)%nat → sum ≤ maxBytes) →
    step ∈ planScan maxBytes rest i acc sum →
    stepWithinCap all maxBytes step.
Proof.
  induction rest as [|s rest IH]; intros pre i acc sum step Hall Hi Hsum Hcap Hin.
  - simpl in Hin. subst sum. by eapply flush_within_cap.
  - assert (Hs : all !! i = Some s).
    { subst all i. by rewrite lookup_app_r, Nat.sub_diag by lia. }
    assert (Hall' : all = (pre ++ [s]) ++ rest) by (by rewrite <- app_assoc).
    assert (Hi' : S i = length (pre ++ [s])).
    { rewrite length_app. simpl. lia. }
    simpl in Hin. destruct acc as [|a acc].
    + eapply (IH _ _ _ _ _ Hall' Hi'); [| |exact Hin].
      * simpl. rewrite Hs. simpl. lia.
      * simpl. lia.
    + case_bool_decide as Hle.
      * eapply (IH _ _ _ _ _ Hall' Hi'); [| |exact Hin].
        -- rewrite sumSizes_app, <- Hsum. simpl. rewrite Hs. simpl. lia.
        -- intros _. lia.
      * apply elem_of_app in Hin as [Hin|Hin].
        -- subst sum. by eapply flush_within_cap.
        -- eapply (IH _ _ _ _ _ Hall' Hi'); [| |exact Hin].
           ++ simpl. rewrite Hs. simpl. lia.
           ++ simpl. lia.
Qed.

Lemma planScan_large_alone maxBytes all rest :
  Forall (λ s, 0 ≤ s) all →
  ∀ pre i acc sum k s,
    all = pre ++ rest → i = length pre →
    0 ≤ sum →
    maxBytes < s →
    ((i ≤ k)%nat ∧ all !! k = Some s) ∨ (acc = [k] ∧ sum = s) →
    MergeStep.Build true [k] ∈ planScan maxBytes rest i acc sum.
Proof.
  intros Hnn.
  induction rest as [|s0 rest IH]; intros pre i acc sum k s Hall Hi Hsum Hbig Hk.
  - destruct Hk as [[Hik Hk]|[-> _]].
    + apply lookup_lt_Some in Hk. subst all i.
      rewrite app_nil_r in Hk. lia.
    + simpl. by apply list_elem_of_singleton.
  - assert (Hs0 : all !! i = Some s0).
    { subst all i. by rewrite lookup_app_r, Nat.sub_diag by lia. }
    assert (H0 : 0 ≤ s0).
    { rewrite Forall_forall in Hnn. apply Hnn.
      apply list_elem_of_lookup. eauto. }
    assert (Hall' : all = (pre ++ [s0]) ++ rest) by (by rewrite <- app_assoc).
    assert (Hi' : S i = length (pre ++ [s0])).
    { rewrite length_app. simpl. lia. }
    simpl. destruct Hk as [[Hik Hk]|[-> ->]].
    + destruct (decide (k = i)) as [->|Hne].
      * assert (s0 = s) as -> by congruence.
        destruct acc as [|a acc].
        -- eapply (IH _ _ _ _ _ s Hall' Hi'); [lia|done|]. right. done.
        -- rewrite bool_decide_eq_false_2 by lia.
           apply elem_of_app. right.
           eapply (IH _ _ _ _ _ s Hall' Hi'); [lia|done|]. right. done.
      * destruct acc as [|a acc].
        -- eapply (IH _ _ _ _ _ s Hall' Hi'); [lia|done|]. left. split; [lia|done].
        -- case_bool_decide.
           ++ eapply (IH _ _ _ _ _ s Hall' Hi'); [lia|done|]. left. split; [lia|done].
           ++ apply elem_of_app. right.
              eapply (IH _ _ _ _ _ s Hall' Hi'); [lia|done|]. left. split; [lia|done].
    + rewrite bool_decide_eq_false_2 by lia.
      apply elem_of_app. left. simpl. by apply list_elem_of_singleton.
Qed.

(** C10.  Every step of the plan is a keep of exactly one layer or a merge
    whose layer sizes sum to at most [maxBytes]; and, sizes being byte
    counts, a layer larger than [maxBytes] is a keep step of its own. *)
Theorem planMerge_size_bound (sizes : list Z) (maxBytes : Z) :
  (∀ step, step ∈ planMerge sizes maxBytes →
           stepWithinCap sizes maxBytes step) ∧
  (Forall (λ s, 0 ≤ s) sizes →
   ∀ k s, sizes !! k = Some s → maxBytes < s →
          MergeStep.Build true [k] ∈ planMerge sizes maxBytes).
Proof.
  split.
  - intros step Hin.
    eapply (planScan_within_cap maxBytes sizes sizes [] 0%nat [] 0);
      [done|done|done|simpl; lia|exact Hin].
  - intros Hnn k s Hk Hbig.
    eapply (planScan_large_alone maxBytes sizes sizes Hnn [] 0%nat [] 0 k s);
      [done|done|lia|done|].
    left. split; [lia|done].
Qed.

Lemma planMerge_size_bound_witness :
  (∀ step, step ∈ planMerge [10 * mb; 300 * mb; 20 * mb] (256 * mb) →
           stepWithinCap [10 * mb; 300 * mb; 20 * mb] (256 * mb) step) ∧
  MergeStep.Build true [1%nat]
    ∈ planMerge [10 * mb; 300 * mb; 20 * mb] (256 * mb).
Proof.
  destruct (planMerge_size_bound [10 * mb; 300 * mb; 20 * mb] (256 * mb))
    as [Hcap Hbig].
  split; [exact Hcap|].
  apply (Hbig ltac:(repeat constructor; vm_compute; discriminate)
              1%nat (300 * mb));
    [reflexivity | vm_compute; reflexivity].
Defined.

(** ** sortByPopularity sorts *)

(** [a] goes before [b]: higher popularity first, ties by ascending name. *)
Definition before (popularity : gmap string Z) (a b : string) : Prop :=
  intAt popularity b < intAt popularity a ∨
  (intAt popularity a = intAt popularity b ∧ String.le a b).

Lemma before_refl popularity a : before popularity a a.
Proof. right. split; [done|]. reflexivity. Qed.

Lemma before_trans popularity a b c :
  before popularity a b → before popularity b c → before popularity a c.
Proof.
  unfold before. intros [?|[? Hab]] [?|[? Hbc]]; try (left; lia).
  right. split; [lia|]. by etrans.
Qed.

Lemma before_antisym popularity a b :
  before popularity a b → before popularity b a → a = b.
Proof.
  unfold before. intros [?|[? Hab]] [?|[? Hba]]; try lia.
  by apply (anti_symm String.le).
Qed.

Lemma stringGt_false a b : stringGt a b = false → String.le a b.
Proof.
  unfold stringGt, String.ltb, String.le, String.leb.
  rewrite (String.compare_antisym a b).
  by destruct (String.compare b a).
Qed.

Lemma stringGt_true a b : stringGt a b = true → String.le b a.
Proof.
  unfold stringGt, String.ltb, String.le, String.leb.
  by destruct (String.compare b a).
Qed.

Lemma stringGt_true_ne a b : stringGt a b = true → a ≠ b.
Proof.
  unfold stringGt, String.ltb. intros Hlt ->.
  assert (String.compare b b = Eq) as Heq.
  { pose proof (String.compare_antisym b b) as H.
    destruct (String.compare b b); simpl in H; congruence. }
  by rewrite Heq in Hlt.
Qed.

(** The test of [sortByPopularity] swaps exactly the pairs that are out
    of order. *)
Lemma swap_test_false popularity a b :
  bool_decide (intAt popularity a < intAt popularity b)
  || (bool_decide (intAt popularity a = intAt popularity b) && stringGt a b)
  = false →
  before popularity a b.
Proof.
  intros [Hlt Hrest]%orb_false_iff.
  apply bool_decide_eq_false in Hlt.
  apply andb_false_iff in Hrest as [Heq|Hgt].
  - apply bool_decide_eq_false in Heq. left. lia.
  - destruct (decide (intAt popularity a = intAt popularity b)).
    + right. split; [done|]. by apply stringGt_false.
    + left. lia.
Qed.

Lemma swap_test_true popularity a b :
  bool_decide (intAt popularity a < intAt popularity b)
  || (bool_decide (intAt popularity a = intAt popularity b) && stringGt a b)
  = true →
  before popularity b a.
Proof.
  intros [Hlt|[Heq Hgt]%andb_true_iff]%orb_true_iff.
  - apply bool_decide_eq_true in Hlt. by left.
  - apply bool_decide_eq_true in Heq. right. split; [done|].
    by apply stringGt_true.
Qed.

Lemma insert_cons_Permutation {A} (s : list A) j x y :
  s !! j = Some y → y :: <[j := x]> s ≡ₚ x :: s.
Proof.
  revert j. induction s as [|a s IH]; intros [|j] Hj; simplify_eq/=.
  - apply perm_swap.
  - rewrite perm_swap, (IH _ Hj). apply perm_swap.
Qed.

Lemma swap_Permutation {A} (s : list A) i j x y :
  s !! i = Some x → s !! j = Some y → <[j := x]> (<[i := y]> s) ≡ₚ s.
Proof.
  revert i j. induction s as [|a s IH]; intros [|i] [|j] Hi Hj;
    simplify_eq/=; try done.
  - by apply insert_cons_Permutation.
  - by apply insert_cons_Permutation.
  - f_equiv. by apply IH.
Qed.

Lemma swapIfOutOfOrder_Permutation popularity i j s :
  swapIfOutOfOrder popularity i j s ≡ₚ s.
Proof.
  unfold swapIfOutOfOrder.
  destruct (s !! i) as [si|] eqn:Hi; [|done].
  destruct (s !! j) as [sj|] eqn:Hj; [|done].
  case_match; [|done]. by apply swap_Permutation.
Qed.

Lemma swapIfOutOfOrder_length popularity i j s :
  length (swapIfOutOfOrder popularity i j s) = length s.
Proof. by rewrite swapIfOutOfOrder_Permutation. Qed.

(** What the swap does to the positions of the slice. *)
Lemma swapIfOutOfOrder_lookup popularity i j s si sj :
  i ≠ j → s !! i = Some si → s !! j = Some sj →
  ∃ si' sj',
    swapIfOutOfOrder popularity i j s !! i = Some si' ∧
    swapIfOutOfOrder popularity i j s !! j = Some sj' ∧
    before popularity si' sj' ∧
    ((si' = si ∧ sj' = sj) ∨ (si' = sj ∧ sj' = si)) ∧
    ∀ k, k ≠ i → k ≠ j → swapIfOutOfOrder popularity i j s !! k = s !! k.
Proof.
  intros Hne Hi Hj. unfold swapIfOutOfOrder. rewrite Hi, Hj.
  pose proof (lookup_lt_Some _ _ _ Hi) as Hli.
  pose proof (lookup_lt_Some _ _ _ Hj) as Hlj.
  destruct (bool_decide _ || _) eqn:Htest.
  - exists sj, si. split_and!.
    + rewrite list_lookup_insert_ne by done.
      by rewrite list_lookup_insert_eq.
    + rewrite list_lookup_insert_eq; [done|]. by rewrite length_insert.
    + by apply swap_test_true.
    + by right.
    + intros k Hki Hkj. by rewrite !list_lookup_insert_ne.
  - exists si, sj. split_and!; [done|done| |by left|done].
    by apply swap_test_false.
Qed.

(** Invariants of a counting loop. *)
Lemma foldl_seq_invariant {A} (f : A → nat → A) (P : nat → A → Prop)
    (start len : nat) (a : A) :
  P start a →
  (∀ k a, (start ≤ k < start + len)%nat → P k a → P (S k) (f a k)) →
  P (start + len)%nat (foldl f a (seq start len)).
Proof.
  revert start a. induction len as [|len IH]; intros start a Ha Hstep.
  - by rewrite Nat.add_0_r.
  - simpl. rewrite <- Nat.add_succ_comm. apply IH.
    + apply Hstep; [lia|done].
    + intros k b Hk. apply Hstep. lia.
Qed.

(** The slice is sorted up to position [i]: every element before [i] goes
    before everything that follows it. *)
Definition sortedUpTo (popularity : gmap string Z) (i : nat)
    (s : list string) : Prop :=
  ∀ a b x y, (a < i)%nat → (a < b)%nat →
             s !! a = Some x → s !! b = Some y → before popularity x y.

Lemma sortInner_spec popularity i s :
  (S i < length s)%nat →
  sortedUpTo popularity i s →
  sortInner popularity i s ≡ₚ s ∧
  sortedUpTo popularity (S i) (sortInner popularity i s).
Proof.
  intros Hi Hsorted. unfold sortInner.
  pose (P := λ (j : nat) (t : list string),
          t ≡ₚ s ∧ sortedUpTo popularity i t ∧
          ∀ k x y, (i < k < j)%nat → t !! i = Some x → t !! k = Some y →
                   before popularity x y).
  assert (HP : P (S i + (length s - S i))%nat
                 (foldl (λ s j, swapIfOutOfOrder popularity i j s) s
                    (seq (S i) (length s - S i)))).
  { apply (foldl_seq_invariant _ P).
    - split_and!; [done|done|]. intros k x y Hk. lia.
    - intros j t Hj (Hperm & Hsort & Hmin).
      assert (Hlen : length t = length s) by (by rewrite Hperm).
      destruct (lookup_lt_is_Some_2 t i) as [ti Hti]; [lia|].
      destruct (lookup_lt_is_Some_2 t j) as [tj Htj]; [lia|].
      destruct (swapIfOutOfOrder_lookup popularity i j t ti tj)
        as (ti' & tj' & Hi' & Hj' & Hord & Hcases & Hother); [lia|done|done|].
      split_and!.
      + by rewrite swapIfOutOfOrder_Permutation.
      + intros a b x y Ha Hab Hxa Hyb.
        rewrite Hother in Hxa by lia.
        destruct (decide (b = i)) as [->|Hbi];
          [|destruct (decide (b = j)) as [->|Hbj]].
        * rewrite Hi' in Hyb. simplify_eq.
          destruct Hcases as [[-> _]|[-> _]];
            [apply (Hsort a i)|apply (Hsort a j)]; done || lia.
        * rewrite Hj' in Hyb. simplify_eq.
          destruct Hcases as [[_ ->]|[_ ->]];
            [apply (Hsort a j)|apply (Hsort a i)]; done || lia.
        * rewrite Hother in Hyb by done. by apply (Hsort a b).
      + intros k x y Hk Hx Hy. rewrite Hi' in Hx. simplify_eq.
        destruct (decide (k = j)) as [->|Hkj].
        * rewrite Hj' in Hy. by simplify_eq.
        * rewrite Hother in Hy by lia.
          assert (before popularity ti y) by (apply (Hmin k); [lia|done..]).
          destruct Hcases as [[-> _]|[-> ->]]; [done|].
          by eapply before_trans. }
  destruct HP as (Hperm & Hsort & Hmin). split; [done|].
  intros a b x y Ha Hab Hx Hy.
  destruct (decide (a = i)) as [->|Hai].
  - apply (Hmin b); [|done..]. apply lookup_lt_Some in Hy.
    rewrite Hperm in Hy. lia.
  - apply (Hsort a b); [lia|done..].
Qed.

Lemma sortByPopularity_spec s popularity :
  sortByPopularity s popularity ≡ₚ s ∧
  sortedUpTo popularity (length s) (sortByPopularity s popularity).
Proof.
  unfold sortByPopularity.
  pose (P := λ (i : nat) (t : list string),
          t ≡ₚ s ∧ sortedUpTo popularity i t).
  assert (HP : P (0 + (length s - 1))%nat
                 (foldl (λ s i, sortInner popularity i s) s
                    (seq 0 (length s - 1)))).
  { apply (foldl_seq_invariant _ P).
    - split; [done|]. intros a b x y Ha. lia.
    - intros i t Hi [Hperm Hsort].
      assert (Hlen : length t = length s) by (by rewrite Hperm).
      destruct (sortInner_spec popularity i t) as [Hperm' Hsort'];
        [lia|done|].
      split; [by rewrite Hperm'|done]. }
  destruct HP as [Hperm Hsort]. split; [done|].
  intros a b x y Ha Hab Hx Hy.
  apply (Hsort a b); [|done..].
  apply lookup_lt_Some in Hy. rewrite Hperm in Hy. simpl. lia.
Qed.

Lemma sortByPopularity_Permutation s popularity :
  sortByPopularity s popularity ≡ₚ s.
Proof. apply sortByPopularity_spec. Qed.

(** The head of a sorted queue goes before every element of the queue. *)
Lemma sortByPopularity_head s popularity node queue :
  sortByPopularity s popularity = node :: queue →
  ∀ c, c ∈ s → before popularity node c.
Proof.
  intros Hsorted c Hc.
  destruct (sortByPopularity_spec s popularity) as [Hperm Hsort].
  rewrite <- Hperm, Hsorted in Hc. rewrite Hsorted in Hsort.
  apply elem_of_cons in Hc as [->|Hc]; [apply before_refl|].
  apply list_elem_of_lookup in Hc as [k Hk].
  apply (Hsort 0%nat (S k) node c); simpl; try done.
  - rewrite <- Hperm, Hsorted. simpl. lia.
  - lia.
Qed.

(** ** Loops over a map *)

(** Number of occurrences of [x] in [l]. *)
Definition occ (x : string) (l : list string) : nat :=
  length (filter (λ y, y = x) l).

Lemma occ_nil x : occ x [] = 0%nat.
Proof. done. Qed.

Lemma occ_cons x y l :
  occ x (y :: l) = ((if decide (y = x) then 1 else 0) + occ x l)%nat.
Proof.
  unfold occ. rewrite filter_cons. by destruct (decide (y = x)).
Qed.

Lemma occ_app x l k : occ x (l ++ k) = (occ x l + occ x k)%nat.
Proof. unfold occ. by rewrite filter_app, length_app. Qed.

Lemma occ_pos x l : x ∈ l ↔ (0 < occ x l)%nat.
Proof.
  induction l as [|y l IH].
  - rewrite occ_nil. split; [by intros ?%elem_of_nil|lia].
  - rewrite occ_cons, elem_of_cons. destruct (decide (y = x)) as [->|].
    + split; [lia|by left].
    + rewrite IH. split; [intros [?|?]; [congruence|lia]|intros; right; lia].
Qed.

Section RangeProofs.
Variable range : ∀ V : Type, gmap string V → list (string * V).
Hypothesis range_Permutation :
  ∀ (V : Type) (m : gmap string V), range V m ≡ₚ map_to_list m.

Lemma range_elem_of {V} (m : gmap string V) k v :
  (k, v) ∈ range V m ↔ m !! k = Some v.
Proof. by rewrite range_Permutation, elem_of_map_to_list. Qed.

Lemma range_NoDup_keys {V} (m : gmap string V) : NoDup (range V m).*1.
Proof. rewrite range_Permutation. apply NoDup_fst_map_to_list. Qed.

Lemma range_list_to_map {V} (m : gmap string V) :
  list_to_map (range V m) = m.
Proof.
  rewrite <- (list_to_map_to_list m) at 2.
  apply list_to_map_proper; [apply range_NoDup_keys|].
  apply range_Permutation.
Qed.

(** A loop over [range m] establishes whatever holds of the empty map and
    is preserved when one more entry of [m] is visited. *)
Lemma range_foldl_ind {V A} (P : gmap string V → A → Prop)
    (f : A → string * V → A) (a : A) (m : gmap string V) :
  P ∅ a →
  (∀ k v visited a,
     visited !! k = None → m !! k = Some v → visited ⊆ m →
     P visited a → P (<[k := v]> visited) (f a (k, v))) →
  P m (foldl f a (range V m)).
Proof.
  intros Hempty Hstep.
  assert (Hgen : ∀ l : list (string * V),
            NoDup l.*1 → (∀ k v, (k, v) ∈ l → m !! k = Some v) →
            P (list_to_map l) (foldl f a l)).
  { induction l as [|[k v] l IH] using rev_ind; intros Hnd Hin; [done|].
    rewrite fmap_app in Hnd. apply NoDup_app in Hnd as (Hnd & Hk & _).
    assert (Hfresh : k ∉ l.*1).
    { intros Hkl. apply (Hk k Hkl). simpl. by left. }
    rewrite foldl_app, list_to_map_snoc by done. simpl.
    apply Hstep.
    - by apply not_elem_of_list_to_map_1.
    - apply Hin, elem_of_app. right. by left.
    - apply map_subseteq_spec. intros k' v' Hk'.
      apply elem_of_list_to_map in Hk'; [|done].
      apply Hin, elem_of_app. by left.
    - apply IH; [done|]. intros k' v' Hk'. apply Hin, elem_of_app. by left. }
  rewrite <- (range_list_to_map m) at 1.
  apply Hgen; [apply range_NoDup_keys|]. intros k v. apply range_elem_of.
Qed.

(** *** The first loops of topoSortByPopularity *)

Definition dependentsOf (reverseGraph : gmap string (list string))
    (d : string) : list string :=
  default [] (reverseGraph !! d).

Lemma reverse_edges_spec node deps (rg : gmap string (list string)) c d :
  occ c (dependentsOf
           (foldl (λ rg dep, <[dep := default [] (rg !! dep) ++ [node]]> rg)
                  rg deps) d)
  = (occ c (dependentsOf rg d)
     + if decide (node = c) then occ d deps else 0)%nat.
Proof.
  revert rg. induction deps as [|dep deps IH]; intros rg; simpl.
  - rewrite occ_nil. destruct (decide _); lia.
  - rewrite IH, occ_cons. unfold dependentsOf at 1.
    destruct (decide (dep = d)) as [->|Hne].
    + rewrite lookup_insert_eq. simpl. rewrite occ_app, occ_cons, occ_nil.
      unfold dependentsOf. destruct (decide (node = c)); lia.
    + rewrite lookup_insert_ne by done. fold (dependentsOf rg d).
      destruct (decide (node = c)); lia.
Qed.

Lemma buildInDegree_spec (graph : gmap string (list string)) :
  (buildInDegree range graph).1
  = (λ deps, Z.of_nat (length deps)) <$> graph ∧
  ∀ c d,
    occ c (dependentsOf (buildInDegree range graph).2 d)
    = match graph !! c with Some deps => occ d deps | None => 0%nat end.
Proof.
  unfold buildInDegree.
  apply (range_foldl_ind
           (λ visited st,
              st.1 = (λ deps, Z.of_nat (length deps)) <$> visited ∧
              ∀ c d, occ c (dependentsOf st.2 d)
                     = match visited !! c with
                       | Some deps => occ d deps
                       | None => 0%nat
                       end)).
  - simpl. split; [by rewrite fmap_empty|]. intros c d.
    unfold dependentsOf. by rewrite !lookup_empty.
  - intros node deps visited [inDegree rg] Hfresh _ _ [Hdeg Hrev].
    simpl in *. split.
    + by rewrite fmap_insert, Hdeg.
    + intros c d. rewrite reverse_edges_spec, Hrev.
      destruct (decide (node = c)) as [->|Hne].
      * rewrite lookup_insert_eq, Hfresh. lia.
      * rewrite lookup_insert_ne by done. lia.
Qed.

Lemma initialQueue_spec (inDegree : gmap string Z) :
  NoDup (initialQueue range inDegree) ∧
  ∀ c, c ∈ initialQueue range inDegree ↔ inDegree !! c = Some 0.
Proof.
  unfold initialQueue.
  apply (range_foldl_ind
           (λ visited queue,
              NoDup queue ∧ ∀ c, c ∈ queue ↔ visited !! c = Some 0)).
  - split; [constructor|]. intros c. rewrite lookup_empty.
    split; [by intros ?%elem_of_nil|done].
  - intros node degree visited queue Hfresh _ _ [Hnd Hin].
    case_bool_decide as Hzero.
    + subst degree. split.
      * apply NoDup_app. split_and!; [done| |apply NoDup_singleton].
        intros x Hx ->%list_elem_of_singleton.
        apply Hin in Hx. congruence.
      * intros c. rewrite elem_of_app, list_elem_of_singleton, Hin.
        destruct (decide (node = c)) as [->|Hne].
        -- rewrite lookup_insert_eq. naive_solver.
        -- rewrite lookup_insert_ne by done. naive_solver.
    + split; [done|]. intros c. rewrite Hin.
      destruct (decide (node = c)) as [->|Hne].
      * rewrite lookup_insert_eq, Hfresh. naive_solver.
      * by rewrite lookup_insert_ne.
Qed.

End RangeProofs.

(** ** Kahn's algorithm *)

Section Kahn.
Variable graph : gmap string (list string).
Variable popularity : gmap string Z.
Variable reverseGraph : gmap string (list string).
Hypothesis reverseGraph_spec :
  ∀ c d, occ c (dependentsOf reverseGraph d)
         = match graph !! c with Some deps => occ d deps | None => 0%nat end.

(** [c] is a zero-in-degree candidate once [emitted] is out: a node of the
    graph, not emitted, with all its dependencies emitted. *)
Definition candidate (emitted : list string) (c : string) : Prop :=
  ∃ deps, graph !! c = Some deps ∧ (c ∉ emitted) ∧ (∀ d, d ∈ deps → d ∈ emitted).

(** Every node of [order] was, when emitted, a candidate going before all
    the candidates of that step. *)
Definition priorityOrder (order : list string) : Prop :=
  ∀ pre n post, order = pre ++ n :: post →
    candidate pre n ∧ ∀ c, candidate pre c → before popularity n c.

(** Number of entries of [deps] not emitted yet. *)
Definition pending (deps emitted : list string) : nat :=
  length (filter (λ d, d ∉ emitted) deps).

Lemma pending_zero deps emitted :
  pending deps emitted = 0%nat ↔ ∀ d, d ∈ deps → d ∈ emitted.
Proof.
  unfold pending. induction deps as [|d deps IH]; simpl.
  - split; [by intros _ ? ?%elem_of_nil|done].
  - rewrite filter_cons. destruct (decide (d ∉ emitted)) as [Hd|Hd].
    + simpl. split; [lia|]. intros Hall. destruct Hd. apply Hall. by left.
    + apply dec_stable in Hd. rewrite IH. split.
      * intros Hall x [->|?]%elem_of_cons; auto.
      * intros Hall x ?. apply Hall. by right.
Qed.

Lemma pending_snoc deps emitted node :
  node ∉ emitted →
  pending deps emitted = (pending deps (emitted ++ [node]) + occ node deps)%nat.
Proof.
  intros Hnode. unfold pending. induction deps as [|d deps IH]; [done|].
  rewrite occ_cons, !filter_cons.
  destruct (decide (d = node)) as [->|Hne].
  - rewrite decide_True by done.
    rewrite (decide_False (P := node ∉ emitted ++ [node])).
    + simpl. lia.
    + intros Hn. apply Hn, elem_of_app. right. by left.
  - destruct (decide (d ∉ emitted)) as [Hd|Hd].
    + rewrite decide_True.
      * simpl. lia.
      * intros [?|?%list_elem_of_singleton]%elem_of_app; done.
    + rewrite decide_False.
      * simpl. lia.
      * intros Hn. apply Hd. intros ?. apply Hn, elem_of_app. by left.
Qed.

Lemma priorityOrder_nil : priorityOrder [].
Proof. intros pre n post H. by destruct pre. Qed.

Lemma priorityOrder_snoc order node :
  priorityOrder order → candidate order node →
  (∀ c, candidate order c → before popularity node c) →
  priorityOrder (order ++ [node]).
Proof.
  intros Hord Hcand Hmin pre n post Heq.
  destruct post as [|p post _] using rev_ind.
  - apply (app_inj_tail order pre node n) in Heq as [-> ->]. done.
  - rewrite app_comm_cons, app_assoc in Heq.
    apply app_inj_tail in Heq as [-> _]. by apply (Hord pre n post).
Qed.

Lemma priorityOrder_elem order c :
  priorityOrder order → c ∈ order →
  ∃ deps, graph !! c = Some deps ∧ ∀ d, d ∈ deps → d ∈ order.
Proof.
  intros Hord (pre & post & ->)%list_elem_of_split.
  destruct (Hord pre c post eq_refl) as [(deps & Hdeps & _ & Hall) _].
  exists deps. split; [done|]. intros d Hd. apply elem_of_app. left. auto.
Qed.

(** *** The loop over the dependents of the emitted node *)

Lemma releaseDependents_spec dependents :
  ∀ inDegree queue,
    (∀ c, c ∈ dependents → Z.of_nat (occ c dependents) ≤ intAt inDegree c) →
    NoDup queue → (∀ c, c ∈ queue → c ∉ dependents) →
    let r := releaseDependents dependents inDegree queue in
    (∀ c, intAt r.1 c = intAt inDegree c - Z.of_nat (occ c dependents)) ∧
    NoDup r.2 ∧
    ∀ c, c ∈ r.2 ↔
         c ∈ queue ∨
         (c ∈ dependents ∧ intAt inDegree c = Z.of_nat (occ c dependents)).
Proof.
  unfold releaseDependents.
  induction dependents as [|dep l IH]; intros inDegree queue Hle Hnd Hdisj.
  - simpl. split_and!; [intros c; rewrite occ_nil; lia|done|].
    intros c. split; [by left|]. intros [?|[?%elem_of_nil _]]; done.
  - simpl.
    set (d := intAt inDegree dep - 1).
    set (inDegree' := <[dep := d]> inDegree).
    set (queue' := if bool_decide (d = 0) then queue ++ [dep] else queue).
    assert (Hat : ∀ c, intAt inDegree' c
                       = if decide (dep = c) then d else intAt inDegree c).
    { intros c. unfold intAt, inDegree'. destruct (decide (dep = c)) as [->|].
      - by rewrite lookup_insert_eq.
      - by rewrite lookup_insert_ne. }
    assert (Hdepq : dep ∉ queue).
    { intros Hq. apply (Hdisj _ Hq). by left. }
    assert (Hdep : Z.of_nat (occ dep (dep :: l)) ≤ intAt inDegree dep).
    { apply Hle. by left. }
    rewrite occ_cons, decide_True in Hdep by done.
    destruct (IH inDegree' queue') as (Hdeg & Hnd' & Hin).
    + intros c Hc. rewrite Hat. destruct (decide (dep = c)) as [<-|Hne].
      * unfold d. lia.
      * assert (Hc' : c ∈ dep :: l) by (apply elem_of_cons; by right).
        specialize (Hle c Hc').
        rewrite occ_cons, decide_False in Hle by done. simpl in Hle. lia.
    + unfold queue'. case_bool_decide; [|done].
      apply NoDup_app. split_and!; [done| |apply NoDup_singleton].
      by intros x Hx ->%list_elem_of_singleton.
    + intros c Hc Hcl. unfold queue' in Hc.
      assert (c ∈ queue ∨ (d = 0 ∧ c = dep)) as [Hq|[Hd ->]].
      { case_bool_decide; [|by left].
        apply elem_of_app in Hc as [?|?%list_elem_of_singleton]; auto. }
      * apply (Hdisj _ Hq). by right.
      * apply occ_pos in Hcl. unfold d in Hd. clear - Hdep Hcl Hd. lia.
    + split_and!; [|done|].
      * intros c. rewrite Hdeg, Hat, occ_cons.
        destruct (decide (dep = c)) as [<-|?]; unfold d; lia.
      * intros c. rewrite Hin, Hat, occ_cons, elem_of_cons.
        destruct (decide (dep = c)) as [<-|Hne].
        -- unfold queue'. split.
           ++ intros [Hq|[Hl Hd]].
              ** case_bool_decide as Hz; [|by left].
                 apply elem_of_app in Hq as [?|_]; [by left|].
                 right. split; [by left|].
                 assert (occ dep l = 0%nat) as ->; [|unfold d in Hz; lia].
                 unfold d in Hz. lia.
              ** right. split; [by left|]. unfold d in Hd. lia.
           ++ intros [Hq|[_ Hd]]; [done|].
              destruct (decide (dep ∈ l)) as [Hl|Hl].
              ** right. split; [done|]. unfold d. lia.
              ** assert (occ dep l = 0%nat) as Hz.
                 { destruct (occ dep l) eqn:E; [done|].
                   destruct Hl. apply occ_pos. lia. }
                 left. rewrite bool_decide_eq_true_2 by (unfold d; lia).
                 apply elem_of_app. right. by left.
        -- assert (c ∈ queue' ↔ c ∈ queue) as ->.
           { unfold queue'. case_bool_decide; [|done].
             rewrite elem_of_app, list_elem_of_singleton. naive_solver. }
           simpl. naive_solver.
Qed.
(** *** The main loop *)

Definition kahnInv (queue : list string) (inDegree : gmap string Z)
    (result : list string) : Prop :=
  NoDup result ∧ NoDup queue ∧
  (∀ c, c ∈ queue ↔ candidate result c) ∧
  (∀ c deps, graph !! c = Some deps →
             intAt inDegree c = Z.of_nat (pending deps result)) ∧
  priorityOrder result.

Lemma dependents_edge node c :
  c ∈ dependentsOf reverseGraph node →
  ∃ deps, graph !! c = Some deps ∧ node ∈ deps ∧
          occ c (dependentsOf reverseGraph node) = occ node deps.
Proof.
  intros Hc%occ_pos. rewrite reverseGraph_spec in Hc.
  destruct (graph !! c) as [deps|] eqn:Hdeps; [|lia].
  exists deps. split_and!; [done|by apply occ_pos|].
  by rewrite reverseGraph_spec, Hdeps.
Qed.

Lemma kahn_step node queue inDegree result :
  kahnInv (node :: queue) inDegree result →
  (∀ c, c ∈ node :: queue → before popularity node c) →
  let r := releaseDependents (dependentsOf reverseGraph node) inDegree queue in
  kahnInv (sortByPopularity r.2 popularity) r.1 (result ++ [node]).
Proof.
  intros (Hndr & Hndq & Hq & Hdeg & Hord) Hmin.
  apply NoDup_cons in Hndq as [Hnq Hndq].
  assert (Hnode : candidate result node) by (apply Hq; by left).
  destruct Hnode as (ndeps & Hngraph & Hnres & Hnall).
  destruct (releaseDependents_spec (dependentsOf reverseGraph node)
              inDegree queue) as (Hdeg' & Hnd' & Hin'); [| done | |].
  { intros c (deps & Hdeps & Hn & ->)%dependents_edge.
    rewrite (Hdeg c deps Hdeps), (pending_snoc deps result node Hnres). lia. }
  { intros c Hc (deps & Hdeps & Hn & _)%dependents_edge.
    assert (Hcand : candidate result c) by (apply Hq; by right).
    destruct Hcand as (deps' & Hdeps' & _ & Hall).
    simplify_eq. apply Hnres. auto. }
  simpl. split_and!.
  - apply NoDup_app. split_and!; [done| |apply NoDup_singleton].
    by intros x Hx ->%list_elem_of_singleton.
  - by rewrite sortByPopularity_Permutation.
  - intros c. rewrite sortByPopularity_Permutation, Hin'. split.
    + intros [Hc|[Hc Heq]].
      * assert (Hcand : candidate result c) by (apply Hq; by right).
        destruct Hcand as (deps & Hdeps & Hcres & Hall).
        exists deps. split_and!; [done| |].
        -- intros [?| ->%list_elem_of_singleton]%elem_of_app; done.
        -- intros d Hd. apply elem_of_app. left. auto.
      * apply dependents_edge in Hc as (deps & Hdeps & Hn & Hocc).
        rewrite (Hdeg c deps Hdeps), Hocc,
          (pending_snoc deps result node Hnres) in Heq.
        assert (Hpend : pending deps (result ++ [node]) = 0%nat) by lia.
        exists deps. split_and!; [done| |by apply pending_zero].
        intros [Hcr| ->%list_elem_of_singleton]%elem_of_app.
        -- destruct (priorityOrder_elem result c Hord Hcr)
             as (deps' & Hdeps' & Hall).
           simplify_eq. apply Hnres. auto.
        -- simplify_eq. apply Hnres. auto.
    + intros (deps & Hdeps & Hcres & Hall).
      assert (Hcn : c ≠ node).
      { intros ->. apply Hcres, elem_of_app. right. by left. }
      assert (Hcr : c ∉ result).
      { intros ?. apply Hcres, elem_of_app. by left. }
      destruct (decide (node ∈ deps)) as [Hn|Hn].
      * right.
        assert (Hocc : occ c (dependentsOf reverseGraph node) = occ node deps).
        { by rewrite reverseGraph_spec, Hdeps. }
        split.
        -- apply occ_pos. rewrite Hocc. by apply occ_pos.
        -- rewrite (Hdeg c deps Hdeps), Hocc,
             (pending_snoc deps result node Hnres).
           apply pending_zero in Hall. lia.
      * left. assert (Hcand : candidate result c).
        { exists deps. split_and!; [done..|]. intros d Hd.
          specialize (Hall d Hd).
          apply elem_of_app in Hall as [?| ->%list_elem_of_singleton]; done. }
        apply Hq in Hcand. apply elem_of_cons in Hcand as [?|?]; done.
  - intros c deps Hdeps. rewrite Hdeg', (Hdeg c deps Hdeps).
    rewrite reverseGraph_spec, Hdeps,
      (pending_snoc deps result node Hnres). lia.
  - apply priorityOrder_snoc; [done|by exists ndeps|].
    intros c Hc. apply Hmin. by apply Hq.
Qed.

Lemma NoDup_nodes_length (l : list string) :
  NoDup l → (∀ c, c ∈ l → is_Some (graph !! c)) → (length l ≤ size graph)%nat.
Proof.
  intros Hnd Hin. rewrite <- length_map_to_list.
  rewrite <- (length_fmap fst (map_to_list graph)).
  apply submseteq_length, NoDup_submseteq; [done|].
  intros c [deps Hc]%Hin. apply list_elem_of_fmap.
  exists (c, deps). split; [done|]. by apply elem_of_map_to_list.
Qed.

Lemma kahnLoop_spec fuel :
  ∀ queue inDegree result,
    kahnInv (sortByPopularity queue popularity) inDegree result →
    (size graph ≤ length result + fuel)%nat →
    ∃ order,
      kahnLoop fuel reverseGraph popularity
               (sortByPopularity queue popularity) inDegree result
      = Some order ∧
      NoDup order ∧ priorityOrder order ∧ (∀ c, ¬ candidate order c).
Proof.
  induction fuel as [|fuel IH]; intros queue inDegree result Hinv Hfuel.
  - destruct (sortByPopularity queue popularity) as [|node q] eqn:Hsorted.
    + exists result. destruct Hinv as (Hnd & _ & Hq & _ & Hord).
      split_and!; [done..|]. intros c Hc%Hq. by apply elem_of_nil in Hc.
    + exfalso. destruct Hinv as (Hndr & Hndq & Hq & _ & Hord).
      assert (Hnode : candidate result node) by (apply Hq; by left).
      destruct Hnode as (deps & Hdeps & Hnres & _).
      assert (Hlen : (length (result ++ [node]) ≤ size graph)%nat).
      { apply NoDup_nodes_length.
        - apply NoDup_app. split_and!; [done| |apply NoDup_singleton].
          by intros x Hx ->%list_elem_of_singleton.
        - intros c [Hc| ->%list_elem_of_singleton]%elem_of_app; [|eauto].
          destruct (priorityOrder_elem result c Hord Hc) as (? & ? & _).
          eauto. }
      rewrite length_app in Hlen. simpl in Hlen. lia.
  - destruct (sortByPopularity queue popularity) as [|node q] eqn:Hsorted.
    + exists result. destruct Hinv as (Hnd & _ & Hq & _ & Hord).
      split_and!; [done..|]. intros c Hc%Hq. by apply elem_of_nil in Hc.
    + simpl.
      pose proof (kahn_step node q inDegree result Hinv) as Hstep.
      destruct (releaseDependents (dependentsOf reverseGraph node) inDegree q)
        as [inDegree' queue'] eqn:Hrel.
      fold (dependentsOf reverseGraph node). rewrite Hrel.
      apply IH.
      * apply Hstep. intros c Hc. rewrite <- Hsorted in Hc.
        rewrite sortByPopularity_Permutation in Hc.
        by eapply sortByPopularity_head.
      * rewrite length_app. simpl. lia.
Qed.
End Kahn.

(** *** Dependency cycles *)

(** [c] depends on [d] in the graph. *)
Definition edge (graph : gmap string (list string)) (c d : string) : Prop :=
  ∃ deps, graph !! c = Some deps ∧ d ∈ deps.

Definition hasCycle (graph : gmap string (list string)) : Prop :=
  ∃ c, tc (edge graph) c c.

(** Every dependency of a node of the graph is a node of the graph. *)
Definition closedGraph (graph : gmap string (list string)) : Prop :=
  ∀ c d, edge graph c d → is_Some (graph !! d).

Section KahnOrder.
Variable graph : gmap string (list string).
Variable popularity : gmap string Z.
Variable order : list string.
Hypothesis order_NoDup : NoDup order.
Hypothesis order_priority : priorityOrder graph popularity order.

Lemma order_nodes c : c ∈ order → is_Some (graph !! c).
Proof.
  intros Hc.
  destruct (priorityOrder_elem graph popularity order c order_priority Hc)
    as (deps & Hdeps & _).
  eauto.
Qed.

Lemma order_length : (length order ≤ size graph)%nat.
Proof. apply NoDup_nodes_length; [done|apply order_nodes]. Qed.

(** A dependency comes strictly earlier in the order. *)
Lemma order_edge c d j :
  edge graph c d → order !! j = Some c →
  ∃ i, (i < j)%nat ∧ order !! i = Some d.
Proof.
  intros (deps & Hdeps & Hd) Hj.
  pose proof (take_drop_middle order j c Hj) as Hsplit.
  destruct (order_priority (take j order) c (drop (S j) order))
    as [(deps' & Hdeps' & _ & Hall) _]; [done|].
  simplify_eq. apply Hall, list_elem_of_lookup in Hd as [i Hi].
  pose proof (lookup_lt_Some _ _ _ Hi) as Hlt.
  rewrite length_take in Hlt. exists i. split; [lia|].
  rewrite lookup_take_lt in Hi by lia. done.
Qed.

Lemma order_tc c d j :
  tc (edge graph) c d → order !! j = Some c →
  ∃ i, (i < j)%nat ∧ order !! i = Some d.
Proof.
  intros Htc. revert j. induction Htc as [c d Hcd|c d e Hcd _ IH]; intros j Hj.
  - by eapply order_edge.
  - destruct (order_edge c d j Hcd Hj) as (i & Hij & Hi).
    destruct (IH i Hi) as (k & Hki & Hk). exists k. split; [lia|done].
Qed.

Lemma order_complete_nodes :
  length order = size graph → ∀ c, is_Some (graph !! c) → c ∈ order.
Proof.
  intros Hlen c [deps Hc].
  assert (Hperm : order ≡ₚ (map_to_list graph).*1).
  { apply submseteq_length_Permutation.
    - apply NoDup_submseteq; [done|].
      intros x [deps' Hx]%order_nodes. apply list_elem_of_fmap.
      exists (x, deps'). split; [done|]. by apply elem_of_map_to_list.
    - rewrite length_fmap, length_map_to_list. lia. }
  rewrite Hperm. apply list_elem_of_fmap.
  exists (c, deps). split; [done|]. by apply elem_of_map_to_list.
Qed.

Lemma order_complete_acyclic :
  length order = size graph → ¬ hasCycle graph.
Proof.
  intros Hlen [c Hcycle].
  assert (Hc : is_Some (graph !! c)).
  { inversion Hcycle as [? ? (deps & ? & _)|? ? ? (deps & ? & _)]; eauto. }
  apply (order_complete_nodes Hlen), list_elem_of_lookup in Hc as [j Hj].
  destruct (order_tc c c j Hcycle Hj) as (i & Hij & Hi).
  pose proof (NoDup_lookup _ _ _ _ order_NoDup Hi Hj). lia.
Qed.

(** The nodes that were never emitted. *)
Definition stuck (c : string) : Prop := is_Some (graph !! c) ∧ c ∉ order.

Hypothesis graph_closed : closedGraph graph.
Hypothesis order_final : ∀ c, ¬ candidate graph order c.

Lemma stuck_edge c : stuck c → ∃ d, stuck d ∧ edge graph c d.
Proof.
  intros [[deps Hdeps] Hc].
  destruct (decide (Forall (λ d, d ∈ order) deps)) as [Hall|Hex].
  - destruct (order_final c). exists deps. split_and!; [done..|].
    by apply Forall_forall.
  - apply not_Forall_Exists, Exists_exists in Hex as (d & Hd & Hdo); [|apply _].
    assert (Hedge : edge graph c d) by (by exists deps).
    exists d. split; [|done]. split; [|done]. by eapply graph_closed.
Qed.

(** Following dependencies among the stuck nodes runs into a node already
    seen: the chain cannot grow beyond the size of the graph. *)
Lemma stuck_chain_cycle n :
  ∀ h chain,
    NoDup (h :: chain) → (∀ x, x ∈ h :: chain → stuck x) →
    (∀ x, x ∈ chain → tc (edge graph) x h) →
    (size graph - length (h :: chain) ≤ n)%nat →
    hasCycle graph.
Proof.
  induction n as [|n IH]; intros h chain Hnd Hstuck Hreach Hn.
  - destruct (stuck_edge h) as (d & Hd & Hhd); [apply Hstuck; by left|].
    destruct (decide (d ∈ h :: chain)) as [Hin|Hnin].
    + apply elem_of_cons in Hin as [->|Hin].
      * exists h. by apply tc_once.
      * exists d. eapply tc_r; [by apply Hreach|done].
    + exfalso.
      assert (Hlen : (length (d :: h :: chain) ≤ size graph)%nat).
      { apply NoDup_nodes_length; [by apply NoDup_cons|].
        intros x [->|Hx]%elem_of_cons; [apply Hd|by apply Hstuck]. }
      simpl in *. lia.
  - destruct (stuck_edge h) as (d & Hd & Hhd); [apply Hstuck; by left|].
    destruct (decide (d ∈ h :: chain)) as [Hin|Hnin].
    + apply elem_of_cons in Hin as [->|Hin].
      * exists h. by apply tc_once.
      * exists d. eapply tc_r; [by apply Hreach|done].
    + apply (IH d (h :: chain)).
      * by apply NoDup_cons.
      * intros x [->|Hx]%elem_of_cons; [done|by apply Hstuck].
      * intros x [->|Hx]%elem_of_cons; [by apply tc_once|].
        eapply tc_r; [by apply Hreach|done].
      * simpl in *. lia.
Qed.

Lemma order_incomplete_cycle :
  length order ≠ size graph → hasCycle graph.
Proof.
  intros Hlen.
  destruct (decide (Forall (λ c, c ∈ order) (map_to_list graph).*1))
    as [Hall|Hex].
  - exfalso. apply Hlen, Nat.le_antisymm; [apply order_length|].
    rewrite <- length_map_to_list, <- (length_fmap fst (map_to_list graph)).
    apply submseteq_length, NoDup_submseteq; [apply NoDup_fst_map_to_list|].
    by apply Forall_forall.
  - apply not_Forall_Exists, Exists_exists in Hex as (c & Hc & Hco); [|apply _].
    apply list_elem_of_fmap in Hc as ([c' deps] & Heq & Hc).
    apply elem_of_map_to_list in Hc. simpl in Heq. subst c'.
    apply (stuck_chain_cycle (size graph) c []).
    + apply NoDup_singleton.
    + intros x ->%list_elem_of_singleton. split; [eauto|done].
    + by intros x ?%elem_of_nil.
    + lia.
Qed.
End KahnOrder.

(** *** topoSortByPopularity *)

Section TopoSort.
Variable range : ∀ V : Type, gmap string V → list (string * V).
Hypothesis range_Permutation :
  ∀ (V : Type) (m : gmap string V), range V m ≡ₚ map_to_list m.

Lemma pending_nil deps : pending deps [] = length deps.
Proof.
  unfold pending. induction deps as [|d deps IH]; [done|].
  rewrite filter_cons_True by (by intros ?%elem_of_nil).
  cbn [length]. by f_equal.
Qed.

(** The loop always runs to its end; its result lists nodes of the graph
    without repetition, each emitted by priority among the candidates of its
    step, and leaves no candidate behind. *)
Lemma kahnEmitted_spec graph popularity :
  ∃ emitted,
    kahnEmitted range graph popularity = Some emitted ∧
    NoDup emitted ∧ priorityOrder graph popularity emitted ∧
    (∀ c, ¬ candidate graph emitted c).
Proof.
  unfold kahnEmitted.
  destruct (buildInDegree_spec range range_Permutation graph) as [Hdeg Hrev].
  destruct (buildInDegree range graph) as [inDegree reverseGraph].
  simpl in Hdeg, Hrev.
  destruct (initialQueue_spec range range_Permutation inDegree) as [Hnd Hq].
  apply kahnLoop_spec with (graph := graph); [done| |simpl; lia].
  split_and!.
  - constructor.
  - by rewrite sortByPopularity_Permutation.
  - intros c. rewrite sortByPopularity_Permutation, Hq, Hdeg, lookup_fmap.
    split.
    + destruct (graph !! c) as [deps|] eqn:Hc; [|done]. simpl.
      intros Hlen. exists deps. split_and!; [done|by intros ?%elem_of_nil|].
      destruct deps; [|simplify_eq/=; lia]. by intros d ?%elem_of_nil.
    + intros (deps & -> & _ & Hall). simpl. do 2 f_equal.
      destruct deps as [|d deps]; [done|].
      exfalso. apply (elem_of_nil d), Hall. by left.
  - intros c deps Hc. unfold intAt.
    by rewrite Hdeg, lookup_fmap, Hc, pending_nil.
  - apply priorityOrder_nil.
Qed.

Lemma topoSortByPopularity_spec graph popularity :
  ∃ emitted,
    kahnEmitted range graph popularity = Some emitted ∧
    NoDup emitted ∧ priorityOrder graph popularity emitted ∧
    (∀ c, ¬ candidate graph emitted c) ∧
    (length emitted ≤ size graph)%nat ∧
    topoSortByPopularity range graph popularity
    = Some (if decide (length emitted = size graph) then (emitted, None)
            else ([], Some ErrCycleDetected)).
Proof.
  destruct (kahnEmitted_spec graph popularity)
    as (emitted & Hrun & Hnd & Hord & Hfinal).
  exists emitted. split_and!; [done..| |].
  - by eapply order_length.
  - unfold topoSortByPopularity. rewrite Hrun. simpl.
    case_bool_decide; case_decide; done.
Qed.

(** The sort fails exactly on the graphs with a cycle. *)
Lemma topoSortByPopularity_cycle graph popularity :
  closedGraph graph →
  ∃ emitted,
    kahnEmitted range graph popularity = Some emitted ∧
    ((length emitted < size graph)%nat ↔ hasCycle graph) ∧
    (hasCycle graph →
     topoSortByPopularity range graph popularity
     = Some ([], Some ErrCycleDetected)) ∧
    (¬ hasCycle graph →
     topoSortByPopularity range graph popularity = Some (emitted, None)).
Proof.
  intros Hclosed.
  destruct (topoSortByPopularity_spec graph popularity)
    as (emitted & Hrun & Hnd & Hord & Hfinal & Hlen & Htopo).
  exists emitted. split; [done|].
  assert (Hiff : length emitted ≠ size graph ↔ hasCycle graph).
  { split.
    - by eapply order_incomplete_cycle.
    - intros Hcycle Heq. by eapply order_complete_acyclic. }
  split_and!.
  - rewrite <- Hiff. lia.
  - intros Hcycle%Hiff. rewrite Htopo. by rewrite decide_False.
  - intros Hacyclic. rewrite Htopo. rewrite decide_True; [done|].
    destruct (decide (length emitted = size graph)); [done|].
    destruct Hacyclic. by apply Hiff.
Qed.
End TopoSort.

(** ** The layers of an image and their popularity *)

Section GlobalOrder.
Variable range : ∀ V : Type, gmap string V → list (string * V).
Hypothesis range_Permutation :
  ∀ (V : Type) (m : gmap string V), range V m ≡ₚ map_to_list m.
Variable ResolveLayerOrder :
  list string → gmap string Layer.t → option (gmap string bool) →
  list string * option error.

(** The transitive closure of an image: its own resolved layers and those
    inherited through the chain of internal bases. *)
Inductive inClosure (images : gmap string ResolvedImage.t)
    (layers : gmap string Layer.t) : string → string → Prop :=
| closure_own name img resolved l :
    images !! name = Some img →
    ResolveLayerOrder (ResolvedImage.Layers img) layers None
    = (resolved, None) →
    l ∈ resolved → inClosure images layers name l
| closure_base name img l :
    images !! name = Some img →
    ResolvedImage.IsExternalBase img = false →
    inClosure images layers (ResolvedImage.Base img) l →
    inClosure images layers name l.

Lemma appendUnseen_spec resolved :
  ∀ seen result,
    (∀ l, l ∈ seen ↔ l ∈ result) → NoDup result →
    let r := appendUnseen (seen, result) resolved in
    (∀ l, l ∈ r.1 ↔ l ∈ r.2) ∧ NoDup r.2 ∧
    (∀ l, l ∈ r.2 ↔ l ∈ result ∨ l ∈ resolved).
Proof.
  unfold appendUnseen.
  induction resolved as [|x resolved IH]; intros seen result Hseen Hnd; simpl.
  - split_and!; [done..|]. intros l. rewrite elem_of_nil. naive_solver.
  - case_bool_decide as Hx.
    + destruct (IH seen result Hseen Hnd) as (Hs & Hn & Hin).
      split_and!; [done..|]. intros l. rewrite Hin, elem_of_cons.
      split; [naive_solver|]. intros [?|[->|?]]; auto.
      left. by apply Hseen.
    + destruct (IH ({[x]} ∪ seen) (result ++ [x])) as (Hs & Hn & Hin).
      * intros l. rewrite elem_of_union, elem_of_singleton, elem_of_app,
          list_elem_of_singleton, Hseen. naive_solver.
      * apply NoDup_app. split_and!; [done| |apply NoDup_singleton].
        intros l Hl ->%list_elem_of_singleton. by apply Hx, Hseen.
      * split_and!; [done..|]. intros l.
        rewrite Hin, elem_of_app, list_elem_of_singleton, elem_of_cons.
        naive_solver.
Qed.

Lemma walk_spec images layers fuel :
  ∀ name seen result seen' result',
    walk ResolveLayerOrder fuel images layers name (seen, result)
    = Some (seen', result') →
    (∀ l, l ∈ seen ↔ l ∈ result) → NoDup result →
    (∀ l, l ∈ seen' ↔ l ∈ result') ∧ NoDup result' ∧
    (∀ l, l ∈ result' ↔ l ∈ result ∨ inClosure images layers name l).
Proof.
  induction fuel as [|fuel IH];
    intros name seen result seen' result' Hwalk Hseen Hnd; [done|].
  simpl in Hwalk. destruct (images !! name) as [img|] eqn:Himg.
  - assert (Hbase : ∃ seen1 result1,
              (if ResolvedImage.IsExternalBase img then Some (seen, result)
               else walk ResolveLayerOrder fuel images layers
                         (ResolvedImage.Base img) (seen, result))
              = Some (seen1, result1) ∧
              match ResolveLayerOrder (ResolvedImage.Layers img) layers None
              with
              | (_, Some _) => Some (seen1, result1)
              | (resolved, None) =>
                  Some (appendUnseen (seen1, result1) resolved)
              end = Some (seen', result')).
    { destruct (if ResolvedImage.IsExternalBase img then _ else _)
        as [[seen1 result1]|]; [|done].
      by exists seen1, result1. }
    clear Hwalk. destruct Hbase as (seen1 & result1 & Hbase & Hown).
    assert (Hinv1 : (∀ l, l ∈ seen1 ↔ l ∈ result1) ∧ NoDup result1 ∧
                    (∀ l, l ∈ result1 ↔
                          l ∈ result ∨
                          (ResolvedImage.IsExternalBase img = false ∧
                           inClosure images layers
                                     (ResolvedImage.Base img) l))).
    { destruct (ResolvedImage.IsExternalBase img) eqn:Hext.
      - simplify_eq. split_and!; [done..|]. naive_solver.
      - destruct (IH _ _ _ _ _ Hbase Hseen Hnd) as (Hs & Hn & Hin).
        split_and!; [done..|]. intros l. rewrite Hin. naive_solver. }
    destruct Hinv1 as (Hseen1 & Hnd1 & Hin1).
    destruct (ResolveLayerOrder (ResolvedImage.Layers img) layers None)
      as [resolved [err|]] eqn:Hres.
    + simplify_eq. split_and!; [done..|]. intros l. rewrite Hin1. split.
      * intros [?|[Hext Hl]]; [by left|]. right. by eapply closure_base.
      * intros [?|Hl]; [by left|]. right.
        inversion Hl as [? img' ? ? Himg' Hres'|? img' ? Himg' Hext' Hl'];
          simplify_eq; [congruence|done].
    + destruct (appendUnseen_spec resolved seen1 result1 Hseen1 Hnd1)
        as (Hs & Hn & Hin).
      destruct (appendUnseen (seen1, result1) resolved) as [s r].
      simplify_eq. simpl in *. split_and!; [done..|].
      intros l. rewrite Hin, Hin1. split.
      * intros [[?|[Hext Hl]]|Hl]; [by left|right..].
        -- by eapply closure_base.
        -- by eapply closure_own.
      * intros [?|Hl]; [by left; left|].
        inversion Hl as [? img' ? ? Himg' Hres'|? img' ? Himg' Hext' Hl'];
          simplify_eq.
        -- right. congruence.
        -- left. by right.
  - simplify_eq. split_and!; [done..|]. intros l. split; [by left|].
    intros [?|Hl]; [done|]. inversion Hl; simplify_eq.
Qed.

Lemma collectAllImageLayers_spec imageName images layers allLayers :
  collectAllImageLayers ResolveLayerOrder imageName images layers
  = Some allLayers →
  NoDup allLayers ∧
  ∀ l, l ∈ allLayers ↔ inClosure images layers imageName l.
Proof.
  unfold collectAllImageLayers. intros Hwalk.
  destruct (walk ResolveLayerOrder (S (size images)) images layers imageName
              (∅, [])) as [[seen result]|] eqn:Hw; [|done].
  simpl in Hwalk. simplify_eq.
  destruct (walk_spec _ _ _ _ _ _ _ _ Hw) as (_ & Hnd & Hin).
  - intros l. by rewrite elem_of_nil, elem_of_empty.
  - constructor.
  - split; [done|]. intros l. rewrite Hin, elem_of_nil. naive_solver.
Qed.

Lemma AbsoluteLayerSequence_spec imageName images layers globalOrder seq :
  AbsoluteLayerSequence ResolveLayerOrder imageName images layers globalOrder
  = Some seq →
  sublist seq globalOrder ∧
  ∀ l, l ∈ seq ↔ l ∈ globalOrder ∧ inClosure images layers imageName l.
Proof.
  unfold AbsoluteLayerSequence. intros Hseq.
  destruct (collectAllImageLayers ResolveLayerOrder imageName images layers)
    as [allLayers|] eqn:Hall; [|done].
  simpl in Hseq. simplify_eq.
  apply collectAllImageLayers_spec in Hall as [_ Hall].
  split; [apply sublist_filter|].
  intros l. rewrite list_elem_of_filter, elem_of_list_to_set, Hall.
  naive_solver.
Qed.
(** *** Popularity *)

(** An image needs [l]: [l] is in its transitive closure or among its own
    resolved layers. *)
Definition needs (images : gmap string ResolvedImage.t)
    (layers : gmap string Layer.t) (img : ResolvedImage.t) (l : string)
    : Prop :=
  inClosure images layers (ResolvedImage.Name img) l ∨
  ∃ resolved,
    ResolveLayerOrder (ResolvedImage.Layers img) layers None
    = (resolved, None) ∧ l ∈ resolved.

Lemma mergeResolved_spec allLayers resolved :
  NoDup allLayers →
  NoDup (mergeResolved allLayers resolved) ∧
  ∀ l, l ∈ mergeResolved allLayers resolved ↔ l ∈ allLayers ∨ l ∈ resolved.
Proof.
  intros Hnd. unfold mergeResolved.
  destruct (appendUnseen_spec resolved (list_to_set allLayers) allLayers)
    as (_ & Hn & Hin); [|done|done].
  intros l. by rewrite elem_of_list_to_set.
Qed.

Lemma increment_intAt popularity x l :
  intAt (increment popularity x) l
  = intAt popularity l + (if decide (x = l) then 1 else 0).
Proof.
  unfold increment, intAt. destruct (decide (x = l)) as [->|Hne].
  - by rewrite lookup_insert_eq.
  - rewrite lookup_insert_ne by done. lia.
Qed.

Lemma foldl_increment_intAt ls :
  ∀ popularity l,
    intAt (foldl increment popularity ls) l
    = intAt popularity l + Z.of_nat (occ l ls).
Proof.
  induction ls as [|x ls IH]; intros popularity l; simpl.
  - rewrite occ_nil. lia.
  - rewrite IH, increment_intAt, occ_cons. destruct (decide (x = l)); lia.
Qed.

Lemma foldl_increment_is_Some ls :
  ∀ (popularity : gmap string Z) l,
    is_Some (foldl increment popularity ls !! l)
    ↔ is_Some (popularity !! l) ∨ l ∈ ls.
Proof.
  induction ls as [|x ls IH]; intros popularity l; simpl.
  - rewrite elem_of_nil. naive_solver.
  - rewrite IH, elem_of_cons. unfold increment.
    destruct (decide (x = l)) as [->|Hne].
    + rewrite lookup_insert_eq. naive_solver.
    + rewrite lookup_insert_ne by done. naive_solver.
Qed.

Lemma countPopularity_spec images layers todo :
  ∀ popularity0 popularity,
    countPopularity ResolveLayerOrder images layers todo popularity0
    = Some (inr popularity) →
    ∀ l, is_Some (popularity !! l)
         ↔ is_Some (popularity0 !! l) ∨
           ∃ k img, (k, img) ∈ todo ∧ needs images layers img l.
Proof.
  induction todo as [|[k img] todo IH]; intros popularity0 popularity Hcount l.
  - simpl in Hcount. simplify_eq. split; [by left|].
    intros [?|(? & ? & ?%elem_of_nil & _)]; done.
  - simpl in Hcount.
    destruct (ResolveLayerOrder (ResolvedImage.Layers img) layers None)
      as [resolved [err|]] eqn:Hres; [done|].
    destruct (collectAllImageLayers ResolveLayerOrder (ResolvedImage.Name img)
                images layers) as [allLayers|] eqn:Hall; [|done].
    simpl in Hcount. rewrite (IH _ _ Hcount l).
    apply collectAllImageLayers_spec in Hall as [Hnd Hall].
    destruct (mergeResolved_spec allLayers resolved Hnd) as [_ Hmerge].
    rewrite foldl_increment_is_Some, Hmerge, Hall.
    split.
    + intros [[?|[Hl|Hl]]|(k' & img' & Hin & Hneeds)]; [by left|right..].
      * exists k, img. split; [by left|by left].
      * exists k, img. split; [by left|]. right. eauto.
      * exists k', img'. split; [by right|done].
    + intros [?|(k' & img' & Hin & Hneeds)]; [by left; left|].
      apply elem_of_cons in Hin as [?|Hin]; [simplify_eq|by right; eauto].
      left. right. destruct Hneeds as [?|(resolved' & ? & ?)]; [by left|].
      right. congruence.
Qed.

(** *** The dependency graph *)

Lemma buildGraph_lookup popularity layers c :
  buildGraph range popularity layers !! c
  = (if decide (is_Some (popularity !! c)) then
       (λ layer, filter (λ dep, is_Some (popularity !! dep))
                        (Layer.Depends layer)) <$> layers !! c
     else None).
Proof.
  revert c. unfold buildGraph.
  pose (P := λ (visited : gmap string Z) (graph : gmap string (list string)),
          ∀ c, graph !! c
               = if decide (is_Some (visited !! c)) then
                   (λ layer, filter (λ dep, is_Some (popularity !! dep))
                                    (Layer.Depends layer)) <$> layers !! c
                 else None).
  apply (range_foldl_ind range range_Permutation P); unfold P; clear P.
  - intros c'. rewrite lookup_empty, decide_False; [done|].
    by intros [? ?].
  - intros k v visited graph Hfresh _ _ IH c'.
    destruct (decide (k = c')) as [->|Hne].
    + rewrite lookup_insert_eq, decide_True by eauto.
      destruct (layers !! c') as [layer|] eqn:Hlayer.
      * by rewrite lookup_insert_eq.
      * rewrite IH, decide_False; [done|]. rewrite Hfresh. by intros [? ?].
    + rewrite (lookup_insert_ne visited) by done.
      destruct (layers !! k) as [layer|] eqn:Hlayer.
      * rewrite lookup_insert_ne by done. apply IH.
      * apply IH.
Qed.

Lemma buildGraph_edge popularity layers c d :
  edge (buildGraph range popularity layers) c d
  ↔ is_Some (popularity !! c) ∧ is_Some (popularity !! d) ∧
    ∃ layer, layers !! c = Some layer ∧ d ∈ Layer.Depends layer.
Proof.
  unfold edge. setoid_rewrite buildGraph_lookup. split.
  - intros (deps & Hdeps & Hd). case_decide as Hc; [|done].
    destruct (layers !! c) as [layer|]; [|done]. simplify_eq/=.
    apply list_elem_of_filter in Hd as [Hd Hin]. eauto.
  - intros (Hc & Hd & layer & Hlayer & Hin). rewrite decide_True, Hlayer by done.
    eexists. split; [done|]. by apply list_elem_of_filter.
Qed.

Lemma GlobalLayerOrder_unfold images layers popularity :
  countPopularity ResolveLayerOrder images layers (range _ images) ∅
  = Some (inr popularity) →
  GlobalLayerOrder range ResolveLayerOrder images layers
  = topoSortByPopularity range (buildGraph range popularity layers) popularity.
Proof. intros Hcount. unfold GlobalLayerOrder. by rewrite Hcount. Qed.


(** C4.  In the order GlobalLayerOrder returns no layer is listed twice, and
    for every dependency edge between layers in use ([v] lists [u] in its
    Depends) the index of [u] is strictly less than the index of [v]. *)
Theorem GlobalLayerOrder_topological images layers popularity order :
  countPopularity ResolveLayerOrder images layers (range _ images) ∅
  = Some (inr popularity) →
  GlobalLayerOrder range ResolveLayerOrder images layers = Some (order, None) →
  NoDup order ∧
  ∀ u v layer,
    layers !! v = Some layer → u ∈ Layer.Depends layer →
    is_Some (popularity !! u) → is_Some (popularity !! v) →
    ∃ i j, order !! i = Some u ∧ order !! j = Some v ∧ (i < j)%nat.
Proof.
  intros Hcount Hglobal.
  destruct (topoSortByPopularity_spec range range_Permutation
              (buildGraph range popularity layers) popularity)
    as (emitted & Hrun & Hnd & Hord & Hfinal & Hlen & Htopo).
  rewrite (GlobalLayerOrder_unfold _ _ _ Hcount), Htopo in Hglobal.
  case_decide as Hcomplete; [|done]. simplify_eq. split; [done|].
  intros u v layer Hlayer Hu Hpu Hpv.
  assert (Hedge : edge (buildGraph range popularity layers) v u).
  { apply buildGraph_edge. eauto 10. }
  assert (Hv : v ∈ order).
  { eapply order_complete_nodes; [done..|].
    destruct Hedge as (deps & -> & _). eauto. }
  apply list_elem_of_lookup in Hv as [j Hj].
  destruct (order_edge _ _ _ Hord v u j Hedge Hj) as (i & Hij & Hi).
  eauto.
Qed.
(** *** With a resolver that only returns known layers *)

(** The specification of [ResolveLayerOrder]: "fails if a name is
    unknown". *)
Hypothesis ResolveLayerOrder_known :
  ∀ selection layers resolved l,
    ResolveLayerOrder selection layers None = (resolved, None) →
    l ∈ resolved → is_Some (layers !! l).

Lemma inClosure_known images layers name l :
  inClosure images layers name l → is_Some (layers !! l).
Proof. induction 1; eauto. Qed.

Lemma popularity_known images layers popularity l :
  countPopularity ResolveLayerOrder images layers (range _ images) ∅
  = Some (inr popularity) →
  is_Some (popularity !! l) → is_Some (layers !! l).
Proof.
  intros Hcount Hl.
  apply (countPopularity_spec _ _ _ _ _ Hcount) in Hl
    as [Hl|(k & img & _ & [Hl|(resolved & Hres & Hl)])].
  - rewrite lookup_empty in Hl. by destruct Hl.
  - by eapply inClosure_known.
  - eauto.
Qed.

Lemma buildGraph_closed images layers popularity :
  countPopularity ResolveLayerOrder images layers (range _ images) ∅
  = Some (inr popularity) →
  closedGraph (buildGraph range popularity layers).
Proof.
  intros Hcount c d (_ & Hd & _)%buildGraph_edge.
  rewrite buildGraph_lookup, decide_True by done.
  destruct (popularity_known _ _ _ _ Hcount Hd) as [layer ->]. eauto.
Qed.


Lemma countPopularity_collects images layers todo :
  ∀ popularity0 popularity k img,
    countPopularity ResolveLayerOrder images layers todo popularity0
    = Some (inr popularity) →
    (k, img) ∈ todo →
    is_Some (collectAllImageLayers ResolveLayerOrder
               (ResolvedImage.Name img) images layers).
Proof.
  induction todo as [|[k' img'] todo IH];
    intros popularity0 popularity k img Hcount Hin.
  - by apply elem_of_nil in Hin.
  - simpl in Hcount.
    destruct (ResolveLayerOrder (ResolvedImage.Layers img') layers None)
      as [resolved [err|]] eqn:Hres; [done|].
    destruct (collectAllImageLayers ResolveLayerOrder
                (ResolvedImage.Name img') images layers)
      as [allLayers|] eqn:Hall; [|done].
    simpl in Hcount. apply elem_of_cons in Hin as [?|Hin].
    + simplify_eq. by rewrite Hall.
    + by eapply IH.
Qed.

(** C5.  Whatever the global order, the absolute sequence is a subsequence
    of it holding its members that are in the transitive closure of the
    image.  With the order GlobalLayerOrder returns, the absolute sequence
    of every image of the map exists and holds exactly the layers of the
    closure of the image. *)
Theorem AbsoluteLayerSequence_subsequence images layers :
  (∀ imageName globalOrder seq,
     AbsoluteLayerSequence ResolveLayerOrder imageName images layers
                           globalOrder = Some seq →
     sublist seq globalOrder ∧
     ∀ l, l ∈ seq ↔ l ∈ globalOrder ∧ inClosure images layers imageName l) ∧
  (∀ order k img,
     GlobalLayerOrder range ResolveLayerOrder images layers
     = Some (order, None) →
     images !! k = Some img →
     ∃ seq,
       AbsoluteLayerSequence ResolveLayerOrder (ResolvedImage.Name img)
                             images layers order = Some seq ∧
       sublist seq order ∧
       ∀ l, l ∈ seq ↔ inClosure images layers (ResolvedImage.Name img) l).
Proof.
  split; [intros ? ? ?; apply AbsoluteLayerSequence_spec|].
  intros order k img Hglobal Himg.
  destruct (countPopularity ResolveLayerOrder images layers (range _ images) ∅)
    as [[err|popularity]|] eqn:Hcount.
  { unfold GlobalLayerOrder in Hglobal. by rewrite Hcount in Hglobal. }
  2: { unfold GlobalLayerOrder in Hglobal. by rewrite Hcount in Hglobal. }
  assert (Hin : (k, img) ∈ range _ images)
    by (by apply (range_elem_of range range_Permutation)).
  destruct (countPopularity_collects _ _ _ _ _ _ _ Hcount Hin)
    as [allLayers Hall].
  unfold AbsoluteLayerSequence at 1. rewrite Hall. simpl.
  eexists. split; [done|].
  assert (Hseq : AbsoluteLayerSequence ResolveLayerOrder
                   (ResolvedImage.Name img) images layers order
                 = Some (filter (λ l, l ∈ (list_to_set allLayers : gset string))
                                order)).
  { unfold AbsoluteLayerSequence. by rewrite Hall. }
  apply AbsoluteLayerSequence_spec in Hseq as [Hsub Hmem].
  split; [done|]. intros l. rewrite Hmem. split; [naive_solver|].
  intros Hl. split; [|done].
  destruct (topoSortByPopularity_spec range range_Permutation
              (buildGraph range popularity layers) popularity)
    as (emitted & Hrun & Hnd & Hord & Hfinal & Hlen & Htopo).
  rewrite (GlobalLayerOrder_unfold _ _ _ Hcount), Htopo in Hglobal.
  case_decide as Hcomplete; [|done]. simplify_eq.
  eapply order_complete_nodes; [done..|].
  assert (Hpop : is_Some (popularity !! l)).
  { apply (countPopularity_spec _ _ _ _ _ Hcount). right.
    exists k, img. split; [done|by left]. }
  rewrite buildGraph_lookup, decide_True by done.
  destruct (popularity_known _ _ _ _ Hcount Hpop) as [layer ->]. eauto.
Qed.
End GlobalOrder.

(** ** The layer graph of the specification *)

Lemma rangeAscending_Permutation (V : Type) (m : gmap string V) :
  rangeAscending V m ≡ₚ map_to_list m.
Proof. done. Qed.

Lemma rangeDescending_Permutation (V : Type) (m : gmap string V) :
  rangeDescending V m ≡ₚ map_to_list m.
Proof. unfold rangeDescending. by rewrite reverse_Permutation. Qed.

Lemma emit_elem_of fuel layers needed :
  ∀ remaining emitted l,
    l ∈ LayerGraph.emit fuel layers needed remaining emitted →
    l ∈ remaining ∨ l ∈ emitted.
Proof.
  induction fuel as [|fuel IH]; intros remaining emitted l Hl; simpl in Hl.
  - by right.
  - destruct (List.find _ remaining) as [x|] eqn:Hfind; [|by right].
    apply List.find_some in Hfind as [Hx%list_elem_of_In _].
    apply IH in Hl as [Hl|Hl].
    + apply list_elem_of_filter in Hl as [_ Hl]. by left.
    + apply elem_of_app in Hl as [Hl| ->%list_elem_of_singleton]; auto.
Qed.

(** The resolver of the specification returns known layers only. *)
Lemma ResolveLayerOrder_model_known selection layers resolved l :
  LayerGraph.ResolveLayerOrder selection layers None = (resolved, None) →
  l ∈ resolved → is_Some (layers !! l).
Proof.
  unfold LayerGraph.ResolveLayerOrder. intros Hres Hl.
  destruct (List.find _ _) as [x|] eqn:Hfind; [done|].
  case_bool_decide; [|done]. simplify_eq.
  apply emit_elem_of in Hl as [Hl|Hl]; [|by apply elem_of_nil in Hl].
  apply list_elem_of_In in Hl.
  pose proof (List.find_none _ _ Hfind l Hl) as Hknown. simpl in Hknown.
  apply bool_decide_eq_false in Hknown.
  by apply not_eq_None_Some.
Qed.

(** ** The theorems on the tie-breaking scenario of the tests *)

Lemma TieBreaking_popularity :
  countPopularity LayerGraph.ResolveLayerOrder TieBreaking.images
    TieBreaking.layers (rangeAscending _ TieBreaking.images) ∅
  = Some (inr TieBreaking.popularity).
Proof. vm_compute. reflexivity. Qed.

Lemma TieBreaking_order :
  GlobalLayerOrder rangeAscending LayerGraph.ResolveLayerOrder
    TieBreaking.images TieBreaking.layers
  = Some (TieBreaking.order, None).
Proof. vm_compute. reflexivity. Qed.


Lemma GlobalLayerOrder_topological_witness :
  NoDup TieBreaking.order ∧
  ∀ u v layer,
    TieBreaking.layers !! v = Some layer → u ∈ Layer.Depends layer →
    is_Some (TieBreaking.popularity !! u) →
    is_Some (TieBreaking.popularity !! v) →
    ∃ i j, TieBreaking.order !! i = Some u ∧
           TieBreaking.order !! j = Some v ∧ (i < j)%nat.
Proof.
  exact (GlobalLayerOrder_topological rangeAscending
           rangeAscending_Permutation LayerGraph.ResolveLayerOrder
           TieBreaking.images TieBreaking.layers TieBreaking.popularity
           TieBreaking.order TieBreaking_popularity TieBreaking_order).
Defined.


Lemma AbsoluteLayerSequence_subsequence_witness :
  ∃ seq,
    AbsoluteLayerSequence LayerGraph.ResolveLayerOrder "a"
      TieBreaking.images TieBreaking.layers TieBreaking.order = Some seq ∧
    sublist seq TieBreaking.order ∧
    ∀ l, l ∈ seq
         ↔ inClosure LayerGraph.ResolveLayerOrder TieBreaking.images
                     TieBreaking.layers "a" l.
Proof.
  exact (proj2 (AbsoluteLayerSequence_subsequence rangeAscending
                  rangeAscending_Permutation LayerGraph.ResolveLayerOrder
                  ResolveLayerOrder_model_known
                  TieBreaking.images TieBreaking.layers)
               TieBreaking.order "a"
               (testImage "a" "ext:1" true ["pixi"; "python"; "testapi"])
               TieBreaking_order eq_refl).
Defined.

(** ** Invariants of the trie walk *)

Lemma forEach_invariant {A S} (body : A → S → option (S * option error))
    (Inv : S → Prop) (l : list A) :
  (∀ x s s' err, x ∈ l → Inv s → body x s = Some (s', err) →
                 Inv s' ∧ err = None) →
  ∀ s s' err, Inv s → forEach body l s = Some (s', err) →
              Inv s' ∧ err = None.
Proof.
  induction l as [|x l IH]; intros Hbody s s' err Hs Hrun; simpl in Hrun.
  - by simplify_eq.
  - destruct (body x s) as [[s1 [e|]]|] eqn:Hx; [| |done].
    + simplify_eq. eapply Hbody; [by left|done..].
    + destruct (Hbody x s s1 None) as [Hs1 _]; [by left|done..|].
      eapply IH; [|done..]. intros y t t' e Hy. apply Hbody. by right.
Qed.

Lemma foldl_invariant {A S} (f : S → A → S) (Inv : S → Prop) (l : list A) :
  (∀ x s, x ∈ l → Inv s → Inv (f s x)) →
  ∀ s, Inv s → Inv (foldl f s l).
Proof.
  induction l as [|x l IH]; intros Hf s Hs; simpl; [done|].
  apply IH.
  - intros y t Hy. apply Hf. by right.
  - apply Hf; [by left|done].
Qed.

Lemma pickNameLoop_fresh fuel :
  ∀ baseName name suffix (result origImages : gmap string ResolvedImage.t)
    picked,
    pickNameLoop fuel baseName name suffix result origImages = Some picked →
    origImages !! picked = None ∧ result !! picked = None.
Proof.
  induction fuel as [|fuel IH];
    intros baseName name suffix result origImages picked Hpick; [done|].
  simpl in Hpick. case_bool_decide as Horig; [by eapply IH|].
  case_bool_decide as Hres; [by eapply IH|]. simplify_eq.
  split; by apply eq_None_not_Some.
Qed.

Lemma updateImageBase_lookup imgName parentName
    (result : gmap string ResolvedImage.t) k :
  updateImageBase imgName parentName result !! k
  = if decide (k = imgName) then
      (λ img, ResolvedImage.setBase img parentName
                (bool_decide (result !! parentName = None))) <$> result !! k
    else result !! k.
Proof.
  unfold updateImageBase. destruct (decide (k = imgName)) as [->|Hne].
  - destruct (result !! imgName) as [img|] eqn:Himg.
    + by rewrite lookup_insert_eq.
    + by rewrite Himg.
  - destruct (result !! imgName) as [img|]; [|done].
    by rewrite lookup_insert_ne.
Qed.

Lemma updateImageBase_is_Some imgName parentName
    (result : gmap string ResolvedImage.t) k :
  is_Some (updateImageBase imgName parentName result !! k)
  ↔ is_Some (result !! k).
Proof.
  rewrite updateImageBase_lookup. case_decide; [|done].
  by rewrite fmap_is_Some.
Qed.

Section CreateIntermediate.
Variable LayersProvidedByImage :
  string → gmap string ResolvedImage.t → gmap string Layer.t →
  gmap string bool * option error.

(** The own layers of an intermediate hold nothing that
    [LayersProvidedByImage] reports for the parent. *)
Lemma computeOwnLayers_not_provided parentName pathLayers result layers
    globalOrder own provided l :
  computeOwnLayers LayersProvidedByImage parentName pathLayers result layers
                   globalOrder = Some own →
  is_Some (result !! parentName) →
  LayersProvidedByImage parentName result layers = (provided, None) →
  l ∈ own → boolAt provided l = false.
Proof.
  unfold computeOwnLayers. intros Hown [parent Hparent] Hprov Hl.
  rewrite Hparent, Hprov in Hown.
  destruct (foldOpt _ _ _) as [needed|]; [|done]. simpl in Hown.
  simplify_eq.
  destruct (filter (λ l, l ∈ needed ∧ boolAt provided l = false) globalOrder)
    as [|x ordered] eqn:Hordered.
  - by apply list_elem_of_filter in Hl as [? _].
  - rewrite <- Hordered in Hl. by apply list_elem_of_filter in Hl as [[_ ?] _].
Qed.

Lemma createIntermediate_spec name parentName pathLayers result origImages
    cfg tag layers globalOrder result' :
  createIntermediate LayersProvidedByImage name parentName pathLayers result
                     origImages cfg tag layers globalOrder = Some result' →
  ∃ img,
    result' = <[name := img]> result ∧
    ResolvedImage.Name img = name ∧
    ResolvedImage.Base img = parentName ∧
    ResolvedImage.IsExternalBase img
    = bool_decide (result !! parentName = None) ∧
    ResolvedImage.Auto img = true ∧
    computeOwnLayers LayersProvidedByImage parentName pathLayers result
                     layers globalOrder
    = Some (ResolvedImage.Layers img).
Proof.
  unfold createIntermediate. intros Hcreate.
  destruct (computeOwnLayers _ _ _ _ _ _) as [own|]; [|done].
  simpl in Hcreate. simplify_eq. eexists. split; [done|]. done.
Qed.

(** *** A generic invariant *)

Section WalkInvariant.
Variable origImages : gmap string ResolvedImage.t.
Variable layers : gmap string Layer.t.
Variable cfg : Config.
Variable tag : string.
Variable globalOrder : list string.

(** [Inv] is a property of the result map; [external] marks the names that
    may be used as a parent without being a key of the map. *)
Variable Inv : gmap string ResolvedImage.t → Prop.
Variable external : string → Prop.

Definition okParent (result : gmap string ResolvedImage.t)
    (parentName : string) : Prop :=
  is_Some (result !! parentName) ∨ external parentName.

Hypothesis Inv_dom :
  ∀ result k, Inv result →
              is_Some (origImages !! k) → is_Some (result !! k).
Hypothesis Inv_update :
  ∀ result imgName parentName,
    Inv result → okParent result parentName →
    Inv (updateImageBase imgName parentName result).
Hypothesis Inv_create :
  ∀ result name img,
    Inv result → okParent result (ResolvedImage.Base img) →
    origImages !! name = None →
    ResolvedImage.Auto img = true →
    ResolvedImage.IsExternalBase img
    = bool_decide (result !! ResolvedImage.Base img = None) →
    Inv (<[name := img]> result).

(** What a step of the walk guarantees. *)
Definition walkPost (result result' : gmap string ResolvedImage.t) : Prop :=
  Inv result' ∧ ∀ k, is_Some (result !! k) → is_Some (result' !! k).

Lemma walkPost_refl result : Inv result → walkPost result result.
Proof. by split. Qed.

Lemma walkPost_trans r1 r2 r3 :
  walkPost r1 r2 → walkPost r2 r3 → walkPost r1 r3.
Proof. intros [_ H12] [H3 H23]. split; auto. Qed.

Lemma okParent_mono r r' parentName :
  (∀ k, is_Some (r !! k) → is_Some (r' !! k)) →
  okParent r parentName → okParent r' parentName.
Proof. intros Hdom [?|?]; [left; auto|by right]. Qed.

Lemma walkPost_update result imgName parentName :
  Inv result → okParent result parentName →
  walkPost result (updateImageBase imgName parentName result).
Proof.
  intros Hinv Hok. split; [by apply Inv_update|].
  intros k. by rewrite updateImageBase_is_Some.
Qed.

Lemma walkPost_updates imgs parentName :
  ∀ result,
    Inv result → okParent result parentName →
    walkPost result
      (foldl (λ result imgName, updateImageBase imgName parentName result)
             result imgs).
Proof.
  induction imgs as [|imgName imgs IH]; intros result Hinv Hok; simpl.
  - by apply walkPost_refl.
  - pose proof (walkPost_update result imgName parentName Hinv Hok)
      as Hstep.
    eapply walkPost_trans; [done|]. apply IH; [apply Hstep|].
    eapply okParent_mono; [apply Hstep|done].
Qed.

Lemma walkPost_create name parentName pathLayers result result' :
  Inv result → okParent result parentName →
  origImages !! name = None →
  createIntermediate LayersProvidedByImage name parentName pathLayers result
                     origImages cfg tag layers globalOrder = Some result' →
  walkPost result result' ∧ is_Some (result' !! name).
Proof.
  intros Hinv Hok Hfresh Hcreate.
  apply createIntermediate_spec in Hcreate
    as (img & -> & _ & Hbase & Hext & Hauto & _).
  split; [split|].
  - apply Inv_create; rewrite ?Hbase; done.
  - intros k Hk. destruct (decide (name = k)) as [->|Hne].
    + rewrite lookup_insert_eq. eauto.
    + by rewrite lookup_insert_ne.
  - rewrite lookup_insert_eq. eauto.
Qed.

Lemma pickIntermediateName_fresh current pathLayers result name :
  length (trieNode.images current) ≠ 1%nat →
  pickIntermediateName current pathLayers result origImages = Some name →
  origImages !! name = None ∧ result !! name = None.
Proof.
  unfold pickIntermediateName. intros Hlen Hpick.
  destruct (trieNode.images current) as [|img0 [|img1 imgs]];
    [|done|].
  - destruct (last pathLayers); [|done]. by eapply pickNameLoop_fresh.
  - destruct (last pathLayers); [|done]. by eapply pickNameLoop_fresh.
Qed.

Lemma walkEdge_preserves recurse node parentName childLayerName
    result result' err :
  (∀ current name r1 r2 e,
     Inv r1 → okParent r1 name → recurse current name r1 = Some (r2, e) →
     walkPost r1 r2 ∧ e = None) →
  Inv result → okParent result parentName →
  walkEdge LayersProvidedByImage recurse node parentName origImages layers
           cfg tag globalOrder childLayerName result = Some (result', err) →
  walkPost result result' ∧ err = None.
Proof.
  intros Hrec Hinv Hok. unfold walkEdge.
  destruct (trieNode.lookup childLayerName (trieNode.children node))
    as [child|]; [|done]. simpl.
  destruct (followChain child [childLayerName]) as [pathLayers current].
  destruct (bool_decide _ || _).
  - destruct (pickIntermediateName current pathLayers result origImages)
      as [name|] eqn:Hpick; [|done]. simpl.
    destruct (trieNode.images current) as [|img0 [|img1 imgs]] eqn:Himgs.
    + destruct (pickIntermediateName_fresh _ _ _ _ ltac:(by rewrite Himgs)
                  Hpick) as [Hfresh _].
      destruct (createIntermediate _ _ _ _ _ _ _ _ _ _) as [r1|] eqn:Hcreate;
        [|done]. simpl.
      destruct (walkPost_create _ _ _ _ _ Hinv Hok Hfresh Hcreate)
        as [Hpost Hname].
      intros Hrun. apply Hrec in Hrun as [Hpost' ->];
        [|apply Hpost|by left].
      split; [|done]. by eapply walkPost_trans.
    + unfold isExistingImageReusable. case_bool_decide as Hreuse; simpl.
      * intros Hrun.
        pose proof (walkPost_update result img0 parentName Hinv Hok) as Hpost.
        unfold assignLayersForIntermediate in Hrun.
        apply Hrec in Hrun as [Hpost' ->]; [|apply Hpost|].
        -- split; [|done]. by eapply walkPost_trans.
        -- left. apply Hpost. by eapply Inv_dom.
      * assert (Hfresh : origImages !! name = None).
        { unfold pickIntermediateName in Hpick. rewrite Himgs in Hpick.
          simplify_eq. by apply eq_None_not_Some. }
        destruct (createIntermediate _ _ _ _ _ _ _ _ _ _) as [r1|] eqn:Hcreate;
          [|done]. simpl.
        destruct (walkPost_create _ _ _ _ _ Hinv Hok Hfresh Hcreate)
          as [Hpost Hname].
        pose proof (walkPost_update r1 img0 name (proj1 Hpost)
                      (or_introl Hname)) as Hpost1.
        intros Hrun. apply Hrec in Hrun as [Hpost' ->]; [|apply Hpost1|].
        -- split; [|done].
           eapply walkPost_trans; [done|]. by eapply walkPost_trans.
        -- left. by apply Hpost1.
    + destruct (pickIntermediateName_fresh _ _ _ _
                  ltac:(rewrite Himgs; simpl; lia) Hpick) as [Hfresh _].
      destruct (createIntermediate _ _ _ _ _ _ _ _ _ _) as [r1|] eqn:Hcreate;
        [|done]. simpl.
      destruct (walkPost_create _ _ _ _ _ Hinv Hok Hfresh Hcreate)
        as [Hpost Hname].
      pose proof (walkPost_updates (img0 :: img1 :: imgs) name r1
                    (proj1 Hpost) (or_introl Hname)) as Hpost1.
      intros Hrun. apply Hrec in Hrun as [Hpost' ->]; [|apply Hpost1|].
      * split; [|done].
        eapply walkPost_trans; [done|]. by eapply walkPost_trans.
      * left. by apply Hpost1.
  - case_bool_decide.
    + intros ?. simplify_eq. split; [|done]. by apply walkPost_updates.
    + intros ?. simplify_eq. split; [|done]. by apply walkPost_refl.
Qed.

Lemma walkTrie_preserves fuel :
  ∀ node parentName result result' err,
    Inv result → okParent result parentName →
    walkTrie LayersProvidedByImage fuel node parentName result origImages
             layers cfg tag globalOrder = Some (result', err) →
    walkPost result result' ∧ err = None.
Proof.
  induction fuel as [|fuel IH];
    intros node parentName result result' err Hinv Hok Hwalk; [done|].
  simpl in Hwalk.
  pose (J := λ r, walkPost result r ∧ okParent r parentName).
  assert (Hbody : ∀ key r r' e,
            key ∈ sortedKeys (trieNode.children node) → J r →
            walkEdge LayersProvidedByImage
              (λ current intermediateName result,
                 walkTrie LayersProvidedByImage fuel current intermediateName
                          result origImages layers cfg tag globalOrder)
              node parentName origImages layers cfg tag globalOrder key r
            = Some (r', e) →
            J r' ∧ e = None).
  { intros key r r' e _ [Hr Hokr] Hedge.
    apply walkEdge_preserves in Hedge as [Hstep ->];
      [|intros; by eapply IH|apply Hr|done].
    split; [|done]. split.
    - by eapply walkPost_trans.
    - eapply okParent_mono; [apply Hstep|done]. }
  destruct (forEach_invariant _ J _ Hbody result result' err
              (conj (walkPost_refl _ Hinv) Hok) Hwalk) as [[Hpost _] ->].
  done.
Qed.
End WalkInvariant.
End CreateIntermediate.

(** ** Invariants of ComputeIntermediates *)

Lemma foldOpt_invariant {A S} (body : S → A → option S) (Inv : S → Prop)
    (l : list A) :
  (∀ x s s', x ∈ l → Inv s → body s x = Some s' → Inv s') →
  ∀ s s', Inv s → foldOpt body s l = Some s' → Inv s'.
Proof.
  induction l as [|x l IH]; intros Hbody s s' Hs Hrun; simpl in Hrun.
  - by simplify_eq.
  - destruct (body s x) as [s1|] eqn:Hx; [|done].
    eapply IH; [|by eapply Hbody; [by left|..]|done].
    intros y t t' Hy. apply Hbody. by right.
Qed.

Lemma findRootImage_spec imageNames (images : gmap string ResolvedImage.t)
    rootImageName :
  findRootImage imageNames images = Some rootImageName →
  rootImageName = "" ∨ is_Some (images !! rootImageName).
Proof.
  induction imageNames as [|imgName imageNames IH]; simpl; intros Hfind.
  - left. by simplify_eq.
  - destruct (images !! imgName) as [img|] eqn:Himg; [|done]. simpl in Hfind.
    case_bool_decide; [|by apply IH]. simplify_eq. right. eauto.
Qed.

Lemma sortStrings_elem_of s x : x ∈ sortStrings s ↔ x ∈ s.
Proof. unfold sortStrings. by rewrite merge_sort_Permutation. Qed.

Section ComputeIntermediatesInvariant.
Variable range : ∀ V : Type, gmap string V → list (string * V).
Hypothesis range_Permutation :
  ∀ (V : Type) (m : gmap string V), range V m ≡ₚ map_to_list m.
Variable ResolveLayerOrder :
  list string → gmap string Layer.t → option (gmap string bool) →
  list string * option error.
Variable LayersProvidedByImage :
  string → gmap string ResolvedImage.t → gmap string Layer.t →
  gmap string bool * option error.
Variable images : gmap string ResolvedImage.t.
Variable layers : gmap string Layer.t.
Variable cfg : Config.
Variable tag : string.

Lemma copyImages_id : copyImages range images = images.
Proof.
  unfold copyImages.
  apply (range_foldl_ind range range_Permutation
           (λ visited result, result = visited)); [done|].
  by intros k v visited result _ _ _ ->.
Qed.

Lemma buildBaseGroups_names baseGroups key imageNames n :
  buildBaseGroups range images = Some baseGroups →
  baseGroups !! key = Some imageNames → n ∈ imageNames →
  is_Some (images !! n).
Proof.
  unfold buildBaseGroups. intros Hbuild. revert key imageNames n.
  pose (P := λ groups : gmap string (list string),
          ∀ key imageNames n,
            groups !! key = Some imageNames → n ∈ imageNames →
            is_Some (images !! n)).
  change (P baseGroups).
  eapply (foldOpt_invariant _ P); [| |exact Hbuild]; unfold P; clear P.
  - intros [name img] s s' Hx Hs.
    apply (range_elem_of range range_Permutation) in Hx.
    destruct (resolveExternalBase name images) as [extBase|]; [|done].
    simpl. intros ? key imageNames n Hkey Hn. simplify_eq.
    destruct (decide (extBase = key)) as [->|Hne].
    + rewrite lookup_insert_eq in Hkey. simplify_eq.
      apply elem_of_app in Hn as [Hn| ->%list_elem_of_singleton]; [|eauto].
      destruct (s !! key) as [names|] eqn:Hnames; [by eapply Hs|].
      by apply elem_of_nil in Hn.
    + rewrite lookup_insert_ne in Hkey by done. by eapply Hs.
  - intros key imageNames n Hkey. by rewrite lookup_empty in Hkey.
Qed.

Variable Inv : gmap string ResolvedImage.t → Prop.
Variable external : string → Prop.
Hypothesis Inv_dom :
  ∀ result k, Inv result →
              is_Some (images !! k) → is_Some (result !! k).
Hypothesis Inv_update :
  ∀ result imgName parentName,
    Inv result → okParent external result parentName →
    Inv (updateImageBase imgName parentName result).
Hypothesis Inv_create :
  ∀ result name img,
    Inv result → okParent external result (ResolvedImage.Base img) →
    images !! name = None →
    ResolvedImage.Auto img = true →
    ResolvedImage.IsExternalBase img
    = bool_decide (result !! ResolvedImage.Base img = None) →
    Inv (<[name := img]> result).
Hypothesis external_base :
  ∀ first extBase,
    is_Some (images !! first) →
    resolveExternalBase first images = Some extBase →
    okParent external images extBase.

Lemma processGroup_preserves globalOrder imageNames result result' err :
  (∀ n, n ∈ imageNames → is_Some (images !! n)) →
  Inv result →
  processGroup ResolveLayerOrder LayersProvidedByImage images layers cfg tag
               globalOrder imageNames result = Some (result', err) →
  walkPost Inv result result' ∧ err = None.
Proof.
  intros Hnames Hinv. unfold processGroup.
  case_bool_decide as Hlen.
  { intros ?. simplify_eq. split; [|done]. by apply walkPost_refl. }
  destruct (buildTrie _ _ _ _ _) as [root|]; [|done]. cbn -[walkTrie resolveExternalBase].
  destruct (findRootImage _ _) as [rootImageName|] eqn:Hroot; [|done].
  cbn -[walkTrie resolveExternalBase]. apply findRootImage_spec in Hroot.
  destruct (decide (rootImageName = "")) as [->|Hne].
  - destruct (head (sortStrings imageNames)) as [first|] eqn:Hfirst; [|done].
    cbn -[walkTrie resolveExternalBase].
    destruct (resolveExternalBase first images) as [extBase|] eqn:Hext;
      [|done]. cbn -[walkTrie resolveExternalBase].
    apply walkTrie_preserves with (external := external); try done.
    assert (Hin : first ∈ imageNames).
    { apply sortStrings_elem_of. destruct (sortStrings imageNames); [done|].
      simpl in Hfirst. simplify_eq. by left. }
    destruct (external_base first extBase (Hnames _ Hin) Hext) as [?|?];
      [left; by eapply Inv_dom|by right].
  - cbn -[walkTrie resolveExternalBase].
    apply walkTrie_preserves with (external := external); try done.
    left. destruct Hroot as [?|?]; [done|]. by eapply Inv_dom.
Qed.

Lemma ComputeIntermediates_preserves result :
  Inv images →
  ComputeIntermediates range ResolveLayerOrder LayersProvidedByImage images
                       layers cfg tag = Some (result, None) →
  Inv result ∧ ∀ k, is_Some (images !! k) → is_Some (result !! k).
Proof.
  intros Hinv. unfold ComputeIntermediates.
  destruct (buildBaseGroups range images) as [baseGroups|] eqn:Hgroups;
    [|done]. simpl.
  destruct (GlobalLayerOrder _ _ _ _) as [[globalOrder [err|]]|]; [done| |done].
  simpl. rewrite copyImages_id.
  destruct (forEach _ _ _) as [[r [err|]]|] eqn:Hrun; [done| |done].
  simpl. intros ?. simplify_eq.
  apply (forEach_invariant _ (walkPost Inv images)) in Hrun as [Hpost _];
    [done| |by apply walkPost_refl].
  intros [key imageNames] r1 r2 e Hin Hr1 Hstep.
  apply (range_elem_of range range_Permutation) in Hin.
  apply processGroup_preserves in Hstep as [Hpost ->]; [| |apply Hr1].
  - split; [|done]. by eapply walkPost_trans.
  - intros n Hn. by eapply buildBaseGroups_names.
Qed.
End ComputeIntermediatesInvariant.

(** ** The frame of ComputeIntermediates (C8) *)

(** [b] is [a] with another base. *)
Definition sameExceptBase (a b : ResolvedImage.t) : Prop :=
  b = ResolvedImage.setBase a (ResolvedImage.Base b)
                            (ResolvedImage.IsExternalBase b).

Definition frame (images result : gmap string ResolvedImage.t) : Prop :=
  (∀ k img, images !! k = Some img →
            ∃ img', result !! k = Some img' ∧ sameExceptBase img img') ∧
  (∀ k img', result !! k = Some img' → images !! k = None →
             ResolvedImage.Auto img' = true).

Lemma sameExceptBase_refl img : sameExceptBase img img.
Proof. by destruct img. Qed.

Lemma sameExceptBase_setBase a b parentName ext :
  sameExceptBase a b →
  sameExceptBase a (ResolvedImage.setBase b parentName ext).
Proof. unfold sameExceptBase. intros ->. by destruct a. Qed.

Lemma frame_update images result imgName parentName :
  frame images result →
  frame images (updateImageBase imgName parentName result).
Proof.
  intros [Hkeep Hauto]. split.
  - intros k img Hk. destruct (Hkeep k img Hk) as (img' & Hk' & Hsame).
    rewrite updateImageBase_lookup, Hk'. case_decide; simpl; [|eauto].
    eexists. split; [done|]. by apply sameExceptBase_setBase.
  - intros k img'. rewrite updateImageBase_lookup. case_decide; [|by apply Hauto].
    destruct (result !! k) as [img|] eqn:Hk; [|done]. simpl.
    intros ? Hnew. simplify_eq. simpl. by eapply Hauto.
Qed.

Lemma frame_create images result name img :
  frame images result → images !! name = None →
  ResolvedImage.Auto img = true →
  frame images (<[name := img]> result).
Proof.
  intros [Hkeep Hauto] Hfresh Himg. split.
  - intros k img0 Hk. rewrite lookup_insert_ne by congruence. eauto.
  - intros k img'. destruct (decide (name = k)) as [->|Hne].
    + rewrite lookup_insert_eq. intros. by simplify_eq.
    + rewrite lookup_insert_ne by done. apply Hauto.
Qed.

(** C8.  Every key of the input is a key of the result; an image under a
    new key is an auto image; an input image keeps every field but [Base]
    and [IsExternalBase]. *)
Theorem ComputeIntermediates_frame
    (range : ∀ V : Type, gmap string V → list (string * V))
    (ResolveLayerOrder :
       list string → gmap string Layer.t → option (gmap string bool) →
       list string * option error)
    (LayersProvidedByImage :
       string → gmap string ResolvedImage.t → gmap string Layer.t →
       gmap string bool * option error)
    (images : gmap string ResolvedImage.t) (layers : gmap string Layer.t)
    (cfg : Config) (tag : string) (result : gmap string ResolvedImage.t) :
  (∀ (V : Type) (m : gmap string V), range V m ≡ₚ map_to_list m) →
  ComputeIntermediates range ResolveLayerOrder LayersProvidedByImage images
                       layers cfg tag = Some (result, None) →
  (∀ k, is_Some (images !! k) → is_Some (result !! k)) ∧
  (∀ k img', result !! k = Some img' → images !! k = None →
             ResolvedImage.Auto img' = true) ∧
  (∀ k img, images !! k = Some img →
     ∃ img',
       result !! k = Some img' ∧
       ResolvedImage.Name img' = ResolvedImage.Name img ∧
       ResolvedImage.Layers img' = ResolvedImage.Layers img ∧
       ResolvedImage.Tag img' = ResolvedImage.Tag img ∧
       ResolvedImage.Registry img' = ResolvedImage.Registry img ∧
       ResolvedImage.Pkg img' = ResolvedImage.Pkg img ∧
       ResolvedImage.FullTag img' = ResolvedImage.FullTag img ∧
       ResolvedImage.Platforms img' = ResolvedImage.Platforms img ∧
       ResolvedImage.User img' = ResolvedImage.User img ∧
       ResolvedImage.UID img' = ResolvedImage.UID img ∧
       ResolvedImage.GID img' = ResolvedImage.GID img ∧
       ResolvedImage.Home img' = ResolvedImage.Home img ∧
       ResolvedImage.Merge img' = ResolvedImage.Merge img ∧
       ResolvedImage.Auto img' = ResolvedImage.Auto img ∧
       ResolvedImage.Bootc img' = ResolvedImage.Bootc img).
Proof.
  intros Hrange Hrun.
  destruct (ComputeIntermediates_preserves range Hrange ResolveLayerOrder
              LayersProvidedByImage images layers cfg tag
              (frame images) (λ _, True)) with (result := result)
    as [[Hkeep Hauto] Hdom]; try done.
  - intros r k [Hr _] [img Hk]. destruct (Hr k img Hk) as (? & ? & _). eauto.
  - intros r imgName parentName Hr _. by apply frame_update.
  - intros r name img Hr _ Hfresh Himg _. by apply frame_create.
  - intros first extBase _ _. by right.
  - split; [|by intros ? ? ->]. intros k img Hk. exists img.
    split; [done|apply sameExceptBase_refl].
  - split_and!; [done..|]. intros k img Hk.
    destruct (Hkeep k img Hk) as (img' & Hk' & Hsame).
    exists img'. split; [done|].
    unfold sameExceptBase in Hsame. destruct img, img'.
    simpl in *. injection Hsame as -> -> -> -> -> -> -> -> -> -> -> -> -> ->.
    by repeat split.
Qed.

(** ** The external-base flag (C7) *)

(** An external reference of the input: the base of an image flagged
    external. *)
Definition externalReference (images : gmap string ResolvedImage.t)
    (s : string) : Prop :=
  ∃ k img, images !! k = Some img ∧
           ResolvedImage.IsExternalBase img = true ∧
           ResolvedImage.Base img = s.

(** Every base that is not flagged external names an image. *)
Definition internalBasesResolve (images : gmap string ResolvedImage.t)
    : Prop :=
  ∀ k img, images !! k = Some img →
           ResolvedImage.IsExternalBase img = false →
           is_Some (images !! ResolvedImage.Base img).

(** The flag of every image is justified: an internal base is a key of the
    map, an external one is an external reference of the input. *)
Definition flagsJustified (images result : gmap string ResolvedImage.t)
    : Prop :=
  ∀ k img, result !! k = Some img →
    if ResolvedImage.IsExternalBase img
    then externalReference images (ResolvedImage.Base img)
    else is_Some (result !! ResolvedImage.Base img).

Lemma resolveExternalBaseLoop_external images fuel :
  internalBasesResolve images →
  ∀ current extBase,
    is_Some (images !! current) →
    resolveExternalBaseLoop fuel current images = Some extBase →
    externalReference images extBase.
Proof.
  intros Hwf. induction fuel as [|fuel IH]; intros current extBase [img Hc];
    [done|].
  simpl. rewrite Hc. destruct (ResolvedImage.IsExternalBase img) eqn:Hext.
  - intros ?. simplify_eq. by exists current, img.
  - apply IH. by eapply Hwf.
Qed.

Lemma flagsJustified_preserved
    (range : ∀ V : Type, gmap string V → list (string * V))
    (ResolveLayerOrder :
       list string → gmap string Layer.t → option (gmap string bool) →
       list string * option error)
    (LayersProvidedByImage :
       string → gmap string ResolvedImage.t → gmap string Layer.t →
       gmap string bool * option error)
    (images : gmap string ResolvedImage.t) (layers : gmap string Layer.t)
    (cfg : Config) (tag : string) (result : gmap string ResolvedImage.t) :
  (∀ (V : Type) (m : gmap string V), range V m ≡ₚ map_to_list m) →
  internalBasesResolve images →
  ComputeIntermediates range ResolveLayerOrder LayersProvidedByImage images
                       layers cfg tag = Some (result, None) →
  flagsJustified images result.
Proof.
  intros Hrange Hwf Hrun.
  destruct (ComputeIntermediates_preserves range Hrange ResolveLayerOrder
              LayersProvidedByImage images layers cfg tag
              (λ r, (∀ k, is_Some (images !! k) → is_Some (r !! k)) ∧
                    flagsJustified images r)
              (externalReference images)) with (result := result)
    as [[_ Hflags] _]; try done.
  - intros r k [Hdom _]. apply Hdom.
  - intros r imgName parentName [Hdom Hflags] Hok. split.
    + intros k Hk. apply updateImageBase_is_Some. auto.
    + intros k img. rewrite updateImageBase_lookup.
      case_decide as Hk.
      * destruct (r !! k) as [img0|] eqn:Hk0; [|done]. simpl.
        intros ?. simplify_eq. destruct img0. simpl.
        case_bool_decide as Hparent.
        -- destruct Hok as [[? ?]|?]; [congruence|done].
        -- apply updateImageBase_is_Some. by apply not_eq_None_Some.
      * intros Himg. specialize (Hflags k img Himg).
        destruct (ResolvedImage.IsExternalBase img); [done|].
        by apply updateImageBase_is_Some.
  - intros r name img [Hdom Hflags] Hok Hfresh _ Hext. split.
    + intros k Hk. rewrite lookup_insert_ne; [auto|]. intros ->.
      rewrite Hfresh in Hk. by destruct Hk.
    + assert (Hmono : ∀ s, is_Some (r !! s) → is_Some (<[name := img]> r !! s)).
      { intros s Hs. destruct (decide (name = s)) as [->|?].
        - rewrite lookup_insert_eq. eauto.
        - by rewrite lookup_insert_ne. }
      intros k img'. destruct (decide (name = k)) as [->|Hne].
      * rewrite lookup_insert_eq. intros ?. simplify_eq. rewrite Hext.
        case_bool_decide as Hparent.
        -- destruct Hok as [[? ?]|?]; [congruence|done].
        -- apply Hmono. by apply not_eq_None_Some.
      * rewrite lookup_insert_ne by done. intros Himg.
        specialize (Hflags k img' Himg).
        destruct (ResolvedImage.IsExternalBase img'); [done|]. by apply Hmono.
  - intros first extBase Hfirst Hext. right.
    by eapply resolveExternalBaseLoop_external.
  - split; [done|]. intros k img Himg.
    destruct (ResolvedImage.IsExternalBase img) eqn:Hext.
    + by exists k, img.
    + by eapply Hwf.
Qed.

(** ** The theorems on the scenarios *)

Lemma SharedPrefix_result :
  computeWith rangeAscending SharedPrefix.images SharedPrefix.layers
              testConfig "v1"
  = Some (SharedPrefix.result, None).
Proof. vm_compute. reflexivity. Qed.

Lemma ComputeIntermediates_frame_witness :
  (∀ k, is_Some (SharedPrefix.images !! k) →
        is_Some (SharedPrefix.result !! k)) ∧
  (∀ k img', SharedPrefix.result !! k = Some img' →
             SharedPrefix.images !! k = None →
             ResolvedImage.Auto img' = true) ∧
  (∀ k img, SharedPrefix.images !! k = Some img →
     ∃ img',
       SharedPrefix.result !! k = Some img' ∧
       ResolvedImage.Name img' = ResolvedImage.Name img ∧
       ResolvedImage.Layers img' = ResolvedImage.Layers img ∧
       ResolvedImage.Tag img' = ResolvedImage.Tag img ∧
       ResolvedImage.Registry img' = ResolvedImage.Registry img ∧
       ResolvedImage.Pkg img' = ResolvedImage.Pkg img ∧
       ResolvedImage.FullTag img' = ResolvedImage.FullTag img ∧
       ResolvedImage.Platforms img' = ResolvedImage.Platforms img ∧
       ResolvedImage.User img' = ResolvedImage.User img ∧
       ResolvedImage.UID img' = ResolvedImage.UID img ∧
       ResolvedImage.GID img' = ResolvedImage.GID img ∧
       ResolvedImage.Home img' = ResolvedImage.Home img ∧
       ResolvedImage.Merge img' = ResolvedImage.Merge img ∧
       ResolvedImage.Auto img' = ResolvedImage.Auto img ∧
       ResolvedImage.Bootc img' = ResolvedImage.Bootc img).
Proof.
  exact (ComputeIntermediates_frame rangeAscending
           LayerGraph.ResolveLayerOrder LayerGraph.LayersProvidedByImage
           SharedPrefix.images SharedPrefix.layers testConfig "v1"
           SharedPrefix.result rangeAscending_Permutation
           SharedPrefix_result).
Defined.

(** C7, as the code has it.  When every internal base of the input names an
    input image, every image of the result flagged internal has a base that
    is a key of the result, and every image flagged external has an external
    reference of the input as its base.  Hence, when no key of the result
    is an external reference of the input, the flag is true exactly when
    the base is not a key. *)
Theorem ComputeIntermediates_external_flag
    (range : ∀ V : Type, gmap string V → list (string * V))
    (ResolveLayerOrder :
       list string → gmap string Layer.t → option (gmap string bool) →
       list string * option error)
    (LayersProvidedByImage :
       string → gmap string ResolvedImage.t → gmap string Layer.t →
       gmap string bool * option error)
    (images : gmap string ResolvedImage.t) (layers : gmap string Layer.t)
    (cfg : Config) (tag : string) (result : gmap string ResolvedImage.t) :
  (∀ (V : Type) (m : gmap string V), range V m ≡ₚ map_to_list m) →
  internalBasesResolve images →
  ComputeIntermediates range ResolveLayerOrder LayersProvidedByImage images
                       layers cfg tag = Some (result, None) →
  flagsJustified images result ∧
  ((∀ s, externalReference images s → result !! s = None) →
   ∀ k img, result !! k = Some img →
     (ResolvedImage.IsExternalBase img = true
      ↔ result !! ResolvedImage.Base img = None)).
Proof.
  intros Hrange Hwf Hrun.
  pose proof (flagsJustified_preserved _ _ _ _ _ _ _ _ Hrange Hwf Hrun)
    as Hflags.
  split; [done|]. intros Hext k img Hk. specialize (Hflags k img Hk).
  destruct (ResolvedImage.IsExternalBase img).
  - split; [intros _; by apply Hext|done].
  - split; [done|]. intros Hnone. rewrite Hnone in Hflags. by destruct Hflags.
Qed.

Lemma SharedPrefix_internalBasesResolve :
  internalBasesResolve SharedPrefix.images.
Proof.
  apply (bool_decide_unpack
           (map_Forall (λ _ img,
              ResolvedImage.IsExternalBase img = false →
              is_Some (SharedPrefix.images !! ResolvedImage.Base img))
              SharedPrefix.images)).
  vm_compute. exact I.
Qed.

Lemma SharedPrefix_no_external_key s :
  externalReference SharedPrefix.images s → SharedPrefix.result !! s = None.
Proof.
  intros (k & img & Hk & Hext & <-). revert k img Hk Hext.
  apply (bool_decide_unpack
           (map_Forall (λ _ img,
              ResolvedImage.IsExternalBase img = true →
              SharedPrefix.result !! ResolvedImage.Base img = None)
              SharedPrefix.images)).
  vm_compute. exact I.
Qed.

Lemma ComputeIntermediates_external_flag_witness :
  flagsJustified SharedPrefix.images SharedPrefix.result ∧
  ∃ img, SharedPrefix.result !! "supervisord" = Some img ∧
         (ResolvedImage.IsExternalBase img = true
          ↔ SharedPrefix.result !! ResolvedImage.Base img = None).
Proof.
  destruct (ComputeIntermediates_external_flag rangeAscending
              LayerGraph.ResolveLayerOrder LayerGraph.LayersProvidedByImage
              SharedPrefix.images SharedPrefix.layers testConfig "v1"
              SharedPrefix.result rangeAscending_Permutation
              SharedPrefix_internalBasesResolve SharedPrefix_result)
    as [Hflags Hiff].
  split; [exact Hflags|].
  exists (autoImage "supervisord" "fedora" false
                    ["pixi"; "python"; "supervisord"]).
  split; [reflexivity|].
  exact (Hiff SharedPrefix_no_external_key "supervisord" _ eq_refl).
Defined.

(** C7 fails as stated: on [CollidingName], whose input is well formed, the
    result holds an auto image [a] flagged external whose base [a] is a key
    of the result. *)
Lemma ComputeIntermediates_external_flag_counterexample :
  internalBasesResolve CollidingName.images ∧
  ∃ result img,
    computeWith rangeAscending CollidingName.images plainLayers testConfig
                "v1" = Some (result, None) ∧
    result !! "a" = Some img ∧
    ResolvedImage.IsExternalBase img = true ∧
    is_Some (result !! ResolvedImage.Base img).
Proof.
  split.
  - apply (bool_decide_unpack
             (map_Forall (λ _ img,
                ResolvedImage.IsExternalBase img = false →
                is_Some (CollidingName.images !! ResolvedImage.Base img))
                CollidingName.images)).
    vm_compute. exact I.
  - eexists _, (autoImage "a" "a" true ["a"]).
    split; [vm_compute; reflexivity|].
    split; [vm_compute; reflexivity|].
    split; [reflexivity|]. vm_compute. eauto.
Qed.

(** ** Duplicate work (C1) *)




(** ** The order of the base groups (C2) *)

(** C2 fails on the code.  On [TwoGroups] the result depends on the order
    in which the loop over [baseGroups] visits the two groups: the group
    visited first gets the intermediate named [a], the other one [a-2]. *)
Lemma ComputeIntermediates_group_order :
  ∃ r1 r2,
    computeWith rangeAscending TwoGroups.images plainLayers testConfig "v1"
    = Some (r1, None) ∧
    computeWith rangeDescending TwoGroups.images plainLayers testConfig "v1"
    = Some (r2, None) ∧
    ResolvedImage.Base <$> r1 !! "a" = Some "e1" ∧
    ResolvedImage.Base <$> r2 !! "a" = Some "e2" ∧
    ResolvedImage.Base <$> r1 !! "p1" = Some "a" ∧
    ResolvedImage.Base <$> r2 !! "p1" = Some "a-2".
Proof.
  eexists _, _.
  split; [vm_compute; reflexivity|].
  split; [vm_compute; reflexivity|].
  repeat split; vm_compute; reflexivity.
Qed.

(** ** What does not depend on the order of [range] *)

(** The emitted order is determined by the graph and the popularity. *)
Lemma priorityOrder_unique graph popularity o1 o2 :
  priorityOrder graph popularity o1 → priorityOrder graph popularity o2 →
  (∀ c, ¬ candidate graph o1 c) → (∀ c, ¬ candidate graph o2 c) →
  o1 = o2.
Proof.
  intros Hord1 Hord2 Hfin1 Hfin2.
  assert (Hgen : ∀ s1 pre s2, o1 = pre ++ s1 → o2 = pre ++ s2 → s1 = s2).
  { induction s1 as [|n1 s1 IH]; intros pre s2 H1 H2.
    - destruct s2 as [|n2 s2]; [done|]. exfalso.
      destruct (Hord2 pre n2 s2 H2) as [Hcand _].
      apply (Hfin1 n2). by rewrite H1, app_nil_r.
    - destruct s2 as [|n2 s2].
      + exfalso. destruct (Hord1 pre n1 s1 H1) as [Hcand _].
        apply (Hfin2 n1). by rewrite H2, app_nil_r.
      + destruct (Hord1 pre n1 s1 H1) as [Hc1 Hmin1].
        destruct (Hord2 pre n2 s2 H2) as [Hc2 Hmin2].
        assert (n1 = n2) as <-.
        { eapply before_antisym; [by apply Hmin1|by apply Hmin2]. }
        f_equal. apply (IH (pre ++ [n1])); by rewrite <- app_assoc. }
  by apply (Hgen o1 [] o2).
Qed.

Section RangeIndependence.
Variable range1 range2 : ∀ V : Type, gmap string V → list (string * V).
Hypothesis range1_Permutation :
  ∀ (V : Type) (m : gmap string V), range1 V m ≡ₚ map_to_list m.
Hypothesis range2_Permutation :
  ∀ (V : Type) (m : gmap string V), range2 V m ≡ₚ map_to_list m.
Variable ResolveLayerOrder :
  list string → gmap string Layer.t → option (gmap string bool) →
  list string * option error.
Variable LayersProvidedByImage :
  string → gmap string ResolvedImage.t → gmap string Layer.t →
  gmap string bool * option error.

Lemma topoSortByPopularity_range graph popularity :
  topoSortByPopularity range1 graph popularity
  = topoSortByPopularity range2 graph popularity.
Proof.
  destruct (topoSortByPopularity_spec range1 range1_Permutation graph
              popularity) as (o1 & _ & _ & Hord1 & Hfin1 & _ & ->).
  destruct (topoSortByPopularity_spec range2 range2_Permutation graph
              popularity) as (o2 & _ & _ & Hord2 & Hfin2 & _ & ->).
  by rewrite (priorityOrder_unique graph popularity o1 o2).
Qed.

Lemma buildGraph_range popularity layers :
  buildGraph range1 popularity layers = buildGraph range2 popularity layers.
Proof.
  apply map_eq. intros c.
  by rewrite (buildGraph_lookup range1 range1_Permutation),
             (buildGraph_lookup range2 range2_Permutation).
Qed.

Lemma increment_comm popularity x y :
  increment (increment popularity x) y = increment (increment popularity y) x.
Proof.
  apply map_eq. intros l. unfold increment.
  destruct (decide (x = y)) as [->|Hxy]; [done|].
  destruct (decide (l = x)) as [->|Hx]; [|destruct (decide (l = y)) as [->|Hy]].
  - rewrite lookup_insert_ne, !lookup_insert_eq by done.
    unfold intAt. by rewrite lookup_insert_ne.
  - rewrite lookup_insert_eq, lookup_insert_ne, lookup_insert_eq by done.
    unfold intAt. by rewrite lookup_insert_ne.
  - by rewrite !lookup_insert_ne.
Qed.

Lemma foldl_increment_Permutation ls1 ls2 :
  ls1 ≡ₚ ls2 →
  ∀ popularity, foldl increment popularity ls1 = foldl increment popularity ls2.
Proof.
  induction 1 as [|x l1 l2 _ IH|x y l|l1 l2 l3 _ IH1 _ IH2];
    intros popularity; simpl.
  - done.
  - apply IH.
  - by rewrite increment_comm.
  - by rewrite IH1.
Qed.

Lemma foldl_increment_comm popularity ls1 ls2 :
  foldl increment (foldl increment popularity ls1) ls2
  = foldl increment (foldl increment popularity ls2) ls1.
Proof.
  rewrite <- !foldl_app. apply foldl_increment_Permutation.
  apply Permutation_app_comm.
Qed.

Lemma countPopularity_Permutation images layers todo1 todo2 :
  todo1 ≡ₚ todo2 →
  ∀ popularity0 popularity,
    countPopularity ResolveLayerOrder images layers todo1 popularity0
    = Some (inr popularity) →
    countPopularity ResolveLayerOrder images layers todo2 popularity0
    = Some (inr popularity).
Proof.
  induction 1 as [|[k img] l1 l2 _ IH|[k1 img1] [k2 img2] l
                 |l1 l2 l3 _ IH1 _ IH2];
    intros popularity0 popularity Hcount.
  - done.
  - simpl in *.
    destruct (ResolveLayerOrder (ResolvedImage.Layers img) layers None)
      as [resolved [err|]]; [done|].
    destruct (collectAllImageLayers _ _ _ _) as [allLayers|]; [|done].
    simpl in *. by apply IH.
  - simpl in *.
    destruct (ResolveLayerOrder (ResolvedImage.Layers img2) layers None)
      as [resolved2 [err|]]; [done|].
    destruct (collectAllImageLayers ResolveLayerOrder
                (ResolvedImage.Name img2) images layers)
      as [all2|]; [|done].
    simpl in *.
    destruct (ResolveLayerOrder (ResolvedImage.Layers img1) layers None)
      as [resolved1 [err|]]; [done|].
    destruct (collectAllImageLayers ResolveLayerOrder
                (ResolvedImage.Name img1) images layers)
      as [all1|]; [|done].
    simpl in *. by rewrite foldl_increment_comm.
  - by apply IH2, IH1.
Qed.

Lemma GlobalLayerOrder_range images layers order :
  GlobalLayerOrder range1 ResolveLayerOrder images layers
  = Some (order, None) →
  GlobalLayerOrder range2 ResolveLayerOrder images layers
  = Some (order, None).
Proof.
  unfold GlobalLayerOrder. intros Hglobal.
  destruct (countPopularity ResolveLayerOrder images layers
              (range1 _ images) ∅) as [[err|popularity]|] eqn:Hcount;
    [done| |done].
  simpl in Hglobal.
  rewrite (countPopularity_Permutation images layers (range1 _ images)
             (range2 _ images)) with (popularity := popularity); [|..|done].
  - simpl. by rewrite <- buildGraph_range, <- topoSortByPopularity_range.
  - by rewrite range1_Permutation, range2_Permutation.
Qed.
(** *** The base groups *)

(** Two group maps with the same keys and, under each key, the same names
    in some order. *)
Definition groupsEquiv (g1 g2 : gmap string (list string)) : Prop :=
  ∀ key, (is_Some (g1 !! key) ↔ is_Some (g2 !! key)) ∧
         default [] (g1 !! key) ≡ₚ default [] (g2 !! key).

Definition groupStep (images : gmap string ResolvedImage.t)
    (baseGroups : gmap string (list string))
    (entry : string * ResolvedImage.t)
    : option (gmap string (list string)) :=
  extBase ← resolveExternalBase entry.1 images;
  Some (<[extBase := default [] (baseGroups !! extBase) ++ [entry.1]]>
          baseGroups).

Lemma foldOpt_ext {A S} (f g : S → A → option S) l :
  (∀ s x, f s x = g s x) → ∀ s, foldOpt f s l = foldOpt g s l.
Proof.
  intros Hfg. induction l as [|x l IH]; intros s; simpl; [done|].
  rewrite Hfg. destruct (g s x); [apply IH|done].
Qed.

Lemma buildBaseGroups_unfold range images :
  buildBaseGroups range images = foldOpt (groupStep images) ∅ (range _ images).
Proof. unfold buildBaseGroups. apply foldOpt_ext. by intros s [name img]. Qed.

Lemma groupsEquiv_refl g : groupsEquiv g g.
Proof. by intros key. Qed.

Lemma groupsEquiv_trans g1 g2 g3 :
  groupsEquiv g1 g2 → groupsEquiv g2 g3 → groupsEquiv g1 g3.
Proof.
  intros H12 H23 key. destruct (H12 key) as [Hs12 Hp12].
  destruct (H23 key) as [Hs23 Hp23]. split; [by rewrite Hs12|by rewrite Hp12].
Qed.

Lemma groupsEquiv_insert g1 g2 key names1 names2 :
  groupsEquiv g1 g2 → names1 ≡ₚ names2 →
  groupsEquiv (<[key := names1]> g1) (<[key := names2]> g2).
Proof.
  intros Hequiv Hnames k. destruct (decide (key = k)) as [->|Hne].
  - rewrite !lookup_insert_eq. split; [by split; eauto|done].
  - rewrite !lookup_insert_ne by done. apply Hequiv.
Qed.

Lemma groupStep_equiv images g g' entry g1 :
  groupsEquiv g g' → groupStep images g entry = Some g1 →
  ∃ g1', groupStep images g' entry = Some g1' ∧ groupsEquiv g1 g1'.
Proof.
  unfold groupStep. intros Hequiv Hstep.
  destruct (resolveExternalBase entry.1 images) as [extBase|]; [|done].
  simpl in *. simplify_eq. eexists. split; [done|].
  apply groupsEquiv_insert; [done|]. f_equiv. apply Hequiv.
Qed.

Lemma groupStep_swap images g x y g1 g2 :
  groupStep images g x = Some g1 → groupStep images g1 y = Some g2 →
  ∃ g1' g2',
    groupStep images g y = Some g1' ∧ groupStep images g1' x = Some g2' ∧
    groupsEquiv g2 g2'.
Proof.
  unfold groupStep. intros Hx Hy.
  destruct (resolveExternalBase x.1 images) as [bx|]; [|done].
  destruct (resolveExternalBase y.1 images) as [by'|]; [|done].
  simpl in *. simplify_eq. eexists _, _. split; [done|]. split; [done|].
  intros key. destruct (decide (bx = by')) as [->|Hne].
  - rewrite !lookup_insert_eq. simpl.
    destruct (decide (by' = key)) as [->|Hk].
    + rewrite !lookup_insert_eq. simpl. split; [by split; eauto|].
      rewrite <- !app_assoc. f_equiv. apply Permutation_app_comm.
    + by rewrite !lookup_insert_ne.
  - rewrite !(lookup_insert_ne _ by' bx), !(lookup_insert_ne _ bx by') by done.
    destruct (decide (bx = key)) as [->|Hkx];
      [|destruct (decide (by' = key)) as [->|Hky]].
    + rewrite (lookup_insert_ne _ by' key) by done.
      rewrite !lookup_insert_eq. by split; [split; eauto|].
    + rewrite lookup_insert_eq, (lookup_insert_ne _ bx key) by done.
      rewrite lookup_insert_eq. by split; [split; eauto|].
    + by rewrite !lookup_insert_ne.
Qed.

Lemma foldOpt_groupStep_Permutation images todo1 todo2 :
  todo1 ≡ₚ todo2 →
  ∀ g g' g1,
    groupsEquiv g g' →
    foldOpt (groupStep images) g todo1 = Some g1 →
    ∃ g2, foldOpt (groupStep images) g' todo2 = Some g2 ∧ groupsEquiv g1 g2.
Proof.
  induction 1 as [|x l1 l2 _ IH|x y l|l1 l2 l3 _ IH1 _ IH2];
    intros g g' g1 Hequiv Hrun.
  - simpl in *. simplify_eq. eauto.
  - simpl in *.
    destruct (groupStep images g x) as [ga|] eqn:Hx; [|done].
    destruct (groupStep_equiv _ _ _ _ _ Hequiv Hx) as (ga' & -> & Ha).
    by eapply IH.
  - simpl in *.
    destruct (groupStep images g y) as [ga|] eqn:Hy; [|done].
    destruct (groupStep images ga x) as [gb|] eqn:Hx; [|done].
    destruct (groupStep_swap _ _ _ _ _ _ Hy Hx) as (ga' & gb' & Hx' & Hy' & Hb).
    destruct (groupStep_equiv _ _ _ _ _ Hequiv Hx') as (ga'' & -> & Ha'').
    destruct (groupStep_equiv _ _ _ _ _ Ha'' Hy') as (gb'' & -> & Hb'').
    assert (Hrest : groupsEquiv gb gb'') by (by eapply groupsEquiv_trans).
    clear -Hrun Hrest. revert gb gb'' Hrun Hrest.
    induction l as [|z l IHl]; intros gb gb'' Hrun Hrest; simpl in *.
    + simplify_eq. eauto.
    + destruct (groupStep images gb z) as [gc|] eqn:Hz; [|done].
      destruct (groupStep_equiv _ _ _ _ _ Hrest Hz) as (gc' & -> & Hc).
      by eapply IHl.
  - destruct (IH1 g g g1 (groupsEquiv_refl g) Hrun) as (g2 & Hrun2 & H12).
    destruct (IH2 g g' g2 Hequiv Hrun2) as (g3 & Hrun3 & H23).
    exists g3. split; [done|]. by eapply groupsEquiv_trans.
Qed.

Lemma buildBaseGroups_range images g1 :
  buildBaseGroups range1 images = Some g1 →
  ∃ g2, buildBaseGroups range2 images = Some g2 ∧ groupsEquiv g1 g2.
Proof.
  rewrite !buildBaseGroups_unfold.
  apply foldOpt_groupStep_Permutation; [|apply groupsEquiv_refl].
  by rewrite range1_Permutation, range2_Permutation.
Qed.

(** *** The loop over the groups *)

Lemma sortStrings_Permutation l1 l2 :
  l1 ≡ₚ l2 → sortStrings l1 = sortStrings l2.
Proof.
  intros Hperm. unfold sortStrings.
  apply (Sorted_unique String.le); [apply Sorted_merge_sort; apply _..|].
  by rewrite !merge_sort_Permutation.
Qed.

Lemma processGroup_Permutation images layers cfg tag globalOrder names1 names2
    result :
  names1 ≡ₚ names2 →
  processGroup ResolveLayerOrder LayersProvidedByImage images layers cfg tag
               globalOrder names1 result
  = processGroup ResolveLayerOrder LayersProvidedByImage images layers cfg tag
                 globalOrder names2 result.
Proof.
  intros Hperm. unfold processGroup.
  by rewrite (sortStrings_Permutation names1 names2).
Qed.

Lemma forEach_Forall2 {A B S} (R : A → B → Prop)
    (body1 : A → S → option (S * option error))
    (body2 : B → S → option (S * option error)) l1 l2 :
  Forall2 R l1 l2 →
  (∀ x y s, R x y → body1 x s = body2 y s) →
  ∀ s, forEach body1 l1 s = forEach body2 l2 s.
Proof.
  intros Hl Hbody. induction Hl as [|x y l1 l2 Hxy _ IH]; intros s; simpl.
  - done.
  - rewrite (Hbody x y s Hxy). destruct (body2 y s) as [[s' [e|]]|]; auto.
Qed.

(** With the groups visited in the same order of keys, the result is the
    same whatever the order of every other loop over a map. *)
Lemma ComputeIntermediates_range images layers cfg tag result :
  (∀ g1 g2,
     buildBaseGroups range1 images = Some g1 →
     buildBaseGroups range2 images = Some g2 →
     (range1 _ g1).*1 = (range2 _ g2).*1) →
  ComputeIntermediates range1 ResolveLayerOrder LayersProvidedByImage images
                       layers cfg tag = Some (result, None) →
  ComputeIntermediates range2 ResolveLayerOrder LayersProvidedByImage images
                       layers cfg tag = Some (result, None).
Proof.
  intros Hkeys. unfold ComputeIntermediates.
  destruct (buildBaseGroups range1 images) as [g1|] eqn:Hg1; [|done].
  destruct (buildBaseGroups_range images g1 Hg1) as (g2 & Hg2 & Hequiv).
  rewrite Hg2. simpl.
  destruct (GlobalLayerOrder range1 _ _ _) as [[order [err|]]|] eqn:Hglobal;
    [done| |done].
  rewrite (GlobalLayerOrder_range _ _ _ Hglobal). simpl.
  rewrite (copyImages_id range1 range1_Permutation),
          (copyImages_id range2 range2_Permutation).
  rewrite (forEach_Forall2
             (λ x y : string * list string, x.1 = y.1 ∧ x.2 ≡ₚ y.2)
             _ (λ '(_, imageNames) result,
                  processGroup ResolveLayerOrder LayersProvidedByImage images
                               layers cfg tag order imageNames result)
             (range1 _ g1) (range2 _ g2)); [done| |].
  - specialize (Hkeys g1 g2 eq_refl Hg2).
    apply Forall2_same_length_lookup. split.
    { by rewrite <- (length_fmap fst (range1 _ g1)), Hkeys, length_fmap. }
    intros i [k1 n1] [k2 n2] H1 H2. simpl.
    assert (Hk : k1 = k2).
    { apply (f_equal (λ l, l !! i)) in Hkeys.
      rewrite !list_lookup_fmap, H1, H2 in Hkeys. by simplify_eq/=. }
    subst k2. split; [done|].
    apply list_elem_of_lookup_2,
      (range_elem_of range1 range1_Permutation) in H1.
    apply list_elem_of_lookup_2,
      (range_elem_of range2 range2_Permutation) in H2.
    destruct (Hequiv k1) as [_ Hperm]. by rewrite H1, H2 in Hperm.
  - intros [k1 n1] [k2 n2] s [_ Hperm]. simpl in *.
    by apply processGroup_Permutation.
Qed.
End RangeIndependence.

(** A single group is visited in one order only. *)
Lemma single_group_keys
    (range1 range2 : ∀ V : Type, gmap string V → list (string * V))
    (g1 g2 : gmap string (list string)) :
  (∀ (V : Type) (m : gmap string V), range1 V m ≡ₚ map_to_list m) →
  (∀ (V : Type) (m : gmap string V), range2 V m ≡ₚ map_to_list m) →
  groupsEquiv g1 g2 → (size g1 ≤ 1)%nat →
  (range1 _ g1).*1 = (range2 _ g2).*1.
Proof.
  intros Hr1 Hr2 Hequiv Hsize.
  assert (Hperm : (range1 _ g1).*1 ≡ₚ (range2 _ g2).*1).
  { apply NoDup_Permutation; [by apply range_NoDup_keys..|].
    intros k. rewrite !list_elem_of_fmap. split.
    - intros ([k' n] & -> & Hin). simpl.
      apply (range_elem_of range1 Hr1) in Hin.
      destruct (proj1 (proj1 (Hequiv k')) (mk_is_Some _ _ Hin)) as [n' Hn'].
      exists (k', n'). split; [done|]. by apply (range_elem_of range2 Hr2).
    - intros ([k' n] & -> & Hin). simpl.
      apply (range_elem_of range2 Hr2) in Hin.
      destruct (proj2 (proj1 (Hequiv k')) (mk_is_Some _ _ Hin)) as [n' Hn'].
      exists (k', n'). split; [done|]. by apply (range_elem_of range1 Hr1). }
  assert (Hlen : (length (range1 _ g1).*1 ≤ 1)%nat).
  { by rewrite length_fmap, Hr1, length_map_to_list. }
  destruct ((range1 _ g1).*1) as [|k [|k' l]]; simpl in Hlen; [| |lia].
  - by apply Permutation_nil_l in Hperm.
  - by apply Permutation_singleton_l in Hperm.
Qed.

(** ** The shared-prefix scenario (C6) *)

Lemma SharedPrefix_groups :
  buildBaseGroups rangeAscending SharedPrefix.images
  = Some {["ext:1" := ["openclaw"; "fedora-test"; "fedora"]]}.
Proof. vm_compute. reflexivity. Qed.

(** C6.  On the shared-prefix input, whatever the order in which the maps
    are visited, ComputeIntermediates returns a map with an auto image in
    which neither fedora-test nor openclaw is based on fedora. *)
Theorem SharedPrefix_intermediate
    (range : ∀ V : Type, gmap string V → list (string * V)) :
  (∀ (V : Type) (m : gmap string V), range V m ≡ₚ map_to_list m) →
  ∃ result,
    ComputeIntermediates range LayerGraph.ResolveLayerOrder
      LayerGraph.LayersProvidedByImage SharedPrefix.images
      SharedPrefix.layers testConfig "v1" = Some (result, None) ∧
    (∃ k img, result !! k = Some img ∧ ResolvedImage.Auto img = true) ∧
    (∃ img, result !! "fedora-test" = Some img ∧
            ResolvedImage.Base img ≠ "fedora") ∧
    (∃ img, result !! "openclaw" = Some img ∧
            ResolvedImage.Base img ≠ "fedora").
Proof.
  intros Hrange. exists SharedPrefix.result. split.
  - apply (ComputeIntermediates_range rangeAscending range
             rangeAscending_Permutation Hrange);
      [|apply SharedPrefix_result].
    intros g1 g2 Hg1 Hg2.
    destruct (buildBaseGroups_range rangeAscending range
                rangeAscending_Permutation Hrange _ _ Hg1)
      as (g2' & Hg2' & Hequiv).
    assert (g2' = g2) as -> by congruence.
    apply single_group_keys; [apply rangeAscending_Permutation|done..|].
    rewrite SharedPrefix_groups in Hg1. simplify_eq.
    by rewrite map_size_singleton.
  - split_and!.
    + exists "supervisord". eexists. split; [reflexivity|done].
    + eexists. split; [reflexivity|done].
    + eexists. split; [reflexivity|done].
Qed.

Lemma SharedPrefix_intermediate_witness :
  ∃ result,
    ComputeIntermediates rangeDescending LayerGraph.ResolveLayerOrder
      LayerGraph.LayersProvidedByImage SharedPrefix.images
      SharedPrefix.layers testConfig "v1" = Some (result, None) ∧
    (∃ k img, result !! k = Some img ∧ ResolvedImage.Auto img = true) ∧
    (∃ img, result !! "fedora-test" = Some img ∧
            ResolvedImage.Base img ≠ "fedora") ∧
    (∃ img, result !! "openclaw" = Some img ∧
            ResolvedImage.Base img ≠ "fedora").
Proof.
  exact (SharedPrefix_intermediate rangeDescending
           rangeDescending_Permutation).
Defined.

(** ** The bounded loops run to their end *)

(** *** pickIntermediateName *)

(** The name tried with the given suffix. *)
Definition candidateName (baseName : string) (suffix : Z) : string :=
  baseName +:+ "-" +:+ pretty suffix.

Lemma candidateName_inj baseName s1 s2 :
  candidateName baseName s1 = candidateName baseName s2 → s1 = s2.
Proof.
  unfold candidateName. intros H%(inj (String.app baseName)).
  apply (inj (String.app "-")) in H. by apply (inj pretty) in H.
Qed.

Lemma candidateName_ne_base baseName s : baseName ≠ candidateName baseName s.
Proof.
  unfold candidateName. intros H.
  assert (Hnil : baseName +:+ "" = baseName).
  { clear. induction baseName as [|a b IH]; [done|].
    unfold String.app in *. simpl. by rewrite IH. }
  rewrite <- Hnil in H at 1. by apply (inj (String.app baseName)) in H.
Qed.

Lemma pickNameLoop_total (result origImages : gmap string ResolvedImage.t)
    baseName fuel :
  ∀ name suffix (taken : gset string),
    (∀ x, is_Some (origImages !! x) ∨ is_Some (result !! x) →
          x = name ∨ (∃ s, suffix ≤ s ∧ x = candidateName baseName s) →
          x ∈ taken) →
    (∀ s, suffix ≤ s → name ≠ candidateName baseName s) →
    (size taken < fuel)%nat →
    is_Some (pickNameLoop fuel baseName name suffix result origImages).
Proof.
  induction fuel as [|fuel IH]; intros name suffix taken Htaken Hname Hsize;
    [lia|].
  simpl. fold (candidateName baseName suffix).
  assert (Hnext : (is_Some (origImages !! name) ∨ is_Some (result !! name)) →
            is_Some (pickNameLoop fuel baseName
                       (candidateName baseName suffix) (suffix + 1)
                       result origImages)).
  { intros Hused.
    assert (Hin : name ∈ taken) by (apply Htaken; auto).
    apply (IH _ _ (taken ∖ {[name]})).
    - intros x Hx Hcand. apply elem_of_difference. split.
      + apply Htaken; [done|]. right.
        destruct Hcand as [->|(s & Hs & ->)]; [exists suffix|exists s];
          split; done || lia.
      + intros ->%elem_of_singleton.
        destruct Hcand as [Heq|(s & Hs & Heq)];
          revert Heq; apply Hname; lia.
    - intros s Hs Heq%candidateName_inj. lia.
    - rewrite size_difference by set_solver. rewrite size_singleton.
      assert (0 < size taken)%nat; [|lia].
      destruct (size taken) eqn:E; [|lia].
      apply size_empty_inv in E. set_solver. }
  case_bool_decide as Horig; [by auto|].
  case_bool_decide as Hres; [by auto|]. eauto.
Qed.

Lemma pickIntermediateName_total node pathLayers
    (result origImages : gmap string ResolvedImage.t) :
  pathLayers ≠ [] →
  is_Some (pickIntermediateName node pathLayers result origImages).
Proof.
  intros Hpath. unfold pickIntermediateName.
  assert (Hloop : is_Some (baseName ← last pathLayers;
                           pickNameLoop (S (size origImages + size result))
                             baseName baseName 2 result origImages)).
  { destruct (last pathLayers) as [baseName|] eqn:Hlast.
    - cbn -[pickNameLoop].
      apply (pickNameLoop_total _ _ _ _ _ _ (dom origImages ∪ dom result)).
      + intros x [Hx|Hx] _; apply elem_of_union; [left|right];
          by apply elem_of_dom.
      + intros s _. apply candidateName_ne_base.
      + rewrite size_union_alt, !size_dom.
        pose proof (subseteq_size (dom result ∖ dom origImages) (dom result))
          as Hle.
        rewrite size_dom in Hle. specialize (Hle ltac:(set_solver)). lia.
    - apply last_None in Hlast. done. }
  destruct (trieNode.images node) as [|img0 [|img1 imgs]]; eauto.
Qed.

(** *** addTransitiveDeps and createIntermediate *)

Lemma foldOpt_total {A S} (body : S → A → option S) (Inv : S → Prop) l :
  (∀ s x, x ∈ l → Inv s → ∃ s', body s x = Some s' ∧ Inv s') →
  ∀ s, Inv s → ∃ s', foldOpt body s l = Some s' ∧ Inv s'.
Proof.
  induction l as [|x l IH]; intros Hbody s Hs; simpl; [eauto|].
  destruct (Hbody s x) as (s1 & -> & Hs1); [by left|done|].
  apply IH; [|done]. intros t y Hy. apply Hbody. by right.
Qed.

Lemma addTransitiveDeps_total (layers : gmap string Layer.t)
    (excluded : gmap string bool) fuel :
  ∀ layerName (needed : gset string),
    (size (dom layers ∖ needed) + 2 ≤ fuel)%nat →
    ∃ needed',
      addTransitiveDeps fuel layerName layers needed excluded = Some needed' ∧
      needed ⊆ needed'.
Proof.
  induction fuel as [|fuel IH]; intros layerName needed Hfuel; [lia|].
  simpl. destruct (layers !! layerName) as [layer|]; [|by eauto].
  apply (foldOpt_total _ (λ s : gset string, needed ⊆ s)); [|done].
  intros s dep _ Hs.
  destruct (boolAt excluded dep || bool_decide (dep ∈ s)) eqn:Hskip;
    [by eauto|].
  apply orb_false_iff in Hskip as [_ Hdep%bool_decide_eq_false].
  assert (Hmono : (size (dom layers ∖ s) ≤ size (dom layers ∖ needed))%nat).
  { apply subseteq_size. set_solver. }
  destruct (layers !! dep) as [layer'|] eqn:Hlayer.
  - destruct (IH dep ({[dep]} ∪ s)) as (s' & -> & Hs').
    + assert (Hlt : (size (dom layers ∖ ({[dep]} ∪ s))
                     < size (dom layers ∖ s))%nat).
      { apply subset_size. apply elem_of_dom_2 in Hlayer. set_solver. }
      lia.
    + exists s'. split; [done|]. set_solver.
  - destruct fuel as [|fuel']; [lia|]. simpl. rewrite Hlayer.
    eexists. split; [done|]. set_solver.
Qed.

Section Totality.
Variable LayersProvidedByImage :
  string → gmap string ResolvedImage.t → gmap string Layer.t →
  gmap string bool * option error.

Lemma computeOwnLayers_total parentName pathLayers result layers globalOrder :
  is_Some (computeOwnLayers LayersProvidedByImage parentName pathLayers result
                            layers globalOrder).
Proof.
  unfold computeOwnLayers.
  set (parentProvided := match result !! parentName with
                         | Some _ => _
                         | None => _
                         end).
  destruct (foldOpt_total
              (λ needed l,
                 addTransitiveDeps (size layers + 2) l layers
                                   ({[l]} ∪ needed) parentProvided)
              (λ _, True)
              (filter (λ l, boolAt parentProvided l = false) pathLayers))
    with (s := (∅ : gset string)) as (needed & -> & _); [|done|by eauto].
  intros s l _ _.
  destruct (addTransitiveDeps_total layers parentProvided (size layers + 2)
              l ({[l]} ∪ s)) as (s' & -> & _); [|by eauto].
  pose proof (subseteq_size (dom layers ∖ ({[l]} ∪ s)) (dom layers)) as Hle.
  rewrite size_dom in Hle. specialize (Hle ltac:(set_solver)). lia.
Qed.

Lemma createIntermediate_total name parentName pathLayers result origImages
    cfg tag layers globalOrder :
  is_Some (createIntermediate LayersProvidedByImage name parentName pathLayers
             result origImages cfg tag layers globalOrder).
Proof.
  unfold createIntermediate.
  destruct (computeOwnLayers_total parentName pathLayers result layers
              globalOrder) as [own ->].
  simpl. eauto.
Qed.
End Totality.

(** *** walkTrie *)

Lemma forEach_total {A S} (body : A → S → option (S * option error)) l :
  (∀ x s, x ∈ l → is_Some (body x s)) → ∀ s, is_Some (forEach body l s).
Proof.
  induction l as [|x l IH]; intros Hbody s; simpl; [by eauto|].
  destruct (Hbody x s) as [[s1 [e|]] ->]; [by left|by eauto|].
  apply IH. intros y t Hy. apply Hbody. by right.
Qed.

Lemma trieNode_lookup_is_Some key m :
  key ∈ m.*1 → is_Some (trieNode.lookup key m).
Proof.
  induction m as [|[k v] m IH]; simpl; [by intros ?%elem_of_nil|].
  intros [->|Hin]%elem_of_cons; case_decide; eauto. done.
Qed.

Lemma trieHeight_child key node child :
  trieNode.lookup key (trieNode.children node) = Some child →
  (trieHeight child < trieHeight node)%nat.
Proof.
  destruct node as [l cs imgs]. simpl.
  induction cs as [|[k v] cs IH]; simpl; [done|].
  case_decide.
  - intros [= ->]. lia.
  - intros Hl%IH. lia.
Qed.

Lemma followChain_spec h :
  ∀ current pathLayers,
    (trieHeight current ≤ h)%nat → pathLayers ≠ [] →
    (followChain current pathLayers).1 ≠ [] ∧
    (trieHeight (followChain current pathLayers).2 ≤ trieHeight current)%nat.
Proof.
  induction h as [|h IH]; intros [l cs imgs] pathLayers Hh Hne.
  - destruct cs as [|[k next] cs]; [done|]. simpl in Hh. lia.
  - destruct cs as [|[k next] [|c cs]]; [done| |done].
    destruct imgs as [|img imgs]; [|done].
    change (followChain (trieNode.Build l [(k, next)] []) pathLayers)
      with (followChain next (pathLayers ++ [k])).
    simpl in Hh.
    destruct (IH next (pathLayers ++ [k])) as [Hp Hc];
      [lia|by destruct pathLayers|].
    split; [done|]. simpl. lia.
Qed.

Section WalkTotality.
Variable LayersProvidedByImage :
  string → gmap string ResolvedImage.t → gmap string Layer.t →
  gmap string bool * option error.
Variable origImages : gmap string ResolvedImage.t.
Variable layers : gmap string Layer.t.
Variable cfg : Config.
Variable tag : string.
Variable globalOrder : list string.

(** [S (trieHeight node)] nested calls are enough. *)
Lemma walkTrie_total fuel :
  ∀ node parentName result,
    (trieHeight node < fuel)%nat →
    is_Some (walkTrie LayersProvidedByImage fuel node parentName result
                      origImages layers cfg tag globalOrder).
Proof.
  induction fuel as [|fuel IH]; intros node parentName result Hfuel; [lia|].
  cbn [walkTrie]. apply forEach_total.
  intros childLayerName s Hkey. unfold walkEdge.
  apply (proj1 (sortStrings_elem_of _ _)) in Hkey.
  destruct (trieNode_lookup_is_Some _ _ Hkey) as [child Hchild].
  rewrite Hchild. simpl.
  pose proof (trieHeight_child _ _ _ Hchild) as Hlt.
  destruct (followChain_spec (trieHeight child) child [childLayerName])
    as [Hpath Hcur]; [done..|].
  destruct (followChain child [childLayerName]) as [pathLayers current].
  simpl in Hpath, Hcur.
  destruct (_ || _); [|by destruct (bool_decide _); eauto].
  destruct (pickIntermediateName_total current pathLayers s origImages Hpath)
    as [intermediateName ->].
  simpl.
  assert (Hcreate := λ parent res,
            createIntermediate_total LayersProvidedByImage intermediateName
              parent pathLayers res origImages cfg tag layers globalOrder).
  destruct (trieNode.images current) as [|img0 [|img1 imgs]].
  - destruct (Hcreate parentName s) as [r ->]. simpl. apply IH. lia.
  - destruct (negb _).
    + destruct (Hcreate parentName s) as [r ->]. simpl. apply IH. lia.
    + simpl. apply IH. lia.
  - destruct (Hcreate parentName s) as [r ->]. simpl. apply IH. lia.
Qed.
End WalkTotality.

(** *** Base chains *)

(** [chain images c path s]: following the bases from [c] passes through
    the internal images [path] and ends with [s], the base of an image
    flagged external or a name that is not in the map. *)
Inductive chain (images : gmap string ResolvedImage.t)
    : string → list string → string → Prop :=
| chain_missing c : images !! c = None → chain images c [] c
| chain_external c img :
    images !! c = Some img → ResolvedImage.IsExternalBase img = true →
    chain images c [] (ResolvedImage.Base img)
| chain_internal c img path s :
    images !! c = Some img → ResolvedImage.IsExternalBase img = false →
    chain images (ResolvedImage.Base img) path s →
    chain images c (c :: path) s.

(** No image is its own base, directly or through other images. *)
Definition basesEnd (images : gmap string ResolvedImage.t) : Prop :=
  ∀ c, ∃ path s, chain images c path s.

Section Chains.
Variable images : gmap string ResolvedImage.t.

Lemma chain_functional c path s :
  chain images c path s →
  ∀ path' s', chain images c path' s' → path = path' ∧ s = s'.
Proof.
  induction 1 as [c Hc|c img Hc Hext|c img path s Hc Hext Hrest0 IH];
    intros path' s' Hchain;
    inversion Hchain as [? Hc'|? img' Hc' Hext'|? img' ? ? Hc' Hext' Hrest];
    simplify_eq; try done; try congruence.
  destruct (IH _ _ Hrest) as [-> ->]. done.
Qed.

Lemma chain_elem_of c path s x :
  chain images c path s → x ∈ path →
  ∃ path', chain images x path' s ∧ (length path' ≤ length path)%nat.
Proof.
  induction 1 as [c Hc|c img Hc Hext|c img path s Hc Hext Hrest IH];
    [by intros ?%elem_of_nil..|].
  intros [->|Hin]%elem_of_cons.
  - exists (c :: path). split; [by eapply chain_internal|done].
  - destruct (IH Hin) as (path' & ? & ?). exists path'. split; [done|].
    simpl. lia.
Qed.

Lemma chain_NoDup c path s : chain images c path s → NoDup path.
Proof.
  induction 1 as [c Hc|c img Hc Hext|c img path s Hc Hext Hrest IH];
    [by apply NoDup_nil..|].
  apply NoDup_cons. split; [|done]. intros Hin.
  destruct (chain_elem_of _ _ _ _ Hrest Hin) as (path' & Hchain & Hlen).
  destruct (chain_functional _ _ _ Hchain (c :: path) s) as [-> _];
    [by eapply chain_internal|].
  simpl in Hlen. lia.
Qed.

Lemma chain_keys c path s x :
  chain images c path s → x ∈ path → is_Some (images !! x).
Proof.
  induction 1 as [c Hc|c img Hc Hext|c img path s Hc Hext Hrest IH];
    [by intros ?%elem_of_nil..|].
  intros [->|Hin]%elem_of_cons; eauto.
Qed.

(** A chain that ends passes through every image at most once. *)
Lemma chain_length c path s :
  chain images c path s → (length path ≤ size images)%nat.
Proof.
  intros Hchain. rewrite <- length_map_to_list.
  rewrite <- (length_fmap fst (map_to_list images)).
  apply submseteq_length, NoDup_submseteq; [by eapply chain_NoDup|].
  intros x [img Hx]%(chain_keys _ _ _ _ Hchain). apply list_elem_of_fmap.
  exists (x, img). split; [done|]. by apply elem_of_map_to_list.
Qed.

Lemma resolveExternalBaseLoop_chain c path s :
  chain images c path s →
  ∀ fuel, (length path < fuel)%nat →
          resolveExternalBaseLoop fuel c images = Some s.
Proof.
  induction 1 as [c Hc|c img Hc Hext|c img path s Hc Hext Hrest IH];
    intros [|fuel] Hfuel; simpl in *; try lia; rewrite Hc; try done.
  - by rewrite Hext.
  - rewrite Hext. apply IH. lia.
Qed.

Lemma resolveExternalBaseLoop_inv fuel :
  ∀ c s, resolveExternalBaseLoop fuel c images = Some s →
         ∃ path, chain images c path s.
Proof.
  induction fuel as [|fuel IH]; intros c s; simpl; [done|].
  destruct (images !! c) as [img|] eqn:Hc.
  - destruct (ResolvedImage.IsExternalBase img) eqn:Hext.
    + intros [= <-]. exists []. by eapply chain_external.
    + intros [path Hpath]%IH. exists (c :: path). by eapply chain_internal.
  - intros [= <-]. exists []. by apply chain_missing.
Qed.

(** The bound of [resolveExternalBase] loses nothing: whatever the loop
    returns after any number of rounds, it returns within
    [S (size images)]. *)
Lemma resolveExternalBase_saturated fuel c s :
  resolveExternalBaseLoop fuel c images = Some s →
  resolveExternalBase c images = Some s.
Proof.
  intros [path Hchain]%resolveExternalBaseLoop_inv.
  eapply resolveExternalBaseLoop_chain; [done|].
  apply chain_length in Hchain. lia.
Qed.

Lemma resolveExternalBase_total c :
  basesEnd images → is_Some (resolveExternalBase c images).
Proof.
  intros Hends. destruct (Hends c) as (path & s & Hchain). exists s.
  eapply resolveExternalBaseLoop_chain; [done|].
  apply chain_length in Hchain. lia.
Qed.

(** [basesEnd] can be checked by running [resolveExternalBase] on the
    images of the map. *)
Lemma basesEnd_alt :
  basesEnd images
  ↔ ∀ k, is_Some (images !! k) → is_Some (resolveExternalBase k images).
Proof.
  split.
  - intros Hends k _. by apply resolveExternalBase_total.
  - intros Hres c. destruct (images !! c) as [img|] eqn:Hc.
    + destruct (Hres c) as [s Hs]; [by eauto|].
      apply resolveExternalBaseLoop_inv in Hs as [path Hpath]. eauto.
    + exists [], c. by apply chain_missing.
Qed.

Section Walk.
Variable ResolveLayerOrder :
  list string → gmap string Layer.t → option (gmap string bool) →
  list string * option error.
Variable layers : gmap string Layer.t.

Lemma walk_chain c path s :
  chain images c path s →
  ∀ fuel st, (length path < fuel)%nat →
             walk ResolveLayerOrder fuel images layers c st
             = walk ResolveLayerOrder (S (length path)) images layers c st.
Proof.
  induction 1 as [c Hc|c img Hc Hext|c img path s Hc Hext Hrest IH];
    intros [|fuel] st Hfuel; simpl in *; try lia; rewrite Hc; try done.
  - by rewrite Hext.
  - rewrite Hext. rewrite IH by lia. done.
Qed.

Lemma walk_S fuel c st :
  walk ResolveLayerOrder (S fuel) images layers c st
  = match images !! c with
    | None => Some st
    | Some img =>
        st ← (if ResolvedImage.IsExternalBase img then Some st
              else walk ResolveLayerOrder fuel images layers
                        (ResolvedImage.Base img) st);
        match ResolveLayerOrder (ResolvedImage.Layers img) layers None with
        | (_, Some _) => Some st
        | (resolved, None) => Some (appendUnseen st resolved)
        end
    end.
Proof. done. Qed.

Lemma walk_total c path s :
  chain images c path s →
  ∀ st, is_Some (walk ResolveLayerOrder (S (length path)) images layers c st).
Proof.
  induction 1 as [c Hc|c img Hc Hext|c img path s Hc Hext Hrest IH];
    intros st; rewrite walk_S, Hc; [by eauto| |].
  - rewrite Hext. simpl. destruct (ResolveLayerOrder _ _ _) as [? [?|]]; eauto.
  - rewrite Hext. cbn [length]. destruct (IH st) as [st' ->]. simpl.
    destruct (ResolveLayerOrder _ _ _) as [? [?|]]; eauto.
Qed.

Lemma walk_inv fuel :
  ∀ c st st', walk ResolveLayerOrder fuel images layers c st = Some st' →
              ∃ path s, chain images c path s.
Proof.
  induction fuel as [|fuel IH]; intros c st st'; simpl; [done|].
  destruct (images !! c) as [img|] eqn:Hc.
  - destruct (ResolvedImage.IsExternalBase img) eqn:Hext.
    + intros _. exists [], (ResolvedImage.Base img). by eapply chain_external.
    + destruct (walk _ fuel _ _ _ _) as [st1|] eqn:Hwalk; [|done].
      intros _. apply IH in Hwalk as (path & s & Hpath).
      exists (c :: path), s. by eapply chain_internal.
  - intros _. exists [], c. by apply chain_missing.
Qed.

(** The bound of [collectAllImageLayers] loses nothing either. *)
Lemma walk_saturated fuel c st st' :
  walk ResolveLayerOrder fuel images layers c st = Some st' →
  walk ResolveLayerOrder (S (size images)) images layers c st = Some st'.
Proof.
  intros Hwalk. destruct (walk_inv _ _ _ _ Hwalk) as (path & s & Hchain).
  pose proof (chain_length _ _ _ Hchain) as Hlen.
  destruct (decide (length path < fuel)%nat) as [Hlt|Hge].
  - rewrite (walk_chain _ _ _ Hchain) by lia.
    by rewrite <- (walk_chain _ _ _ Hchain fuel) by done.
  - exfalso. revert Hwalk. clear Hlen.
    assert (Hfuel : (fuel ≤ length path)%nat) by lia. clear Hge.
    revert fuel st st' Hfuel.
    induction Hchain as [c Hc|c img Hc Hext|c img path s Hc Hext Hrest IH];
      intros [|fuel] st st' Hfuel; simpl in *; try lia; try done.
    rewrite Hc, Hext.
    destruct (walk _ fuel _ _ _ _) as [st1|] eqn:Hwalk; [|done].
    intros _. eapply IH; [|done]. lia.
Qed.

Lemma collectAllImageLayers_total c :
  basesEnd images →
  is_Some (collectAllImageLayers ResolveLayerOrder c images layers).
Proof.
  intros Hends. destruct (Hends c) as (path & s & Hchain).
  unfold collectAllImageLayers.
  rewrite (walk_chain _ _ _ Hchain)
    by (apply chain_length in Hchain; lia).
  destruct (walk_total _ _ _ Hchain (∅, [])) as [st ->]. simpl. eauto.
Qed.

Lemma AbsoluteLayerSequence_total c globalOrder :
  basesEnd images →
  is_Some (AbsoluteLayerSequence ResolveLayerOrder c images layers
                                 globalOrder).
Proof.
  intros Hends. unfold AbsoluteLayerSequence.
  destruct (collectAllImageLayers_total c Hends) as [allLayers ->].
  simpl. eauto.
Qed.

Lemma countPopularity_total todo :
  basesEnd images →
  ∀ popularity,
    is_Some (countPopularity ResolveLayerOrder images layers todo popularity).
Proof.
  intros Hends. induction todo as [|[k img] todo IH]; intros popularity;
    simpl; [by eauto|].
  destruct (ResolveLayerOrder _ _ _) as [resolved [err|]]; [by eauto|].
  destruct (collectAllImageLayers_total (ResolvedImage.Name img) Hends)
    as [allLayers ->].
  simpl. apply IH.
Qed.
End Walk.
End Chains.

(** *** GlobalLayerOrder and ComputeIntermediates return *)

Section Returns.
Variable range : ∀ V : Type, gmap string V → list (string * V).
Hypothesis range_Permutation :
  ∀ (V : Type) (m : gmap string V), range V m ≡ₚ map_to_list m.
Variable ResolveLayerOrder :
  list string → gmap string Layer.t → option (gmap string bool) →
  list string * option error.
Variable LayersProvidedByImage :
  string → gmap string ResolvedImage.t → gmap string Layer.t →
  gmap string bool * option error.
Variable images : gmap string ResolvedImage.t.
Variable layers : gmap string Layer.t.
Variable cfg : Config.
Variable tag : string.
Hypothesis bases_end : basesEnd images.

(** When no image is its own base, GlobalLayerOrder returns: an order
    without an error, or an error without an order. *)
Lemma GlobalLayerOrder_returns :
  ∃ order err,
    GlobalLayerOrder range ResolveLayerOrder images layers
    = Some (order, err) ∧
    (err = None ∨ order = []).
Proof.
  unfold GlobalLayerOrder.
  destruct (countPopularity_total images ResolveLayerOrder layers
              (range _ images) bases_end ∅) as [[err|popularity] ->]; simpl.
  - exists [], (Some err). auto.
  - destruct (topoSortByPopularity_spec range range_Permutation
                (buildGraph range popularity layers) popularity)
      as (emitted & _ & _ & _ & _ & _ & ->).
    case_decide; eauto.
Qed.

Lemma buildBaseGroups_total : is_Some (buildBaseGroups range images).
Proof.
  unfold buildBaseGroups.
  destruct (foldOpt_total
              (λ (baseGroups : gmap string (list string))
                 '((name, _) : string * ResolvedImage.t),
                 extBase ← resolveExternalBase name images;
                 Some (<[extBase := default [] (baseGroups !! extBase)
                                    ++ [name]]> baseGroups))
              (λ _, True) (range _ images))
    with (s := (∅ : gmap string (list string))) as (groups & -> & _);
    [|done|by eauto].
  intros s [name img] _ _.
  destruct (resolveExternalBase_total images name bases_end) as [extBase ->].
  simpl. eauto.
Qed.

Lemma buildTrie_total imageNames globalOrder :
  is_Some (buildTrie ResolveLayerOrder imageNames images layers globalOrder).
Proof.
  unfold buildTrie.
  destruct (foldOpt_total
              (λ root imgName,
                 seq ← AbsoluteLayerSequence ResolveLayerOrder imgName images
                         layers globalOrder;
                 Some (trieAdd seq imgName root))
              (λ _, True) imageNames)
    with (s := newTrieNode "") as (root & -> & _); [|done|by eauto].
  intros s imgName _ _.
  destruct (AbsoluteLayerSequence_total images ResolveLayerOrder layers
              imgName globalOrder bases_end) as [seq ->].
  simpl. eauto.
Qed.

Lemma findRootImage_total imageNames :
  (∀ n, n ∈ imageNames → is_Some (images !! n)) →
  is_Some (findRootImage imageNames images).
Proof.
  induction imageNames as [|imgName imageNames IH]; intros Hnames; simpl;
    [by eauto|].
  destruct (Hnames imgName) as [img ->]; [by left|]. simpl.
  case_bool_decide; [by eauto|]. apply IH. intros n Hn. apply Hnames.
  by right.
Qed.

Lemma processGroup_total globalOrder imageNames result :
  (∀ n, n ∈ imageNames → is_Some (images !! n)) →
  is_Some (processGroup ResolveLayerOrder LayersProvidedByImage images layers
             cfg tag globalOrder imageNames result).
Proof.
  intros Hnames. unfold processGroup.
  case_bool_decide as Hlen; [by eauto|].
  destruct (buildTrie_total (sortStrings imageNames) globalOrder)
    as [root ->].
  cbn -[walkTrie resolveExternalBase].
  destruct (findRootImage_total (sortStrings imageNames))
    as [rootImageName ->].
  { intros n Hn. apply Hnames. by apply sortStrings_elem_of. }
  cbn -[walkTrie resolveExternalBase].
  assert (Hstart :
            is_Some (if decide (rootImageName = "")
                     then first ← head (sortStrings imageNames);
                          resolveExternalBase first images
                     else Some rootImageName)).
  { case_decide; [|by eauto].
    destruct (sortStrings imageNames) as [|first rest]; [simpl in Hlen; lia|].
    cbn -[resolveExternalBase].
    by apply resolveExternalBase_total. }
  destruct Hstart as [startParent ->]. cbn -[walkTrie].
  apply walkTrie_total. lia.
Qed.

(** When no image is its own base, ComputeIntermediates returns: a map
    without an error, or an error with an empty map. *)
Lemma ComputeIntermediates_returns :
  ∃ result err,
    ComputeIntermediates range ResolveLayerOrder LayersProvidedByImage images
                         layers cfg tag = Some (result, err) ∧
    (err = None ∨ result = ∅).
Proof.
  unfold ComputeIntermediates.
  destruct buildBaseGroups_total as [baseGroups Hgroups].
  rewrite Hgroups. simpl.
  destruct GlobalLayerOrder_returns as (globalOrder & err & -> & _). simpl.
  destruct err as [err|]; [by eauto|].
  destruct (forEach_total
              (λ '((_, imageNames) : string * list string) result,
                 processGroup ResolveLayerOrder LayersProvidedByImage images
                   layers cfg tag globalOrder imageNames result)
              (range _ baseGroups)) with (s := copyImages range images)
    as [[result err] ->].
  - intros [key imageNames] s Hin. apply processGroup_total.
    intros n Hn. apply (range_elem_of range range_Permutation) in Hin.
    by eapply buildBaseGroups_names.
  - simpl. destruct err; eauto.
Qed.
End Returns.

(** ** What the popularity counts *)

Lemma occ_NoDup x l :
  NoDup l → occ x l = if decide (x ∈ l) then 1%nat else 0%nat.
Proof.
  induction 1 as [|y l Hy _ IH].
  - rewrite occ_nil. by rewrite decide_False by apply not_elem_of_nil.
  - rewrite occ_cons, IH. destruct (decide (y = x)) as [->|Hne].
    + rewrite decide_False by done. rewrite decide_True; [done|by left].
    + destruct (decide (x ∈ l)) as [Hx|Hx].
      * rewrite decide_True; [done|by right].
      * rewrite decide_False; [done|].
        intros [?|?]%elem_of_cons; [congruence|done].
Qed.

Section PopularityCount.
Variable ResolveLayerOrder :
  list string → gmap string Layer.t → option (gmap string bool) →
  list string * option error.
Variable images : gmap string ResolvedImage.t.
Variable layers : gmap string Layer.t.

(** The loop adds one to the counter of [l] for every image visited that
    needs [l]. *)
Lemma countPopularity_count todo :
  ∀ popularity0 popularity,
    countPopularity ResolveLayerOrder images layers todo popularity0
    = Some (inr popularity) →
    ∀ l, ∃ users,
      sublist users todo ∧
      (∀ x, x ∈ users
            ↔ x ∈ todo ∧ needs ResolveLayerOrder images layers x.2 l) ∧
      intAt popularity l = intAt popularity0 l + Z.of_nat (length users).
Proof.
  induction todo as [|[k img] todo IH]; intros popularity0 popularity Hcount l.
  - simpl in Hcount. simplify_eq. exists []. split_and!; [done| |simpl; lia].
    intros x. split; [by intros ?%elem_of_nil|by intros [?%elem_of_nil _]].
  - simpl in Hcount.
    destruct (ResolveLayerOrder (ResolvedImage.Layers img) layers None)
      as [resolved [err|]] eqn:Hres; [done|].
    destruct (collectAllImageLayers ResolveLayerOrder (ResolvedImage.Name img)
                images layers) as [allLayers|] eqn:Hall; [|done].
    simpl in Hcount.
    destruct (IH _ _ Hcount l) as (users & Hsub & Husers & Hint).
    apply collectAllImageLayers_spec in Hall as [Hnd Hall].
    destruct (mergeResolved_spec ResolveLayerOrder allLayers resolved Hnd)
      as [Hnd' Hmerge].
    rewrite foldl_increment_intAt, (occ_NoDup _ _ Hnd') in Hint.
    assert (Hneeds : l ∈ mergeResolved allLayers resolved
                     ↔ needs ResolveLayerOrder images layers img l).
    { rewrite Hmerge, Hall. unfold needs. split.
      - intros [?|?]; [by left|right; eauto].
      - intros [?|(resolved' & ? & ?)]; [by left|right; congruence]. }
    destruct (decide (l ∈ mergeResolved allLayers resolved)) as [Hl|Hl].
    + exists ((k, img) :: users). split_and!.
      * by apply sublist_skip.
      * intros x. rewrite !elem_of_cons, Husers. split.
        -- intros [->|[? ?]]; [split; [by left|by apply Hneeds]|].
           split; [by right|done].
        -- intros [[->|?] ?]; [by left|by right].
      * cbn [length]. lia.
    + exists users. split_and!.
      * by apply sublist_cons.
      * intros x. rewrite elem_of_cons, Husers. split.
        -- intros [? ?]. split; [by right|done].
        -- intros [[->|?] ?]; [|done]. destruct Hl. by apply Hneeds.
      * lia.
Qed.
End PopularityCount.

(** * Further properties of the planner *)

(** ** sortByPopularity *)

Lemma sortedUpTo_StronglySorted popularity s :
  sortedUpTo popularity (length s) s → StronglySorted (before popularity) s.
Proof.
  induction s as [|x s IH]; intros Hsorted; [constructor|].
  constructor.
  - apply IH. intros a b y z Ha Hab Hy Hz.
    apply (Hsorted (S a) (S b)); simpl; [lia|lia|done..].
  - apply Forall_forall. intros y [k Hk]%list_elem_of_lookup.
    apply (Hsorted 0%nat (S k)); simpl; [lia|lia|done..].
Qed.

(** X1.  sortByPopularity rearranges the slice, keeping every element, so
    that more popular names stand before less popular ones and, among names
    of the same popularity, smaller names stand before larger ones.  The
    result depends on the elements only, not on the order they came in. *)
Theorem sortByPopularity_sorted s popularity :
  sortByPopularity s popularity ≡ₚ s ∧
  (∀ i j x y,
     (i < j)%nat →
     sortByPopularity s popularity !! i = Some x →
     sortByPopularity s popularity !! j = Some y →
     intAt popularity y < intAt popularity x ∨
     (intAt popularity x = intAt popularity y ∧ String.le x y)) ∧
  (∀ t, t ≡ₚ s → sortByPopularity t popularity = sortByPopularity s popularity).
Proof.
  destruct (sortByPopularity_spec s popularity) as [Hperm Hsort].
  split_and!; [done| |].
  - intros i j x y Hij Hi Hj. apply (Hsort i j x y); [|done..].
    apply lookup_lt_Some in Hi. by rewrite Hperm in Hi.
  - intros t Ht. destruct (sortByPopularity_spec t popularity) as [Hperm' Hsort'].
    apply (StronglySorted_unique_strong (before popularity)).
    + intros x y _ _. apply before_antisym.
    + apply sortedUpTo_StronglySorted.
      by rewrite (Permutation_length Hperm').
    + apply sortedUpTo_StronglySorted.
      by rewrite (Permutation_length Hperm).
    + by rewrite Hperm', Hperm.
Qed.

(** ** topoSortByPopularity and GlobalLayerOrder *)

Section OrderContents.
Variable range : ∀ V : Type, gmap string V → list (string * V).
Hypothesis range_Permutation :
  ∀ (V : Type) (m : gmap string V), range V m ≡ₚ map_to_list m.

(** X2.  topoSortByPopularity always returns.  It returns an order exactly
    when every dependency named in the graph is a node of the graph and the
    graph has no cycle; the order then lists every node once, each after
    its dependencies.  In every other case (a cycle, a node that depends on
    itself, a dependency that is not a node) it returns the cycle error and
    no order. *)
Theorem topoSortByPopularity_outcome graph popularity :
  ∃ order err,
    topoSortByPopularity range graph popularity = Some (order, err) ∧
    (err = None ↔ closedGraph graph ∧ ¬ hasCycle graph) ∧
    (err = None →
     NoDup order ∧ (∀ c, c ∈ order ↔ is_Some (graph !! c)) ∧
     ∀ c d j, edge graph c d → order !! j = Some c →
              ∃ i, (i < j)%nat ∧ order !! i = Some d) ∧
    (err ≠ None → order = [] ∧ err = Some ErrCycleDetected).
Proof.
  destruct (topoSortByPopularity_spec range range_Permutation graph
              popularity)
    as (emitted & _ & Hnd & Hord & Hfinal & _ & Htopo).
  destruct (decide (length emitted = size graph)) as [Hlen|Hlen].
  - exists emitted, None. split; [done|].
    assert (Hnodes : ∀ c, c ∈ emitted ↔ is_Some (graph !! c)).
    { intros c. split; [by apply (order_nodes graph popularity)|].
      by apply (order_complete_nodes graph popularity). }
    split_and!; [|done..| |done].
    + split; [intros _|done].
      split; [|by apply (order_complete_acyclic graph popularity emitted)].
      intros c d Hcd.
      assert (Hc : c ∈ emitted).
      { apply Hnodes. destruct Hcd as (deps & ? & _). eauto. }
      apply list_elem_of_lookup in Hc as [j Hj].
      destruct (order_edge graph popularity emitted Hord c d j Hcd Hj)
        as (i & _ & Hi).
      by eapply Hnodes, list_elem_of_lookup_2.
    + intros _. split_and!; [done..|]. by apply (order_edge graph popularity).
  - exists [], (Some ErrCycleDetected). split; [done|]. split_and!; [|done..].
    split; [done|]. intros [Hclosed Hacyclic]. destruct Hacyclic.
    by apply (order_incomplete_cycle graph popularity emitted).
Qed.

Variable ResolveLayerOrder :
  list string → gmap string Layer.t → option (gmap string bool) →
  list string * option error.

(** X3.  The order GlobalLayerOrder returns lists exactly the layers of the
    layer map that at least one image needs (through its own layers or its
    chain of bases). *)
Theorem GlobalLayerOrder_members images layers order :
  GlobalLayerOrder range ResolveLayerOrder images layers
  = Some (order, None) →
  ∀ l, l ∈ order
       ↔ is_Some (layers !! l) ∧
         ∃ k img, images !! k = Some img ∧
                  needs ResolveLayerOrder images layers img l.
Proof.
  intros Hglobal l.
  destruct (countPopularity ResolveLayerOrder images layers
              (range _ images) ∅) as [[err|popularity]|] eqn:Hcount.
  - unfold GlobalLayerOrder in Hglobal. by rewrite Hcount in Hglobal.
  - rewrite (GlobalLayerOrder_unfold _ _ _ _ _ Hcount) in Hglobal.
    destruct (topoSortByPopularity_spec range range_Permutation
                (buildGraph range popularity layers) popularity)
      as (emitted & _ & Hnd & Hord & _ & _ & Htopo).
    rewrite Htopo in Hglobal. case_decide as Hlen; [|done]. simplify_eq.
    assert (Hnodes : l ∈ order
                     ↔ is_Some (buildGraph range popularity layers !! l)).
    { split; [by apply (order_nodes _ popularity)|].
      by apply (order_complete_nodes _ popularity). }
    rewrite Hnodes.
    rewrite (buildGraph_lookup range range_Permutation popularity layers l).
    pose proof (countPopularity_spec _ _ _ _ _ _ Hcount l) as Hpop.
    rewrite lookup_empty in Hpop.
    assert (Hiff : is_Some (popularity !! l)
                   ↔ ∃ k img, images !! k = Some img ∧
                              needs ResolveLayerOrder images layers img l).
    { rewrite Hpop. split.
      - intros [[? [=]]|(k & img & Hin & ?)]. exists k, img.
        split; [|done]. by apply (range_elem_of range range_Permutation).
      - intros (k & img & Hin & ?). right. exists k, img.
        split; [|done]. by apply (range_elem_of range range_Permutation). }
    case_decide as Hl.
    + rewrite fmap_is_Some. split; [|by intros [? _]].
      intros ?. split; [done|]. by apply Hiff.
    + split; [by intros [? ?]|]. intros [_ Hneeds]. destruct Hl.
      by apply Hiff.
  - unfold GlobalLayerOrder in Hglobal. by rewrite Hcount in Hglobal.
Qed.

(** X5.  When the popularity loop of GlobalLayerOrder ends without an
    error, the counter of every layer is the number of images that need
    the layer. *)
Theorem countPopularity_counts_images images layers popularity :
  countPopularity ResolveLayerOrder images layers (range _ images) ∅
  = Some (inr popularity) →
  ∀ l, ∃ users : list (string * ResolvedImage.t),
    NoDup users ∧
    (∀ k img, (k, img) ∈ users
              ↔ images !! k = Some img ∧
                needs ResolveLayerOrder images layers img l) ∧
    intAt popularity l = Z.of_nat (length users).
Proof.
  intros Hcount l.
  destruct (countPopularity_count _ _ _ _ _ _ Hcount l)
    as (users & Hsub & Husers & Hint).
  exists users. split_and!.
  - apply (sublist_NoDup users (range _ images)); [|done].
    apply (NoDup_fmap_1 fst).
    apply (range_NoDup_keys range range_Permutation).
  - intros k img. rewrite (Husers (k, img)).
    by rewrite (range_elem_of range range_Permutation).
  - rewrite Hint. unfold intAt. by rewrite lookup_empty.
Qed.
End OrderContents.

Section IterationOrder.
Variable range1 range2 : ∀ V : Type, gmap string V → list (string * V).
Hypothesis range1_Permutation :
  ∀ (V : Type) (m : gmap string V), range1 V m ≡ₚ map_to_list m.
Hypothesis range2_Permutation :
  ∀ (V : Type) (m : gmap string V), range2 V m ≡ₚ map_to_list m.
Variable ResolveLayerOrder :
  list string → gmap string Layer.t → option (gmap string bool) →
  list string * option error.

Lemma countPopularity_error images layers todo :
  ∀ popularity e,
    countPopularity ResolveLayerOrder images layers todo popularity
    = Some (inl e) →
    ∃ name cause, e = ErrResolvingLayers name cause.
Proof.
  induction todo as [|[k img] todo IH]; intros popularity e Hcount;
    simpl in Hcount; [done|].
  destruct (ResolveLayerOrder (ResolvedImage.Layers img) layers None)
    as [resolved [err|]].
  - simplify_eq. eauto.
  - destruct (collectAllImageLayers _ _ _ _) as [allLayers|]; [|done].
    simpl in Hcount. by eapply IH.
Qed.

(** X4.  What GlobalLayerOrder returns does not depend on the order in
    which Go visits its maps, when it returns an order or the cycle error.
    (The error of an image whose layers do not resolve names the first
    such image visited.) *)
Theorem GlobalLayerOrder_iteration_order images layers order err :
  GlobalLayerOrder range1 ResolveLayerOrder images layers
  = Some (order, err) →
  err = None ∨ err = Some ErrCycleDetected →
  GlobalLayerOrder range2 ResolveLayerOrder images layers
  = Some (order, err).
Proof.
  unfold GlobalLayerOrder. intros Hglobal Herr.
  destruct (countPopularity ResolveLayerOrder images layers
              (range1 _ images) ∅) as [[e|popularity]|] eqn:Hcount;
    [|simpl in Hglobal|done].
  { simpl in Hglobal. simplify_eq.
    apply countPopularity_error in Hcount as (n & cause & ->).
    by destruct Herr. }
  rewrite (countPopularity_Permutation ResolveLayerOrder images layers
             (range1 _ images) (range2 _ images))
    with (popularity := popularity); [|..|done].
  - simpl. rewrite <- Hglobal.
    rewrite (buildGraph_range range1 range2) by done.
    by apply topoSortByPopularity_range.
  - by rewrite range1_Permutation, range2_Permutation.
Qed.
End IterationOrder.

Section ResolveErrors.
Variable range : ∀ V : Type, gmap string V → list (string * V).
Hypothesis range_Permutation :
  ∀ (V : Type) (m : gmap string V), range V m ≡ₚ map_to_list m.
Variable ResolveLayerOrder :
  list string → gmap string Layer.t → option (gmap string bool) →
  list string * option error.
Variable images : gmap string ResolvedImage.t.
Variable layers : gmap string Layer.t.

Lemma countPopularity_failed todo :
  ∀ popularity e,
    countPopularity ResolveLayerOrder images layers todo popularity
    = Some (inl e) →
    ∃ k img resolved cause,
      (k, img) ∈ todo ∧
      ResolveLayerOrder (ResolvedImage.Layers img) layers None
      = (resolved, Some cause) ∧
      e = ErrResolvingLayers (ResolvedImage.Name img) cause.
Proof.
  induction todo as [|[k img] todo IH]; intros popularity e Hcount;
    simpl in Hcount; [done|].
  destruct (ResolveLayerOrder (ResolvedImage.Layers img) layers None)
    as [resolved [err|]] eqn:Hres.
  - simplify_eq. exists k, img, resolved, err. split; [by left|done].
  - destruct (collectAllImageLayers _ _ _ _) as [allLayers|]; [|done].
    simpl in Hcount.
    destruct (IH _ _ Hcount) as (k' & img' & r & c & Hin & ? & ?).
    exists k', img', r, c. split; [by right|done].
Qed.

Lemma countPopularity_resolved todo :
  ∀ popularity0 popularity,
    countPopularity ResolveLayerOrder images layers todo popularity0
    = Some (inr popularity) →
    ∀ k img, (k, img) ∈ todo →
             (ResolveLayerOrder (ResolvedImage.Layers img) layers None).2
             = None.
Proof.
  induction todo as [|[k img] todo IH]; intros popularity0 popularity Hcount
    k' img' Hin; simpl in Hcount; [by apply elem_of_nil in Hin|].
  destruct (ResolveLayerOrder (ResolvedImage.Layers img) layers None)
    as [resolved [err|]] eqn:Hres; [done|].
  destruct (collectAllImageLayers _ _ _ _) as [allLayers|]; [|done].
  simpl in Hcount. apply elem_of_cons in Hin as [?|Hin].
  - simplify_eq. by rewrite Hres.
  - by eapply IH.
Qed.

(** X6.  When the own layers of an image do not resolve, GlobalLayerOrder
    returns neither an order nor the cycle error: whenever it returns, it
    returns, without an order, the error of resolving the layers of an
    image of the map whose layers do not resolve, with the name of that
    image and the cause.  It returns such an error in no other case. *)
Theorem GlobalLayerOrder_resolve_error :
  (∀ order name cause,
     GlobalLayerOrder range ResolveLayerOrder images layers
     = Some (order, Some (ErrResolvingLayers name cause)) →
     order = [] ∧
     ∃ k img resolved,
       images !! k = Some img ∧ ResolvedImage.Name img = name ∧
       ResolveLayerOrder (ResolvedImage.Layers img) layers None
       = (resolved, Some cause)) ∧
  (∀ k img resolved cause order err,
     images !! k = Some img →
     ResolveLayerOrder (ResolvedImage.Layers img) layers None
     = (resolved, Some cause) →
     GlobalLayerOrder range ResolveLayerOrder images layers
     = Some (order, err) →
     ∃ name cause', err = Some (ErrResolvingLayers name cause')).
Proof.
  split.
  - intros order name cause Hglobal. unfold GlobalLayerOrder in Hglobal.
    destruct (countPopularity ResolveLayerOrder images layers
                (range _ images) ∅) as [[e|popularity]|] eqn:Hcount;
      [| |done]; simpl in Hglobal.
    + simplify_eq.
      apply countPopularity_failed in Hcount
        as (k & img & resolved & c & Hin & Hres & Heq).
      simplify_eq. split; [done|]. exists k, img, resolved.
      split; [|done]. by apply (range_elem_of range range_Permutation).
    + destruct (topoSortByPopularity_spec range range_Permutation
                  (buildGraph range popularity layers) popularity)
        as (emitted & _ & _ & _ & _ & _ & Htopo).
      rewrite Htopo in Hglobal. by case_decide.
  - intros k img resolved cause order err Hk Hres Hglobal.
    unfold GlobalLayerOrder in Hglobal.
    destruct (countPopularity ResolveLayerOrder images layers
                (range _ images) ∅) as [[e|popularity]|] eqn:Hcount;
      [| |done]; simpl in Hglobal.
    + simplify_eq.
      apply countPopularity_failed in Hcount
        as (k' & img' & r & c & _ & _ & ->).
      eauto.
    + apply (range_elem_of range range_Permutation) in Hk.
      pose proof (countPopularity_resolved _ _ _ Hcount k img Hk) as Hok.
      by rewrite Hres in Hok.
Qed.
End ResolveErrors.

(** ** Chains of bases *)

(** [y] is the internal base of [x]. *)
Definition internalBase (images : gmap string ResolvedImage.t)
    (x y : string) : Prop :=
  ∃ img, images !! x = Some img ∧
         ResolvedImage.IsExternalBase img = false ∧
         ResolvedImage.Base img = y.

(** Following internal bases from [c] reaches an image that is, through
    internal bases, its own base. *)
Definition baseCycleFrom (images : gmap string ResolvedImage.t)
    (c : string) : Prop :=
  ∃ x, rtc (internalBase images) c x ∧ tc (internalBase images) x x.

Lemma NoDup_keys_length {V} (m : gmap string V) (l : list string) :
  NoDup l → (∀ x, x ∈ l → is_Some (m !! x)) → (length l ≤ size m)%nat.
Proof.
  intros Hnd Hin. rewrite <- length_map_to_list.
  rewrite <- (length_fmap fst (map_to_list m)).
  apply submseteq_length, NoDup_submseteq; [done|].
  intros x [v Hx]%Hin. apply list_elem_of_fmap.
  exists (x, v). split; [done|]. by apply elem_of_map_to_list.
Qed.

Section BaseChains.
Variable images : gmap string ResolvedImage.t.

Lemma chain_internalBase x y path s :
  chain images x path s → internalBase images x y →
  ∃ path', path = x :: path' ∧ chain images y path' s.
Proof.
  intros Hchain (img & Hx & Hext & <-).
  inversion Hchain as [? Hx'|? img' Hx' Hext'|? img' ? ? Hx' Hext' Hrest];
    simplify_eq; try congruence.
  eauto.
Qed.

Lemma chain_rtc x y path s :
  rtc (internalBase images) x y → chain images x path s →
  ∃ path', chain images y path' s ∧ (length path' ≤ length path)%nat.
Proof.
  intros Hrtc. revert path. induction Hrtc as [x|x y z Hxy _ IH]; intros path Hchain.
  - eauto.
  - destruct (chain_internalBase _ _ _ _ Hchain Hxy) as (path1 & -> & Hy).
    destruct (IH _ Hy) as (path' & ? & ?). exists path'. split; [done|].
    simpl. lia.
Qed.

Lemma chain_no_cycle c path s :
  chain images c path s → ¬ baseCycleFrom images c.
Proof.
  intros Hchain (x & Hreach & Hcycle).
  destruct (chain_rtc _ _ _ _ Hreach Hchain) as (path1 & Hx & _).
  assert (Hshrink : ∀ a b, tc (internalBase images) a b →
            ∀ p, chain images a p s →
                 ∃ p', chain images b p' s ∧ (length p' < length p)%nat).
  { induction 1 as [a b Hab|a b d Hab _ IH]; intros p Hp.
    - destruct (chain_internalBase _ _ _ _ Hp Hab) as (p' & -> & ?).
      exists p'. split; [done|]. simpl. lia.
    - destruct (chain_internalBase _ _ _ _ Hp Hab) as (p1 & -> & Hb).
      destruct (IH _ Hb) as (p' & ? & ?). exists p'. split; [done|].
      simpl. lia. }
  destruct (Hshrink _ _ Hcycle _ Hx) as (path2 & Hx' & Hlt).
  destruct (chain_functional _ _ _ _ Hx _ _ Hx') as [-> _]. lia.
Qed.

Lemma resolveExternalBaseLoop_None_cycle c0 fuel :
  ∀ c visited,
    NoDup visited →
    (∀ x, x ∈ visited →
          is_Some (images !! x) ∧ tc (internalBase images) x c) →
    rtc (internalBase images) c0 c →
    (size images < length visited + fuel)%nat →
    resolveExternalBaseLoop fuel c images = None →
    baseCycleFrom images c0.
Proof.
  induction fuel as [|fuel IH]; intros c visited Hnd Hvisited Hreach Hsize Hnone.
  - pose proof (NoDup_keys_length images visited Hnd) as Hlen.
    specialize (Hlen (λ x Hx, proj1 (Hvisited x Hx))). lia.
  - simpl in Hnone. destruct (images !! c) as [img|] eqn:Hc; [|done].
    destruct (ResolvedImage.IsExternalBase img) eqn:Hext; [done|].
    assert (Hstep : internalBase images c (ResolvedImage.Base img)).
    { by exists img. }
    destruct (decide (c ∈ visited)) as [Hin|Hnin].
    + exists c. split; [done|]. by apply Hvisited.
    + apply (IH (ResolvedImage.Base img) (c :: visited)); [| | | |done].
      * by apply NoDup_cons.
      * intros x [->|Hx]%elem_of_cons.
        -- split; [by eauto|]. by apply tc_once.
        -- destruct (Hvisited x Hx) as [? Htc]. split; [done|].
           by eapply tc_r.
      * by eapply rtc_r.
      * simpl. lia.
Qed.


Lemma resolveExternalBase_None_cycle c :
  resolveExternalBase c images = None ↔ baseCycleFrom images c.
Proof.
  split.
  - intros Hnone.
    apply (resolveExternalBaseLoop_None_cycle c (S (size images)) c []);
      [apply NoDup_nil_2|by intros x ?%elem_of_nil|done|simpl; lia|done].
  - intros Hcycle.
    destruct (resolveExternalBase c images) as [s|] eqn:Hres; [|done].
    apply resolveExternalBaseLoop_inv in Hres as [path Hpath].
    by destruct (chain_no_cycle _ _ _ Hpath).
Qed.

(** X8.  The loop of resolveExternalBase never ends, however many rounds
    it is given, exactly when following the internal bases from the image
    reaches an image that is its own base through internal bases. *)
Theorem resolveExternalBase_diverges c :
  (∀ fuel, resolveExternalBaseLoop fuel c images = None)
  ↔ baseCycleFrom images c.
Proof.
  rewrite <- resolveExternalBase_None_cycle. split.
  - intros Hnone. apply Hnone.
  - intros Hnone fuel.
    destruct (resolveExternalBaseLoop fuel c images) as [s|] eqn:Hloop;
      [|done].
    apply resolveExternalBase_saturated in Hloop. congruence.
Qed.
End BaseChains.

(** ** collectAllImageLayers along a chain of bases *)

Lemma appendUnseen_app resolved :
  ∀ (seen : gset string) (result : list string),
    (∀ l, l ∈ seen ↔ l ∈ result) →
    ∃ new,
      (appendUnseen (seen, result) resolved).2 = result ++ new ∧
      sublist new resolved ∧
      ∀ l, l ∈ new ↔ l ∈ resolved ∧ l ∉ result.
Proof.
  unfold appendUnseen.
  induction resolved as [|x resolved IH]; intros seen result Hseen; simpl.
  - exists []. rewrite app_nil_r. split_and!; [done..|].
    intros l. split; [by intros ?%elem_of_nil|by intros [?%elem_of_nil _]].
  - case_bool_decide as Hx.
    + destruct (IH seen result Hseen) as (new & Heq & Hsub & Hnew).
      exists new. split_and!; [done|by apply sublist_cons|].
      intros l. rewrite Hnew, elem_of_cons. split; [naive_solver|].
      intros [[->|?] Hl]; [|done]. destruct Hl. by apply Hseen.
    + destruct (IH ({[x]} ∪ seen) (result ++ [x])) as (new & Heq & Hsub & Hnew).
      { intros l. rewrite elem_of_union, elem_of_singleton, elem_of_app,
          list_elem_of_singleton, Hseen. tauto. }
      exists (x :: new). split_and!.
      * by rewrite Heq, <- app_assoc.
      * by apply sublist_skip.
      * intros l. rewrite !elem_of_cons, Hnew, elem_of_app,
          list_elem_of_singleton.
        rewrite Hseen in Hx.
        destruct (decide (l = x)) as [->|Hne]; [tauto|tauto].
Qed.

Section Inheritance.
Variable ResolveLayerOrder :
  list string → gmap string Layer.t → option (gmap string bool) →
  list string * option error.
Variable images : gmap string ResolvedImage.t.
Variable layers : gmap string Layer.t.

Lemma walk_fuel_base imageName img st :
  images !! imageName = Some img →
  ResolvedImage.IsExternalBase img = false →
  walk ResolveLayerOrder (size images) images layers
       (ResolvedImage.Base img) st
  = walk ResolveLayerOrder (S (size images)) images layers
         (ResolvedImage.Base img) st.
Proof.
  intros Himg Hext.
  destruct (walk ResolveLayerOrder (size images) images layers
              (ResolvedImage.Base img) st) as [st1|] eqn:Hwalk.
  - symmetry. by eapply walk_saturated.
  - destruct (walk ResolveLayerOrder (S (size images)) images layers
                (ResolvedImage.Base img) st) as [st1|] eqn:Hwalk'; [|done].
    destruct (walk_inv _ _ _ _ _ _ _ Hwalk') as (path & s & Hpath).
    assert (Hchain : chain images imageName (imageName :: path) s).
    { by eapply chain_internal. }
    apply chain_length in Hchain. simpl in Hchain.
    rewrite (walk_chain _ _ _ _ _ _ Hpath) in Hwalk by lia.
    rewrite (walk_chain _ _ _ _ _ _ Hpath) in Hwalk' by lia.
    congruence.
Qed.

(** The recursion of [walk], without the bound. *)
Lemma collectAllImageLayers_equation imageName :
  collectAllImageLayers ResolveLayerOrder imageName images layers
  = match images !! imageName with
    | None => Some []
    | Some img =>
        inherited ←
          (if ResolvedImage.IsExternalBase img then Some []
           else collectAllImageLayers ResolveLayerOrder
                  (ResolvedImage.Base img) images layers);
        match ResolveLayerOrder (ResolvedImage.Layers img) layers None with
        | (_, Some _) => Some inherited
        | (resolved, None) => Some (mergeResolved inherited resolved)
        end
    end.
Proof.
  unfold collectAllImageLayers at 1. rewrite walk_S.
  destruct (images !! imageName) as [img|] eqn:Himg; [|done].
  destruct (ResolvedImage.IsExternalBase img) eqn:Hext.
  - simpl. destruct (ResolveLayerOrder _ _ _) as [resolved [err|]]; done.
  - rewrite (walk_fuel_base imageName img) by done.
    unfold collectAllImageLayers.
    destruct (walk ResolveLayerOrder (S (size images)) images layers
                (ResolvedImage.Base img) (∅, [])) as [[seen inherited]|]
      eqn:Hwalk; [|done].
    cbn -[walk].
    destruct (ResolveLayerOrder _ _ _) as [resolved [err|]]; [done|].
    apply walk_spec in Hwalk as (Hseen & _ & _);
      [|by intros l; rewrite elem_of_empty, elem_of_nil|apply NoDup_nil_2].
    assert (seen = list_to_set inherited) as ->; [|done].
    apply set_eq. intros l. by rewrite Hseen, elem_of_list_to_set.
Qed.

(** X9.  An image with an internal base starts with the layers its base
    collects, in the same order, and continues with those of its own
    resolved layers that the base does not bring, in the order they
    resolve; when its own layers do not resolve nothing is added and no
    error is reported.  No layer is listed twice. *)
Theorem collectAllImageLayers_inherits imageName img allLayers :
  images !! imageName = Some img →
  ResolvedImage.IsExternalBase img = false →
  collectAllImageLayers ResolveLayerOrder imageName images layers
  = Some allLayers →
  ∃ inherited new,
    collectAllImageLayers ResolveLayerOrder (ResolvedImage.Base img)
                          images layers = Some inherited ∧
    allLayers = inherited ++ new ∧ NoDup allLayers ∧
    match ResolveLayerOrder (ResolvedImage.Layers img) layers None with
    | (_, Some _) => new = []
    | (resolved, None) =>
        sublist new resolved ∧ ∀ l, l ∈ new ↔ l ∈ resolved ∧ l ∉ inherited
    end.
Proof.
  intros Himg Hext Hall.
  pose proof (collectAllImageLayers_spec _ _ _ _ _ Hall) as [Hnd _].
  rewrite collectAllImageLayers_equation, Himg, Hext in Hall.
  destruct (collectAllImageLayers ResolveLayerOrder (ResolvedImage.Base img)
              images layers) as [inherited|]; [|done].
  simpl in Hall. exists inherited.
  destruct (ResolveLayerOrder _ _ _) as [resolved [err|]].
  - simplify_eq. exists []. by rewrite app_nil_r.
  - simplify_eq. unfold mergeResolved in *.
    destruct (appendUnseen_app resolved (list_to_set inherited) inherited)
      as (new & Heq & Hsub & Hnew).
    { intros l. by rewrite elem_of_list_to_set. }
    exists new. by rewrite Heq in *.
Qed.

Lemma filter_sublist_impl {A} (P Q : A → Prop)
    `{!∀ x, Decision (P x)} `{!∀ x, Decision (Q x)} (l : list A) :
  (∀ x, P x → Q x) → sublist (filter P l) (filter Q l).
Proof.
  intros HPQ. induction l as [|x l IH]; [done|].
  rewrite !filter_cons. destruct (decide (P x)) as [HP|HP].
  - rewrite decide_True by auto. by apply sublist_skip.
  - destruct (decide (Q x)); [by apply sublist_cons|done].
Qed.

(** X10.  The absolute layer sequence of an internal base is a subsequence
    of the absolute layer sequence of the image built on it. *)
Theorem AbsoluteLayerSequence_base imageName img globalOrder seq :
  images !! imageName = Some img →
  ResolvedImage.IsExternalBase img = false →
  AbsoluteLayerSequence ResolveLayerOrder imageName images layers globalOrder
  = Some seq →
  ∃ baseSeq,
    AbsoluteLayerSequence ResolveLayerOrder (ResolvedImage.Base img) images
                          layers globalOrder = Some baseSeq ∧
    sublist baseSeq seq.
Proof.
  intros Himg Hext. unfold AbsoluteLayerSequence.
  rewrite collectAllImageLayers_equation, Himg, Hext.
  destruct (collectAllImageLayers ResolveLayerOrder (ResolvedImage.Base img)
              images layers) as [inherited|]; [|done].
  simpl. intros Hseq. eexists. split; [done|].
  destruct (ResolveLayerOrder _ _ _) as [resolved [err|]]; simplify_eq/=.
  - done.
  - apply filter_sublist_impl. intros l. rewrite !elem_of_list_to_set.
    unfold mergeResolved.
    destruct (appendUnseen_app resolved (list_to_set inherited) inherited)
      as (new & -> & _).
    { intros x. by rewrite elem_of_list_to_set. }
    intros ?. apply elem_of_app. by left.
Qed.
End Inheritance.

(** ** pickIntermediateName *)

Section PickName.
Variable result origImages : gmap string ResolvedImage.t.

(** A name in use: an image of the input or of the result so far. *)
Definition nameTaken (name : string) : Prop :=
  is_Some (origImages !! name) ∨ is_Some (result !! name).

Lemma pickNameLoop_first_free baseName fuel :
  ∀ name suffix picked,
    pickNameLoop fuel baseName name suffix result origImages = Some picked →
    ¬ nameTaken picked ∧
    (picked = name ∨
     ∃ k, suffix ≤ k ∧ picked = candidateName baseName k ∧ nameTaken name ∧
          ∀ j, suffix ≤ j < k → nameTaken (candidateName baseName j)).
Proof.
  induction fuel as [|fuel IH]; intros name suffix picked Hpick; [done|].
  simpl in Hpick.
  assert (Hnext :
    nameTaken name →
    pickNameLoop fuel baseName (candidateName baseName suffix) (suffix + 1)
                 result origImages = Some picked →
    ¬ nameTaken picked ∧
    (picked = name ∨
     ∃ k, suffix ≤ k ∧ picked = candidateName baseName k ∧ nameTaken name ∧
          ∀ j, suffix ≤ j < k → nameTaken (candidateName baseName j))).
  { intros Htaken Hloop.
    destruct (IH _ _ _ Hloop) as [Hfree [->|(k & Hk & -> & Hfirst & Hall)]].
    - split; [done|]. right. exists suffix. split_and!; [lia|done..|].
      intros j ?. lia.
    - split; [done|]. right. exists k. split_and!; [lia|done..|].
      intros j Hj. destruct (decide (j = suffix)) as [->|?]; [done|].
      apply Hall. lia. }
  case_bool_decide as Horig; [apply Hnext; [by left|done]|].
  case_bool_decide as Hres; [apply Hnext; [by right|done]|].
  simplify_eq. split; [|by left]. by intros [?|?].
Qed.

(** X11.  For a node with exactly one terminal image pickIntermediateName
    returns that image.  Otherwise it returns the first free name among
    the last layer of the path, then that layer with the suffixes -2, -3,
    ...: the name returned is in use neither in the input nor in the result
    so far, and every candidate before it is in use. *)
Theorem pickIntermediateName_first_free node pathLayers :
  pathLayers ≠ [] →
  ∃ name,
    pickIntermediateName node pathLayers result origImages = Some name ∧
    match trieNode.images node with
    | [img] => name = img
    | _ =>
        ∃ baseName,
          last pathLayers = Some baseName ∧ ¬ nameTaken name ∧
          (name = baseName ∨
           ∃ k, 2 ≤ k ∧ name = candidateName baseName k ∧
                nameTaken baseName ∧
                ∀ j, 2 ≤ j < k → nameTaken (candidateName baseName j))
    end.
Proof.
  intros Hpath.
  destruct (pickIntermediateName_total node pathLayers result origImages
              Hpath) as [name Hname].
  exists name. split; [done|]. unfold pickIntermediateName in Hname.
  destruct (trieNode.images node) as [|img0 [|img1 imgs]].
  - destruct (last pathLayers) as [baseName|]; [|done].
    cbn -[pickNameLoop] in Hname.
    exists baseName. split; [done|]. by eapply pickNameLoop_first_free.
  - by simplify_eq.
  - destruct (last pathLayers) as [baseName|]; [|done].
    cbn -[pickNameLoop] in Hname.
    exists baseName. split; [done|]. by eapply pickNameLoop_first_free.
Qed.
End PickName.

(** ** computeOwnLayers *)

(** Layer [x] lists [d] among its dependencies. *)
Definition dependsOn (layers : gmap string Layer.t) (x d : string) : Prop :=
  ∃ layer, layers !! x = Some layer ∧ d ∈ Layer.Depends layer.

Lemma foldOpt_stable {A S} (body : S → A → option S) (Inv : S → Prop)
    (Q : A → S → Prop) (l : list A) :
  (∀ x s s', x ∈ l → Inv s → body s x = Some s' → Inv s' ∧ Q x s') →
  (∀ x y s s', Inv s → Q x s → body s y = Some s' → Q x s') →
  ∀ s s', Inv s → foldOpt body s l = Some s' →
          Inv s' ∧ ∀ x, x ∈ l → Q x s'.
Proof.
  intros Hbody Hstable s s' Hs Hrun.
  assert (Hgen : ∀ l' s0 (done_ : list A),
            (∀ x, x ∈ l' → x ∈ l) →
            Inv s0 → (∀ x, x ∈ done_ → Q x s0) →
            foldOpt body s0 l' = Some s' →
            Inv s' ∧ ∀ x, x ∈ done_ ++ l' → Q x s').
  { induction l' as [|y l' IH]; intros s0 done_ Hsub Hs0 Hdone Hfold;
      simpl in Hfold.
    - simplify_eq. rewrite app_nil_r. done.
    - destruct (body s0 y) as [s1|] eqn:Hy; [|done].
      destruct (Hbody y s0 s1) as [Hs1 Hq]; [apply Hsub; by left|done..|].
      destruct (IH s1 (done_ ++ [y])) as [Hfin Hall]; [| | |done|].
      + intros x Hx. apply Hsub. by right.
      + done.
      + intros x [Hx| ->%list_elem_of_singleton]%elem_of_app; [|done].
        eapply Hstable; [exact Hs0|by apply Hdone|done].
      + split; [done|]. intros x Hx. apply Hall.
        by rewrite <- app_assoc. }
  destruct (Hgen l s []) as [? Hall]; [done..|by intros ? ?%elem_of_nil|done|].
  done.
Qed.

Section OwnLayers.
Variable layers : gmap string Layer.t.
Variable excluded : gmap string bool.

(** What one call adds to [needed]: only layers that [layerName] depends
    on, directly or not, and are not excluded; and for [layerName] and
    every layer added, each dependency that is not excluded. *)
Lemma addTransitiveDeps_spec fuel :
  ∀ layerName (needed needed' : gset string),
    addTransitiveDeps fuel layerName layers needed excluded = Some needed' →
    needed ⊆ needed' ∧
    (∀ x, x ∈ needed' → x ∉ needed →
          tc (dependsOn layers) layerName x ∧ boolAt excluded x = false) ∧
    (∀ x d, x = layerName ∨ (x ∈ needed' ∧ x ∉ needed) →
            dependsOn layers x d → boolAt excluded d = false → d ∈ needed').
Proof.
  induction fuel as [|fuel IH]; intros layerName needed needed' Hrun; [done|].
  simpl in Hrun. destruct (layers !! layerName) as [layer|] eqn:Hlayer.
  - pose (Inv := λ s : gset string,
        needed ⊆ s ∧
        (∀ x, x ∈ s → x ∉ needed →
              tc (dependsOn layers) layerName x ∧ boolAt excluded x = false) ∧
        (∀ x d, x ∈ s → x ∉ needed → dependsOn layers x d →
                boolAt excluded d = false → d ∈ s)).
    pose (Q := λ (dep : string) (s : gset string),
        boolAt excluded dep = false → dep ∈ s).
    match type of Hrun with
    | foldOpt ?b _ _ = _ => set (body := b) in *
    end.
    assert (Hstep : ∀ dep s s', dep ∈ Layer.Depends layer → Inv s →
                                body s dep = Some s' → Inv s' ∧ Q dep s').
    { unfold Inv, Q, body.
      intros dep s s' Hdep (Hsub & Hreach & Hclosed) Hbody.
      destruct (boolAt excluded dep) eqn:Hex; simpl in Hbody.
      { simplify_eq. by split. }
      case_bool_decide as Hin; simpl in Hbody.
      { simplify_eq. split; [by split|]. by intros _. }
      apply IH in Hbody as (Hsub' & Hreach' & Hclosed').
      assert (Hedge : dependsOn layers layerName dep) by (by exists layer).
      split; [split_and!|].
      * set_solver.
      * intros x Hx Hnx. destruct (decide (x ∈ {[dep]} ∪ s)) as [Hold|Hnew].
        -- apply elem_of_union in Hold as [ ->%elem_of_singleton|Hold].
           ++ split; [by apply tc_once|done].
           ++ by apply Hreach.
        -- destruct (Hreach' x Hx Hnew) as [Htc ?]. split; [|done].
           by eapply tc_l.
      * intros x d Hx Hnx Hxd Hd.
        destruct (decide (x ∈ s)) as [Hold|Hnew].
        -- apply Hsub'. apply elem_of_union. right. by eapply Hclosed.
        -- eapply Hclosed'; [|done..].
           destruct (decide (x = dep)) as [->|?]; [by left|].
           right. split; [done|]. set_solver.
      * intros _. apply Hsub'. set_solver. }
    assert (Hstable : ∀ x y s s', Inv s → Q x s → body s y = Some s' →
                                  Q x s').
    { unfold Q, body. intros x y s s' _ Hq Hbody Hx.
      destruct (boolAt excluded y || bool_decide (y ∈ s)) eqn:Hskip.
      { simplify_eq. by apply Hq. }
      apply IH in Hbody as (Hsub' & _). apply Hsub'. set_solver. }
    assert (Hinit : Inv needed).
    { unfold Inv. split_and!; [done| |]; intros; set_solver. }
    destruct (foldOpt_stable body Inv Q (Layer.Depends layer) Hstep Hstable
                needed needed' Hinit Hrun)
      as [(Hsub & Hreach & Hclosed) Hdeps].
    split_and!; [done..|].
    intros x d [->|[Hx Hnx]] Hxd Hd.
    + destruct Hxd as (layer' & Hl & Hin). simplify_eq. by apply Hdeps.
    + by eapply Hclosed.
  - simplify_eq. split_and!; [done|by intros ? ? ?|].
    intros x d [->|[? ?]] Hxd; [|done].
    destruct Hxd as (layer' & Hl & _). congruence.
Qed.
End OwnLayers.

Section OwnLayersOfIntermediate.
Variable LayersProvidedByImage :
  string → gmap string ResolvedImage.t → gmap string Layer.t →
  gmap string bool * option error.

(** What computeOwnLayers takes as provided by the parent: nothing when the
    parent is not an image of the result or its layers cannot be told. *)
Definition parentProvided (parentName : string)
    (result : gmap string ResolvedImage.t) (layers : gmap string Layer.t)
    : gmap string bool :=
  match result !! parentName with
  | Some _ =>
      match LayersProvidedByImage parentName result layers with
      | (provided, None) => provided
      | (_, Some _) => ∅
      end
  | None => ∅
  end.

End OwnLayersOfIntermediate.

(** ** The trie of a group *)

(** The node reached from [node] by the layers of [seq]. *)
Fixpoint trieFind (seq : list string) (node : trieNode.t)
    : option trieNode.t :=
  match seq with
  | [] => Some node
  | layer :: seq =>
      child ← trieNode.lookup layer (trieNode.children node);
      trieFind seq child
  end.

(** The images that end at [seq]. *)
Definition imagesAt (seq : list string) (node : trieNode.t) : list string :=
  match trieFind seq node with
  | Some n => trieNode.images n
  | None => []
  end.

(** [x] ends somewhere in the trie. *)
Definition inTrie (node : trieNode.t) (x : string) : Prop :=
  ∃ seq, x ∈ imagesAt seq node.

Lemma trieNode_lookup_insert key v m k :
  trieNode.lookup k (trieNode.insert key v m)
  = if decide (k = key) then Some v else trieNode.lookup k m.
Proof.
  induction m as [|[k0 w] m IH]; simpl.
  - destruct (decide (key = k)) as [->|?].
    + by rewrite decide_True.
    + by rewrite decide_False.
  - destruct (decide (k0 = key)) as [->|Hne]; simpl.
    + destruct (decide (key = k)) as [->|?].
      * by rewrite decide_True.
      * by rewrite decide_False.
    + destruct (decide (k0 = k)) as [->|?].
      * by rewrite decide_False.
      * apply IH.
Qed.

Lemma imagesAt_cons layer seq node :
  imagesAt (layer :: seq) node
  = match trieNode.lookup layer (trieNode.children node) with
    | Some child => imagesAt seq child
    | None => []
    end.
Proof.
  unfold imagesAt. simpl.
  by destruct (trieNode.lookup layer (trieNode.children node)).
Qed.

Lemma imagesAt_new seq layer : imagesAt seq (newTrieNode layer) = [].
Proof. by destruct seq. Qed.

(** Adding an image changes the trie at the end of its sequence only. *)
Lemma imagesAt_trieAdd seq imgName :
  ∀ node seq',
    imagesAt seq' (trieAdd seq imgName node)
    = imagesAt seq' node ++ (if decide (seq' = seq) then [imgName] else []).
Proof.
  induction seq as [|layer seq IH]; intros node seq'.
  - destruct seq' as [|k seq']; simpl.
    + done.
    + rewrite !imagesAt_cons. simpl. by rewrite app_nil_r.
  - destruct seq' as [|k seq'].
    + simpl. unfold imagesAt. simpl. by rewrite app_nil_r.
    + rewrite !imagesAt_cons. cbn [trieAdd trieNode.children].
      rewrite trieNode_lookup_insert.
      destruct (decide (k = layer)) as [->|Hne].
      * rewrite IH.
        destruct (trieNode.lookup layer (trieNode.children node))
          as [child|]; simpl.
        -- destruct (decide (seq' = seq)) as [->|?].
           ++ by rewrite decide_True.
           ++ rewrite decide_False; [done|congruence].
        -- rewrite imagesAt_new.
           destruct (decide (seq' = seq)) as [->|?].
           ++ by rewrite decide_True.
           ++ rewrite decide_False; [done|congruence].
      * rewrite decide_False by congruence. by rewrite app_nil_r.
Qed.

Lemma inTrie_child key node child x :
  trieNode.lookup key (trieNode.children node) = Some child →
  inTrie child x → inTrie node x.
Proof.
  intros Hchild [seq Hx]. exists (key :: seq).
  by rewrite imagesAt_cons, Hchild.
Qed.

Lemma inTrie_images node x : x ∈ trieNode.images node → inTrie node x.
Proof. intros Hx. by exists []. Qed.

(** The chain loop of [walkTrie] spells, in [pathLayers], the way from the
    node it starts at to the node it stops at. *)
Lemma followChain_find h :
  ∀ current pathLayers,
    (trieHeight current ≤ h)%nat →
    ∃ keys,
      (followChain current pathLayers).1 = pathLayers ++ keys ∧
      trieFind keys current = Some (followChain current pathLayers).2.
Proof.
  induction h as [|h IH]; intros [l cs imgs] pathLayers Hh.
  - destruct cs as [|[k next] cs]; [|simpl in Hh; lia].
    exists []. by rewrite app_nil_r.
  - destruct cs as [|[k next] [|c cs]];
      [exists []; by rewrite app_nil_r| |exists []; by rewrite app_nil_r].
    destruct imgs as [|img imgs]; [|exists []; by rewrite app_nil_r].
    change (followChain (trieNode.Build l [(k, next)] []) pathLayers)
      with (followChain next (pathLayers ++ [k])).
    simpl in Hh. destruct (IH next (pathLayers ++ [k])) as (keys & Hp & Hf);
      [lia|].
    exists (k :: keys). split.
    + by rewrite Hp, <- app_assoc.
    + simpl. by rewrite decide_True.
Qed.

Lemma inTrie_find keys node current x :
  trieFind keys node = Some current → inTrie current x → inTrie node x.
Proof.
  revert node. induction keys as [|k keys IH]; intros node Hfind Hx; simpl in *.
  - by simplify_eq.
  - destruct (trieNode.lookup k (trieNode.children node)) as [child|] eqn:Hk;
      [|done].
    simpl in Hfind. eapply inTrie_child; [done|]. by eapply IH.
Qed.

Lemma inTrie_followChain child pathLayers x :
  inTrie (followChain child pathLayers).2 x → inTrie child x.
Proof.
  destruct (followChain_find (trieHeight child) child pathLayers)
    as (keys & _ & Hfind); [done|].
  by apply (inTrie_find keys).
Qed.

Section BuildTrie.
Variable ResolveLayerOrder :
  list string → gmap string Layer.t → option (gmap string bool) →
  list string * option error.
Variable images : gmap string ResolvedImage.t.
Variable layers : gmap string Layer.t.
Variable globalOrder : list string.

Lemma buildTrie_from imageNames :
  ∀ root0 root,
    foldOpt (λ root imgName,
               seq ← AbsoluteLayerSequence ResolveLayerOrder imgName images
                       layers globalOrder;
               Some (trieAdd seq imgName root))
            root0 imageNames = Some root →
    ∀ seq,
      imagesAt seq root
      = imagesAt seq root0 ++
        filter (λ n, AbsoluteLayerSequence ResolveLayerOrder n images layers
                                           globalOrder = Some seq)
               imageNames.
Proof.
  induction imageNames as [|n imageNames IH]; intros root0 root Hbuild seq;
    simpl in Hbuild.
  - simplify_eq. by rewrite app_nil_r.
  - destruct (AbsoluteLayerSequence ResolveLayerOrder n images layers
                globalOrder) as [seqn|] eqn:Hn; [|done].
    simpl in Hbuild. rewrite (IH _ _ Hbuild seq), imagesAt_trieAdd.
    rewrite filter_cons, Hn, <- app_assoc. f_equal.
    destruct (decide (seq = seqn)) as [->|Hne].
    + by rewrite decide_True.
    + rewrite decide_False; [done|congruence].
Qed.

(** X13.  In the trie built for a group, the images that end at the node
    spelled by a sequence of layers are the images of the group with that
    absolute layer sequence, in the order of the group. *)
Theorem buildTrie_imagesAt imageNames root :
  buildTrie ResolveLayerOrder imageNames images layers globalOrder
  = Some root →
  ∀ seq,
    imagesAt seq root
    = filter (λ n, AbsoluteLayerSequence ResolveLayerOrder n images layers
                                         globalOrder = Some seq)
             imageNames.
Proof.
  intros Hbuild seq. unfold buildTrie in Hbuild.
  rewrite (buildTrie_from _ _ _ Hbuild seq). by rewrite imagesAt_new.
Qed.

Lemma buildTrie_inTrie imageNames root x :
  buildTrie ResolveLayerOrder imageNames images layers globalOrder
  = Some root →
  inTrie root x → x ∈ imageNames.
Proof.
  intros Hbuild [seq Hx]. unfold buildTrie in Hbuild.
  rewrite (buildTrie_from _ _ _ Hbuild seq), imagesAt_new in Hx.
  simpl in Hx. by apply list_elem_of_filter in Hx as [_ ?].
Qed.
End BuildTrie.

(** ** What the walk changes *)

Section WalkSteps.
Variable LayersProvidedByImage :
  string → gmap string ResolvedImage.t → gmap string Layer.t →
  gmap string bool * option error.
Variable origImages : gmap string ResolvedImage.t.
Variable layers : gmap string Layer.t.
Variable cfg : Config.
Variable tag : string.
Variable globalOrder : list string.

(** [Inv] is kept by every change the walk can make: rebasing one of the
    images marked by [touch], and creating an intermediate under a name
    that is not an image of the input. *)
Variable Inv : gmap string ResolvedImage.t → Prop.
Variable touch : string → Prop.
Hypothesis Inv_update :
  ∀ result imgName parentName,
    touch imgName → Inv result →
    Inv (updateImageBase imgName parentName result).
Hypothesis Inv_create :
  ∀ name parentName pathLayers result result',
    origImages !! name = None → Inv result →
    createIntermediate LayersProvidedByImage name parentName pathLayers
      result origImages cfg tag layers globalOrder = Some result' →
    Inv result'.

Lemma Inv_updates imgs parentName :
  ∀ result,
    (∀ x, x ∈ imgs → touch x) → Inv result →
    Inv (foldl (λ result imgName, updateImageBase imgName parentName result)
               result imgs).
Proof.
  induction imgs as [|imgName imgs IH]; intros result Htouch Hinv; simpl;
    [done|].
  apply IH.
  - intros x Hx. apply Htouch. by right.
  - apply Inv_update; [|done]. apply Htouch. by left.
Qed.

Lemma walkEdge_steps recurse node parentName childLayerName
    result result' err :
  (∀ current name r1 r2 e,
     (∀ x, inTrie current x → touch x) → Inv r1 →
     recurse current name r1 = Some (r2, e) → Inv r2 ∧ e = None) →
  (∀ x, inTrie node x → touch x) → Inv result →
  walkEdge LayersProvidedByImage recurse node parentName origImages layers
           cfg tag globalOrder childLayerName result = Some (result', err) →
  Inv result' ∧ err = None.
Proof.
  intros Hrec Htouch Hinv. unfold walkEdge.
  destruct (trieNode.lookup childLayerName (trieNode.children node))
    as [child|] eqn:Hchild; [|done]. simpl.
  assert (Hcur : ∀ x, inTrie (followChain child [childLayerName]).2 x →
                      touch x).
  { intros x Hx. apply Htouch. eapply inTrie_child; [done|].
    by eapply inTrie_followChain. }
  destruct (followChain child [childLayerName]) as [pathLayers current].
  simpl in Hcur.
  assert (Himgs : ∀ x, x ∈ trieNode.images current → touch x).
  { intros x Hx. by apply Hcur, inTrie_images. }
  destruct (bool_decide _ || _).
  - destruct (pickIntermediateName current pathLayers result origImages)
      as [name|] eqn:Hpick; [|done]. simpl.
    destruct (trieNode.images current) as [|img0 [|img1 imgs]] eqn:Hlist.
    + destruct (pickIntermediateName_fresh origImages current pathLayers
                  result name ltac:(by rewrite Hlist) Hpick) as [Hfresh _].
      destruct (createIntermediate _ _ _ _ _ _ _ _ _ _) as [r1|] eqn:Hcreate;
        [|done]. simpl.
      intros Hrun. eapply Hrec; [done| |done]. by eapply Inv_create.
    + unfold isExistingImageReusable. case_bool_decide as Hreuse; simpl.
      * intros Hrun. unfold assignLayersForIntermediate in Hrun.
        eapply Hrec; [done| |done]. apply Inv_update; [|done].
        apply Himgs. by left.
      * assert (Hfresh : origImages !! name = None).
        { unfold pickIntermediateName in Hpick. rewrite Hlist in Hpick.
          simplify_eq. by apply eq_None_not_Some. }
        destruct (createIntermediate _ _ _ _ _ _ _ _ _ _) as [r1|] eqn:Hcreate;
          [|done]. simpl.
        intros Hrun. eapply Hrec; [done| |done]. apply Inv_update.
        -- apply Himgs. by left.
        -- by eapply Inv_create.
    + destruct (pickIntermediateName_fresh origImages current pathLayers
                  result name ltac:(rewrite Hlist; simpl; lia) Hpick)
        as [Hfresh _].
      destruct (createIntermediate _ _ _ _ _ _ _ _ _ _) as [r1|] eqn:Hcreate;
        [|done]. simpl.
      intros Hrun. eapply Hrec; [done| |done].
      apply (Inv_updates (img0 :: img1 :: imgs)); [done|].
      by eapply Inv_create.
  - case_bool_decide.
    + intros ?. simplify_eq. split; [|done]. by apply Inv_updates.
    + intros ?. by simplify_eq.
Qed.

Lemma walkTrie_steps fuel :
  ∀ node parentName result result' err,
    (∀ x, inTrie node x → touch x) → Inv result →
    walkTrie LayersProvidedByImage fuel node parentName result origImages
             layers cfg tag globalOrder = Some (result', err) →
    Inv result' ∧ err = None.
Proof.
  induction fuel as [|fuel IH];
    intros node parentName result result' err Htouch Hinv Hwalk; [done|].
  simpl in Hwalk.
  eapply (forEach_invariant _ Inv); [|exact Hinv|exact Hwalk].
  intros key r r' e _ Hr Hedge.
  eapply walkEdge_steps; [|exact Htouch|exact Hr|exact Hedge].
  intros current name r1 r2 e' Hcur Hr1 Hrec.
  eapply IH; [exact Hcur|exact Hr1|exact Hrec].
Qed.
End WalkSteps.

(** ** The base groups *)

Section Groups.
Variable images : gmap string ResolvedImage.t.

(** The groups after the images [visited]: every group holds, once each,
    the visited images with its key as external base. *)
Definition groupsOf (visited : list string)
    (groups : gmap string (list string)) : Prop :=
  (∀ key names, groups !! key = Some names →
     names ≠ [] ∧ NoDup names ∧
     ∀ n, n ∈ names
          ↔ n ∈ visited ∧ resolveExternalBase n images = Some key) ∧
  (∀ n, n ∈ visited →
        ∃ key names, resolveExternalBase n images = Some key ∧
                     groups !! key = Some names ∧ n ∈ names).

Lemma groupStep_groupsOf visited groups n img groups' :
  n ∉ visited → groupsOf visited groups →
  groupStep images groups (n, img) = Some groups' →
  groupsOf (visited ++ [n]) groups'.
Proof.
  intros Hfresh [Hgroups Hall]. unfold groupStep. simpl.
  destruct (resolveExternalBase n images) as [ext|] eqn:Hext; [|done].
  simpl. intros ?. simplify_eq. split.
  - intros key names. destruct (decide (ext = key)) as [->|Hne].
    + rewrite lookup_insert_eq. intros ?. simplify_eq.
      destruct (groups !! key) as [old|] eqn:Hold; simpl.
      * destruct (Hgroups key old Hold) as (_ & Hnd & Hin).
        split_and!.
        -- by destruct old.
        -- apply NoDup_app. split_and!; [done| |apply NoDup_singleton].
           intros x Hx ->%list_elem_of_singleton.
           apply Hin in Hx as [? _]. done.
        -- intros x. rewrite !elem_of_app, !list_elem_of_singleton, Hin.
           split; [|naive_solver].
           intros [[? ?]| ->]; [by split; [left|]|by split; [right|]].
      * split_and!; [done|apply NoDup_singleton|].
        intros x. rewrite elem_of_app, !list_elem_of_singleton. split.
        -- intros ->. split; [by right|done].
        -- intros [[Hx| ->] Hbase]; [|done].
           destruct (Hall x Hx) as (key' & names & ? & ? & ?). congruence.
    + rewrite lookup_insert_ne by done. intros Hkey.
      destruct (Hgroups key names Hkey) as (? & ? & Hin).
      split_and!; [done..|].
      intros x. rewrite Hin, elem_of_app, list_elem_of_singleton.
      split; [naive_solver|]. intros [[?| ->] ?]; [done|congruence].
  - intros x [Hx| ->%list_elem_of_singleton]%elem_of_app.
    + destruct (Hall x Hx) as (key & names & Hbase & Hkey & Hin).
      exists key. destruct (decide (ext = key)) as [->|Hne].
      * eexists. rewrite lookup_insert_eq. split_and!; [done..|].
        rewrite Hkey. simpl. apply elem_of_app. by left.
      * exists names. by rewrite lookup_insert_ne.
    + exists ext. eexists. rewrite lookup_insert_eq. split_and!; [done..|].
      apply elem_of_app. right. by apply list_elem_of_singleton.
Qed.

Lemma foldOpt_groupStep_groupsOf todo :
  ∀ visited groups groups',
    NoDup (visited ++ todo.*1) → groupsOf visited groups →
    foldOpt (groupStep images) groups todo = Some groups' →
    groupsOf (visited ++ todo.*1) groups'.
Proof.
  induction todo as [|[n img] todo IH]; intros visited groups groups' Hnd Hg
    Hrun; simpl in *.
  - simplify_eq. by rewrite app_nil_r.
  - destruct (groupStep images groups (n, img)) as [g1|] eqn:Hstep; [|done].
    rewrite cons_middle, app_assoc. apply (IH _ g1); [|..|done].
    + by rewrite <- app_assoc.
    + eapply groupStep_groupsOf; [|done..].
      apply NoDup_app in Hnd as (_ & Hdisj & _). intros Hin.
      apply (Hdisj n Hin). by left.
Qed.
End Groups.

Section GroupsOfImages.
Variable range : ∀ V : Type, gmap string V → list (string * V).
Hypothesis range_Permutation :
  ∀ (V : Type) (m : gmap string V), range V m ≡ₚ map_to_list m.
Variable images : gmap string ResolvedImage.t.

Lemma range_keys n : n ∈ (range _ images).*1 ↔ is_Some (images !! n).
Proof.
  rewrite list_elem_of_fmap. split.
  - intros ([k img] & -> & Hin). simpl.
    apply (range_elem_of range range_Permutation) in Hin. eauto.
  - intros [img Hn]. exists (n, img). split; [done|].
    by apply (range_elem_of range range_Permutation).
Qed.

Lemma buildBaseGroups_groupsOf groups :
  buildBaseGroups range images = Some groups →
  groupsOf images (range _ images).*1 groups.
Proof.
  rewrite buildBaseGroups_unfold. intros Hrun.
  apply (foldOpt_groupStep_groupsOf images _ [] ∅ groups); [| |done].
  - apply (range_NoDup_keys range range_Permutation).
  - split; [by intros key names; rewrite lookup_empty|].
    by intros n ?%elem_of_nil.
Qed.

(** X14.  The first loop of ComputeIntermediates sorts the images into
    groups by ultimate external base: a group is never empty, lists no
    image twice, and holds exactly the images of the map whose chain of
    bases ends in its key; every image is in the group of its external
    base. *)
Theorem buildBaseGroups_partition groups :
  buildBaseGroups range images = Some groups →
  (∀ key names, groups !! key = Some names →
     names ≠ [] ∧ NoDup names ∧
     ∀ n, n ∈ names
          ↔ is_Some (images !! n) ∧
            resolveExternalBase n images = Some key) ∧
  (∀ n, is_Some (images !! n) →
        ∃ key names, resolveExternalBase n images = Some key ∧
                     groups !! key = Some names ∧ n ∈ names).
Proof.
  intros [Hgroups Hall]%buildBaseGroups_groupsOf. split.
  - intros key names Hkey. destruct (Hgroups key names Hkey) as (? & ? & Hin).
    split_and!; [done..|]. intros n. by rewrite Hin, range_keys.
  - intros n Hn. apply Hall. by apply range_keys.
Qed.
End GroupsOfImages.

(** ** What ComputeIntermediates changes *)

Section ComputeSteps.
Variable range : ∀ V : Type, gmap string V → list (string * V).
Hypothesis range_Permutation :
  ∀ (V : Type) (m : gmap string V), range V m ≡ₚ map_to_list m.
Variable ResolveLayerOrder :
  list string → gmap string Layer.t → option (gmap string bool) →
  list string * option error.
Variable LayersProvidedByImage :
  string → gmap string ResolvedImage.t → gmap string Layer.t →
  gmap string bool * option error.
Variable images : gmap string ResolvedImage.t.
Variable layers : gmap string Layer.t.
Variable cfg : Config.
Variable tag : string.

Section Steps.
Variable Inv : gmap string ResolvedImage.t → Prop.
Variable touch : string → Prop.
Hypothesis Inv_update :
  ∀ result imgName parentName,
    touch imgName → Inv result →
    Inv (updateImageBase imgName parentName result).
Hypothesis Inv_create :
  ∀ name parentName pathLayers globalOrder result result',
    images !! name = None → Inv result →
    createIntermediate LayersProvidedByImage name parentName pathLayers
      result images cfg tag layers globalOrder = Some result' →
    Inv result'.

Lemma processGroup_steps globalOrder imageNames result result' err :
  ((2 ≤ length imageNames)%nat → ∀ n, n ∈ imageNames → touch n) →
  Inv result →
  processGroup ResolveLayerOrder LayersProvidedByImage images layers cfg tag
               globalOrder imageNames result = Some (result', err) →
  Inv result' ∧ err = None.
Proof.
  intros Htouch Hinv. unfold processGroup.
  case_bool_decide as Hlen; [by intros; simplify_eq|].
  assert (Hlen' : (2 ≤ length imageNames)%nat).
  { unfold sortStrings in Hlen. rewrite merge_sort_Permutation in Hlen. lia. }
  destruct (buildTrie _ _ _ _ _) as [root|] eqn:Hroot; [|done].
  cbn -[walkTrie resolveExternalBase].
  destruct (findRootImage _ _) as [rootImageName|]; [|done].
  cbn -[walkTrie resolveExternalBase].
  destruct (if decide (rootImageName = "") then _ else _) as [startParent|];
    [|done].
  cbn -[walkTrie]. intros Hwalk.
  eapply (walkTrie_steps LayersProvidedByImage images layers cfg tag
            globalOrder Inv touch); [done| | |done|exact Hwalk].
  - intros; by eapply Inv_create.
  - intros x Hx. apply Htouch; [done|].
    apply sortStrings_elem_of. by eapply buildTrie_inTrie.
Qed.

(** ComputeIntermediates fails only with the error of GlobalLayerOrder;
    otherwise it keeps [Inv]. *)
Lemma ComputeIntermediates_steps result err :
  (∀ groups key names n,
     buildBaseGroups range images = Some groups →
     groups !! key = Some names → (2 ≤ length names)%nat → n ∈ names →
     touch n) →
  Inv images →
  ComputeIntermediates range ResolveLayerOrder LayersProvidedByImage images
                       layers cfg tag = Some (result, err) →
  (err = None ∧ Inv result) ∨
  (result = ∅ ∧
   ∃ order e,
     GlobalLayerOrder range ResolveLayerOrder images layers
     = Some (order, Some e) ∧
     err = Some (ErrComputingGlobalOrder e)).
Proof.
  intros Htouch Hinv. unfold ComputeIntermediates.
  destruct (buildBaseGroups range images) as [groups|] eqn:Hgroups; [|done].
  simpl.
  destruct (GlobalLayerOrder _ _ _ _) as [[order [e|]]|]; [| |done].
  { simpl. intros ?. simplify_eq. right. split; [done|]. by exists order, e. }
  simpl. rewrite (copyImages_id range range_Permutation).
  destruct (forEach _ _ _) as [[r e]|] eqn:Hrun; [|done].
  apply (forEach_invariant _ Inv) in Hrun as [Hr ->]; [| |done].
  - simpl. intros ?. simplify_eq. by left.
  - intros [key names] r1 r2 e1 Hin Hr1 Hstep.
    apply (range_elem_of range range_Permutation) in Hin.
    eapply processGroup_steps; [|done..].
    intros Hlen n Hn. by eapply Htouch.
Qed.
End Steps.

(** X15.  ComputeIntermediates reports no error of its own: when it
    returns an error, this is the error of GlobalLayerOrder, wrapped, and
    the map returned is nil; and it does so whenever GlobalLayerOrder
    fails (the grouping of the images by external base comes first). *)
Theorem ComputeIntermediates_error :
  (∀ result err,
     ComputeIntermediates range ResolveLayerOrder LayersProvidedByImage
                          images layers cfg tag = Some (result, Some err) →
     result = ∅ ∧
     ∃ order e,
       GlobalLayerOrder range ResolveLayerOrder images layers
       = Some (order, Some e) ∧
       err = ErrComputingGlobalOrder e) ∧
  (∀ order e,
     GlobalLayerOrder range ResolveLayerOrder images layers
     = Some (order, Some e) →
     is_Some (buildBaseGroups range images) →
     ComputeIntermediates range ResolveLayerOrder LayersProvidedByImage
                          images layers cfg tag
     = Some (∅, Some (ErrComputingGlobalOrder e))).
Proof.
  split.
  - intros result err Hrun.
    apply (ComputeIntermediates_steps (λ _, True) (λ _, True)) in Hrun
      as [[? _]|(-> & order & e & ? & ?)]; [done| |done..].
    split; [done|]. exists order, e. split; [done|]. congruence.
  - intros order e Hglobal [groups Hgroups]. unfold ComputeIntermediates.
    by rewrite Hgroups, Hglobal.
Qed.

(** X16.  Every image that ComputeIntermediates adds is filed under its
    own name, is marked auto, carries the tag given and the registry and
    merge setting of the defaults, has a package family and a user that
    are not empty, at least one platform, the home directory of its user,
    the full tag made of registry, name and tag, and is no bootc image. *)
Theorem ComputeIntermediates_auto_images result k img :
  ComputeIntermediates range ResolveLayerOrder LayersProvidedByImage images
                       layers cfg tag = Some (result, None) →
  result !! k = Some img → images !! k = None →
  ResolvedImage.Name img = k ∧
  ResolvedImage.Auto img = true ∧
  ResolvedImage.Tag img = tag ∧
  ResolvedImage.Registry img = ImageConfig.Registry (Defaults cfg) ∧
  ResolvedImage.Merge img = ImageConfig.Merge (Defaults cfg) ∧
  ResolvedImage.Pkg img ≠ "" ∧
  ResolvedImage.User img ≠ "" ∧
  ResolvedImage.Platforms img ≠ [] ∧
  ResolvedImage.Home img = "/home/" +:+ ResolvedImage.User img ∧
  ResolvedImage.FullTag img
  = (if decide (ResolvedImage.Registry img = "") then k +:+ ":" +:+ tag
     else ResolvedImage.Registry img +:+ "/" +:+ k +:+ ":" +:+ tag) ∧
  ResolvedImage.Bootc img = false.
Proof.
  intros Hrun Hk Hnew.
  pose (shape := λ (k : string) (img : ResolvedImage.t),
    ResolvedImage.Name img = k ∧
    ResolvedImage.Auto img = true ∧
    ResolvedImage.Tag img = tag ∧
    ResolvedImage.Registry img = ImageConfig.Registry (Defaults cfg) ∧
    ResolvedImage.Merge img = ImageConfig.Merge (Defaults cfg) ∧
    ResolvedImage.Pkg img ≠ "" ∧
    ResolvedImage.User img ≠ "" ∧
    ResolvedImage.Platforms img ≠ [] ∧
    ResolvedImage.Home img = "/home/" +:+ ResolvedImage.User img ∧
    ResolvedImage.FullTag img
    = (if decide (ResolvedImage.Registry img = "") then k +:+ ":" +:+ tag
       else ResolvedImage.Registry img +:+ "/" +:+ k +:+ ":" +:+ tag) ∧
    ResolvedImage.Bootc img = false).
  change (shape k img).
  apply (ComputeIntermediates_steps
           (λ r, ∀ k img, r !! k = Some img → images !! k = None →
                          shape k img)
           (λ _, True)) in Hrun as [[_ Hinv]|(_ & order & e & _ & ?)];
    [by eapply Hinv|done| | |done|].
  - intros r imgName parentName _ Hr k' img'.
    rewrite updateImageBase_lookup. case_decide as Heq; [|apply Hr].
    destruct (r !! k') as [img0|] eqn:Hk'; [|done]. simpl.
    intros ? Hnone. simplify_eq. by apply (Hr imgName img0).
  - intros name parentName pathLayers globalOrder r r' Hname Hr Hcreate
      k' img'.
    unfold createIntermediate in Hcreate.
    destruct (computeOwnLayers _ _ _ _ _ _) as [own|]; [|done].
    simpl in Hcreate. simplify_eq.
    destruct (decide (name = k')) as [->|Hne].
    + rewrite lookup_insert_eq. intros ? _. simplify_eq. unfold shape. simpl.
      split_and!; try done.
      * by case_decide.
      * by case_decide.
      * unfold resolvePlatforms.
        by destruct (ImageConfig.Platforms (Defaults cfg)).
    + rewrite lookup_insert_ne by done. apply Hr.
  - intros k' img' Hk' Hnone. congruence.
Qed.

(** X17.  An image that shares its ultimate external base with no other
    image comes out of ComputeIntermediates as it went in. *)
Theorem ComputeIntermediates_alone result k img :
  ComputeIntermediates range ResolveLayerOrder LayersProvidedByImage images
                       layers cfg tag = Some (result, None) →
  images !! k = Some img →
  (∀ k', is_Some (images !! k') →
         resolveExternalBase k' images = resolveExternalBase k images →
         k' = k) →
  result !! k = Some img.
Proof.
  intros Hrun Hk Halone.
  apply (ComputeIntermediates_steps (λ r, r !! k = Some img) (λ n, n ≠ k))
    in Hrun as [[_ ?]|(_ & order & e & _ & ?)]; [done|done| | | |done].
  - intros r imgName parentName Hne Hr.
    rewrite updateImageBase_lookup. by rewrite decide_False.
  - intros name parentName pathLayers globalOrder r r' Hname Hr Hcreate.
    apply createIntermediate_spec in Hcreate as (img' & -> & _).
    rewrite lookup_insert_ne; [done|]. congruence.
  - intros groups key names n Hgroups Hkey Hlen Hn ->.
    destruct (buildBaseGroups_groupsOf range range_Permutation images groups
                Hgroups) as [Hpart _].
    destruct (Hpart key names Hkey) as (_ & Hnd & Hin).
    apply Hin in Hn as [_ Hbase].
    assert (Hall : ∀ x, x ∈ names → x = k).
    { intros x [Hx ?]%Hin. apply Halone; [|congruence].
      by apply (range_keys range range_Permutation images). }
    destruct names as [|x [|y names]]; simpl in Hlen; [lia..|].
    assert (x = k) as -> by (apply Hall; by left).
    assert (y = k) as -> by (apply Hall; right; by left).
    apply NoDup_cons in Hnd as [Hnd _]. apply Hnd. by left.
Qed.

(** X18.  When no two images have the same ultimate external base,
    ComputeIntermediates returns the images as they are: nothing is
    rebased and no image is added. *)
Theorem ComputeIntermediates_no_shared_base result :
  ComputeIntermediates range ResolveLayerOrder LayersProvidedByImage images
                       layers cfg tag = Some (result, None) →
  (∀ k1 k2, is_Some (images !! k1) → is_Some (images !! k2) →
            resolveExternalBase k1 images = resolveExternalBase k2 images →
            k1 = k2) →
  result = images.
Proof.
  intros Hrun Hinj. unfold ComputeIntermediates in Hrun.
  destruct (buildBaseGroups range images) as [groups|] eqn:Hgroups; [|done].
  simpl in Hrun.
  destruct (GlobalLayerOrder _ _ _ _) as [[order [e|]]|]; [done| |done].
  simpl in Hrun. rewrite (copyImages_id range range_Permutation) in Hrun.
  destruct (forEach _ _ _) as [[r e]|] eqn:Heach; [|done].
  apply (forEach_invariant _ (λ r, r = images)) in Heach as [-> ->];
    [by simplify_eq/=| |done].
  intros [key names] r1 r2 e1 Hin -> Hstep.
  apply (range_elem_of range range_Permutation) in Hin.
  destruct (buildBaseGroups_groupsOf range range_Permutation images groups
              Hgroups) as [Hpart _].
  destruct (Hpart key names Hin) as (_ & Hnd & Hmem).
  unfold processGroup in Hstep. rewrite bool_decide_true in Hstep.
  { by simplify_eq. }
  unfold sortStrings. rewrite merge_sort_Permutation.
  destruct names as [|x [|y names]]; simpl; [lia..|]. exfalso.
  assert (x = y) as ->.
  { destruct (proj1 (Hmem x)) as [? ?]; [by left|].
    destruct (proj1 (Hmem y)) as [? ?]; [right; by left|].
    apply Hinj; [by apply (range_keys range range_Permutation images)..|].
    congruence. }
  apply NoDup_cons in Hnd as [Hnd _]. apply Hnd. by left.
Qed.

End ComputeSteps.

Lemma size_le_1_keys {V} (m : gmap string V) :
  (∀ k1 k2, is_Some (m !! k1) → is_Some (m !! k2) → k1 = k2) →
  (size m ≤ 1)%nat.
Proof.
  intros Hkeys. rewrite <- length_map_to_list.
  pose proof (NoDup_fst_map_to_list m) as Hnd.
  assert (Hin : ∀ k v, (k, v) ∈ map_to_list m → is_Some (m !! k)).
  { intros k v ?%elem_of_map_to_list. eauto. }
  destruct (map_to_list m) as [|[k1 v1] [|[k2 v2] l]]; simpl; [lia..|].
  exfalso. assert (k1 = k2) as ->.
  { apply Hkeys; [eapply Hin; by left|eapply Hin; right; by left]. }
  simpl in Hnd. apply NoDup_cons in Hnd as [Hnd _]. apply Hnd. by left.
Qed.

Section OneBase.
Variable range1 range2 : ∀ V : Type, gmap string V → list (string * V).
Hypothesis range1_Permutation :
  ∀ (V : Type) (m : gmap string V), range1 V m ≡ₚ map_to_list m.
Hypothesis range2_Permutation :
  ∀ (V : Type) (m : gmap string V), range2 V m ≡ₚ map_to_list m.
Variable ResolveLayerOrder :
  list string → gmap string Layer.t → option (gmap string bool) →
  list string * option error.
Variable LayersProvidedByImage :
  string → gmap string ResolvedImage.t → gmap string Layer.t →
  gmap string bool * option error.

(** X20.  When all the images have the same ultimate external base, the
    map ComputeIntermediates returns does not depend on the order in which
    Go visits its maps. *)
Theorem ComputeIntermediates_one_base images layers cfg tag result :
  (∀ k1 k2, is_Some (images !! k1) → is_Some (images !! k2) →
            resolveExternalBase k1 images = resolveExternalBase k2 images) →
  ComputeIntermediates range1 ResolveLayerOrder LayersProvidedByImage images
                       layers cfg tag = Some (result, None) →
  ComputeIntermediates range2 ResolveLayerOrder LayersProvidedByImage images
                       layers cfg tag = Some (result, None).
Proof.
  intros Hbase.
  apply (ComputeIntermediates_range range1 range2 range1_Permutation
           range2_Permutation).
  intros g1 g2 Hg1 Hg2.
  destruct (buildBaseGroups_range range1 range2 range1_Permutation
              range2_Permutation _ _ Hg1) as (g2' & Hg2' & Hequiv).
  assert (g2' = g2) as -> by congruence.
  apply single_group_keys; [done..|].
  apply size_le_1_keys. intros key1 key2 [names1 Hk1] [names2 Hk2].
  destruct (buildBaseGroups_groupsOf range1 range1_Permutation images g1 Hg1)
    as [Hpart _].
  destruct (Hpart key1 names1 Hk1) as (Hne1 & _ & Hin1).
  destruct (Hpart key2 names2 Hk2) as (Hne2 & _ & Hin2).
  destruct names1 as [|n1 names1]; [done|].
  destruct names2 as [|n2 names2]; [done|].
  destruct (proj1 (Hin1 n1)) as [Hn1 Hb1]; [by left|].
  destruct (proj1 (Hin2 n2)) as [Hn2 Hb2]; [by left|].
  apply (range_keys range1 range1_Permutation) in Hn1, Hn2.
  specialize (Hbase n1 n2 Hn1 Hn2). congruence.
Qed.
End OneBase.

(** ** Properties of transfer.go *)

Section TransferProperties.
Import Transfer.
Variable EngineBinary : string → string.
Variable LocalImageExists : string → string → bool.
Variable exec : call → option error.

(** A call of [os/exec]. *)
Definition isExec (c : call) : Prop :=
  match c with
  | StdoutPipeCall _ | StartCall _ | RunCall _ | WaitCall _ => True
  | _ => False
  end.

(** X21.  TransferImage asks for the pipe of save, starts load, runs save
    and waits for load, in this order, and stops at the first of these
    that fails: load is started only with the pipe in hand, save runs only
    once load has started, and load is waited for only when save has
    succeeded (a load that was started is not waited for when save
    fails).  It returns no error exactly when the four calls succeed. *)
Theorem TransferImage_order srcEngine dstEngine imageRef :
  let save : Cmd := (EngineBinary srcEngine, ["save"; imageRef]) in
  let load : Cmd := (EngineBinary dstEngine, ["load"]) in
  let calls := (TransferImage EngineBinary exec srcEngine dstEngine
                              imageRef).1 in
  let err := (TransferImage EngineBinary exec srcEngine dstEngine
                            imageRef).2 in
  (∃ first last,
     calls `prefix_of`
       [StderrCall first; StdoutPipeCall save; StartCall load; RunCall save;
        WaitCall load; StderrCall last]) ∧
  StdoutPipeCall save ∈ calls ∧
  (StartCall load ∈ calls ↔ exec (StdoutPipeCall save) = None) ∧
  (RunCall save ∈ calls
   ↔ exec (StdoutPipeCall save) = None ∧ exec (StartCall load) = None) ∧
  (WaitCall load ∈ calls
   ↔ exec (StdoutPipeCall save) = None ∧ exec (StartCall load) = None ∧
     exec (RunCall save) = None) ∧
  (err = None
   ↔ exec (StdoutPipeCall save) = None ∧ exec (StartCall load) = None ∧
     exec (RunCall save) = None ∧ exec (WaitCall load) = None).
Proof.
  intros save load calls err. unfold calls, err, TransferImage, perform.
  fold save load. clear calls err.
  split.
  { eexists _, _. simpl.
    destruct (exec (StdoutPipeCall save)); [by eexists|].
    destruct (exec (StartCall load)); [by eexists|].
    destruct (exec (RunCall save)); [by eexists|].
    destruct (exec (WaitCall load)); by eexists. }
  simpl.
  destruct (exec (StdoutPipeCall save)) eqn:Hpipe; simpl.
  { rewrite !elem_of_cons, !elem_of_nil. naive_solver. }
  destruct (exec (StartCall load)) eqn:Hstart; simpl.
  { rewrite !elem_of_cons, !elem_of_nil. naive_solver. }
  destruct (exec (RunCall save)) eqn:Hrun; simpl.
  { rewrite !elem_of_cons, !elem_of_nil. naive_solver. }
  destruct (exec (WaitCall load)) eqn:Hwait; simpl.
  { rewrite !elem_of_cons, !elem_of_nil. naive_solver. }
  rewrite !elem_of_cons, !elem_of_nil. naive_solver.
Qed.

End TransferProperties.

(** ** Under which account the steps of a layer run *)

Section LayerSteps.
Import Generate.

Inductive account : Type := AsRoot | AsUser.

(** The commands that need root, and those meant for the user. *)
Definition rootSteps : list string :=
  ["    dnf install";
   "    apt-get update && apt-get install -y --no-install-recommends";
   "    cd /ctx && task -t root.yml install" +:+ nl].
Definition userSteps : list string :=
  ["    cd /home/user && pixi add --manifest-path /ctx/pixi.toml" +:+ nl;
   "    npm install -g /ctx" +:+ nl;
   "    cargo install --path /ctx" +:+ nl;
   "    cd /ctx && task -t user.yml install" +:+ nl].

(** Read the strings written, following the USER directives from the
    account [who]: the account in force at the end, or [None] when a
    command that needs root stands under the user, or a command meant for
    the user under root. *)
Fixpoint runAs (who : account) (written : list string) : option account :=
  match written with
  | [] => Some who
  | s :: written =>
      if decide (s = "USER user" +:+ nl) then runAs AsUser written
      else if decide (s = "USER root" +:+ nl) then runAs AsRoot written
      else if decide (s ∈ rootSteps) then
        match who with AsRoot => runAs who written | AsUser => None end
      else if decide (s ∈ userSteps) then
        match who with AsUser => runAs who written | AsRoot => None end
      else runAs who written
  end.

(** A string that is neither a directive nor a command. *)
Definition neutral (s : string) : Prop :=
  s ≠ ("USER user" +:+ nl) ∧ s ≠ ("USER root" +:+ nl) ∧
  (s ∉ rootSteps) ∧ (s ∉ userSteps).

Lemma runAs_app who a c :
  runAs who (a ++ c) = (runAs who a ≫= λ who', runAs who' c).
Proof.
  revert who. induction a as [|s a IH]; intros who; simpl; [done|].
  repeat case_decide; try apply IH; by destruct who.
Qed.

Lemma runAs_cons who s written :
  runAs who (s :: written)
  = if decide (s = "USER user" +:+ nl) then runAs AsUser written
    else if decide (s = "USER root" +:+ nl) then runAs AsRoot written
    else if decide (s ∈ rootSteps) then
      match who with AsRoot => runAs who written | AsUser => None end
    else if decide (s ∈ userSteps) then
      match who with AsUser => runAs who written | AsRoot => None end
    else runAs who written.
Proof. done. Qed.

Lemma steps_apart s :
  (s ∈ rootSteps → s ≠ ("USER user" +:+ nl) ∧ s ≠ ("USER root" +:+ nl)) ∧
  (s ∈ userSteps → s ≠ ("USER user" +:+ nl) ∧ s ≠ ("USER root" +:+ nl) ∧
                   (s ∉ rootSteps)).
Proof.
  unfold rootSteps, userSteps. simpl.
  rewrite ?elem_of_cons, ?elem_of_nil. split.
  - intros H. repeat (destruct H as [H|H]); try done; subst s;
      split; discriminate.
  - intros H. repeat (destruct H as [H|H]); try done; subst s;
      (repeat split; [discriminate..|]); intros H;
      repeat (destruct H as [H|H]); discriminate || done.
Qed.

Lemma runAs_cons_neutral who s l :
  neutral s → runAs who (s :: l) = runAs who l.
Proof. intros (? & ? & ? & ?). rewrite runAs_cons. by rewrite !decide_False. Qed.

Lemma runAs_neutrals who l rest :
  Forall neutral l → runAs who (l ++ rest) = runAs who rest.
Proof.
  induction 1 as [|s l Hs _ IH]; [done|].
  rewrite <- app_comm_cons. by rewrite runAs_cons_neutral.
Qed.

Lemma runAs_cons_rootStep s l :
  s ∈ rootSteps → runAs AsRoot (s :: l) = runAs AsRoot l.
Proof.
  intros Hs. destruct (proj1 (steps_apart s) Hs) as [? ?].
  rewrite runAs_cons. rewrite !decide_False by done. by rewrite decide_True.
Qed.

Lemma runAs_cons_userStep s l :
  s ∈ userSteps → runAs AsUser (s :: l) = runAs AsUser l.
Proof.
  intros Hs. destruct (proj2 (steps_apart s) Hs) as (? & ? & ?).
  rewrite runAs_cons. rewrite !decide_False by done. by rewrite decide_True.
Qed.

Lemma runAs_cons_USER_user who l :
  runAs who (("USER user" +:+ nl) :: l) = runAs AsUser l.
Proof. rewrite runAs_cons. by rewrite decide_True. Qed.

Lemma runAs_cons_USER_root who l :
  runAs who (("USER root" +:+ nl) :: l) = runAs AsRoot l.
Proof.
  rewrite runAs_cons. rewrite decide_False by discriminate.
  by rewrite decide_True.
Qed.

Lemma foldl_append {A} (g : Builder → A → Builder) (h : A → list string)
    (l : list A) :
  (∀ b x, g b x = b ++ h x) →
  ∀ b, foldl g b l = b ++ mjoin (h <$> l).
Proof.
  intros Hg. induction l as [|x l IH]; intros b; simpl;
    [by rewrite app_nil_r|].
  by rewrite IH, Hg, <- app_assoc.
Qed.

Lemma Forall_mjoin {A} (P : string → Prop) (h : A → list string) l :
  (∀ x, Forall P (h x)) → Forall P (mjoin (h <$> l)).
Proof.
  intros Hh. induction l as [|x l IH]; simpl; [done|].
  apply Forall_app. by split.
Qed.

Ltac neutral_string :=
  unfold neutral, rootSteps, userSteps; simpl;
  rewrite ?elem_of_cons, ?elem_of_nil;
  repeat split; try discriminate;
  let H := fresh in
  intros H; repeat (destruct H as [H|H]); discriminate || done.

Lemma neutral_package pkg : neutral (" \" +:+ nl +:+ "      " +:+ pkg).
Proof. neutral_string. Qed.

Lemma neutral_bindMount layerName : neutral (bindMount layerName).
Proof. unfold bindMount. neutral_string. Qed.

(** The strings written so far run from root to the account [asUser]
    stands for. *)
Definition ranTo (b0 b : Builder) (asUser : bool) : Prop :=
  ∃ written, b = b0 ++ written ∧
             runAs AsRoot written = Some (if asUser then AsUser else AsRoot).

Lemma ranTo_app b0 b asUser block :
  ranTo b0 b asUser →
  runAs (if asUser then AsUser else AsRoot) block
  = Some (if asUser then AsUser else AsRoot) →
  ranTo b0 (b ++ block) asUser.
Proof.
  intros (written & -> & Hrun) Hblock. exists (written ++ block).
  split; [by rewrite app_assoc|]. by rewrite runAs_app, Hrun.
Qed.

Lemma ranTo_dnf b0 b pkgs coprRepos :
  ranTo b0 b false → ranTo b0 (writeDnfInstall b pkgs coprRepos) false.
Proof.
  intros Hb. unfold writeDnfInstall.
  rewrite (foldl_append _ (λ pkg, [" \" +:+ nl +:+ "      " +:+ pkg]))
    by done.
  rewrite (foldl_append _
             (λ repo, match splitSlash repo with
                      | Some (owner, project) =>
                          [" \" +:+ nl +:+ "      --enable-repo=" +:+ dq +:+
                           "copr:copr.fedorainfracloud.org:" +:+ owner +:+
                           ":" +:+ project +:+ dq]
                      | None => []
                      end)).
  2:{ intros b1 repo. destruct (splitSlash repo) as [[owner project]|];
        [done|by rewrite app_nil_r]. }
  unfold WriteString.
  rewrite <- !app_assoc. apply ranTo_app; [done|].
  cbn [app]. rewrite runAs_cons_neutral by neutral_string.
  rewrite runAs_cons_rootStep by (unfold rootSteps; set_solver).
  rewrite runAs_neutrals.
  - rewrite runAs_cons_neutral by neutral_string.
    rewrite runAs_neutrals; [by rewrite runAs_cons_neutral by neutral_string|].
    apply Forall_mjoin. intros pkg. apply Forall_singleton, neutral_package.
  - apply Forall_mjoin. intros repo.
    destruct (splitSlash repo) as [[owner project]|]; [|done].
    apply Forall_singleton. neutral_string.
Qed.

Lemma ranTo_apt b0 b pkgs :
  ranTo b0 b false → ranTo b0 (writeAptInstall b pkgs) false.
Proof.
  intros Hb. unfold writeAptInstall.
  rewrite (foldl_append _ (λ pkg, [" \" +:+ nl +:+ "      " +:+ pkg]))
    by done.
  unfold WriteString.
  rewrite <- !app_assoc. apply ranTo_app; [done|].
  cbn [app]. rewrite !runAs_cons_neutral by neutral_string.
  rewrite runAs_cons_rootStep by (unfold rootSteps; set_solver).
  rewrite runAs_neutrals; [by rewrite runAs_cons_neutral by neutral_string|].
  apply Forall_mjoin. intros pkg. apply Forall_singleton, neutral_package.
Qed.

Lemma ranTo_rootYml b0 b layerName pkg :
  ranTo b0 b false → ranTo b0 (writeRootYml b layerName pkg) false.
Proof.
  intros Hb. unfold writeRootYml, WriteString.
  case_decide; rewrite <- !app_assoc; (apply ranTo_app; [done|]); cbn [app];
    rewrite (runAs_cons_neutral _ (bindMount _)) by apply neutral_bindMount;
    rewrite !runAs_cons_neutral by neutral_string;
    by rewrite runAs_cons_rootStep by (unfold rootSteps; set_solver).
Qed.

(** A step of the user: the switch, when it has not been made yet, and
    the command. *)
Lemma ranTo_userStep b0 b asUser layerName cache command :
  neutral cache → command ∈ userSteps →
  ranTo b0 b asUser →
  ranTo b0
    (WriteString
       (WriteString (WriteString (switchToUser (b, asUser)).1
                                 (bindMount layerName)) cache) command)
    true ∧
  (switchToUser (b, asUser)).2 = true.
Proof.
  intros Hcache Hcommand Hb. unfold WriteString.
  assert (Hswitch : ranTo b0 (switchToUser (b, asUser)).1 true ∧
                    (switchToUser (b, asUser)).2 = true).
  { destruct asUser; simpl; [done|]. split; [|done].
    destruct Hb as (written & -> & Hrun).
    exists (written ++ ["USER user" +:+ nl]). split; [by rewrite app_assoc|].
    by rewrite runAs_app, Hrun. }
  destruct Hswitch as [Hswitch ->]. split; [|done].
  rewrite <- !app_assoc. apply ranTo_app; [done|]. cbn [app].
  rewrite (runAs_cons_neutral _ (bindMount _)) by apply neutral_bindMount.
  rewrite runAs_cons_neutral by done.
  by rewrite runAs_cons_userStep.
Qed.

Lemma ranTo_switch b0 b asUser bs us layerName :
  ranTo b0 b asUser → switchToUser (b, asUser) = (bs, us) →
  us = true ∧
  ranTo b0 (writePixiToml bs layerName) true ∧
  ranTo b0 (writePackageJson bs layerName) true ∧
  ranTo b0 (writeCargoToml bs layerName) true ∧
  ranTo b0 (writeUserYml bs layerName) true.
Proof.
  intros Hb Hs.
  unfold writePixiToml, writePackageJson, writeCargoToml, writeUserYml.
  split_and!.
  - destruct asUser; simpl in Hs; by simplify_eq.
  - edestruct (ranTo_userStep b0 b asUser layerName) as [H _]; [| |done|];
      [| |rewrite Hs in H; exact H];
      [neutral_string|unfold userSteps; set_solver].
  - edestruct (ranTo_userStep b0 b asUser layerName) as [H _]; [| |done|];
      [| |rewrite Hs in H; exact H];
      [neutral_string|unfold userSteps; set_solver].
  - edestruct (ranTo_userStep b0 b asUser layerName) as [H _]; [| |done|];
      [| |rewrite Hs in H; exact H];
      [neutral_string|unfold userSteps; set_solver].
  - edestruct (ranTo_userStep b0 b asUser layerName) as [H _]; [| |done|];
      [| |rewrite Hs in H; exact H];
      [neutral_string|unfold userSteps; set_solver].
Qed.

(** One of the four steps of the user: when its file is there, the switch
    and the command; the builder written is then abstracted again. *)
Ltac user_stage flag layerName :=
  match goal with
  | H : ranTo _ ?bc ?uc |- _ =>
      destruct flag;
      [ let bs := fresh "bs" in
        let us := fresh "us" in
        let Hs := fresh "Hs" in
        destruct (switchToUser (bc, uc)) as [bs us] eqn:Hs;
        destruct (ranTo_switch _ _ _ _ _ layerName H Hs) as (-> & ? & ? & ? & ?);
        clear H Hs; lazy beta iota;
        match goal with
        | Hn : ranTo _ ?bn true |- context [?bn] =>
            repeat match goal with
                   | Ho : ranTo _ ?bo _ |- _ =>
                       lazymatch bo with bn => fail | _ => clear Ho end
                   end;
            generalize dependent bn; intros
        end
      | lazy beta iota ]
  end.

(** X23.  writeLayerSteps gives no result for a layer that is not in the
    map.  Otherwise it adds to the builder, and what it adds reads as
    follows when it starts under root: the package installation and the
    root.yml task stand under root, the pixi, npm, cargo and user.yml
    steps stand under the user, and the account in force at the end is
    root again. *)
Theorem writeLayerSteps_accounts (Layers : gmap string LayerFiles)
    (b : Builder) (layerName pkg : string) :
  match writeLayerSteps Layers b layerName pkg with
  | Some b' =>
      is_Some (Layers !! layerName) ∧
      ∃ written, b' = b ++ written ∧ runAs AsRoot written = Some AsRoot
  | None => Layers !! layerName = None
  end.
Proof.
  unfold writeLayerSteps.
  destruct (Layers !! layerName) as [layer|]; [|done].
  cbn -[writeDnfInstall writeAptInstall writeRootYml writePixiToml
        writePackageJson writeCargoToml writeUserYml switchToUser
        WriteString].
  match goal with
  | |- context [if HasRootYml layer then writeRootYml ?x _ _ else _] =>
      set (b2 := x)
  end.
  assert (H2 : ranTo b b2 false).
  { assert (H1 : ranTo b (WriteString b ("# Layer: " +:+ layerName +:+ nl))
                       false).
    { exists ["# Layer: " +:+ layerName +:+ nl]. split; [done|].
      by rewrite runAs_cons_neutral by neutral_string. }
    unfold b2. destruct (_ && _).
    - destruct (RpmPackages layer); [done|by apply ranTo_dnf].
    - destruct (_ && _); [|done].
      destruct (DebPackages layer); [done|by apply ranTo_apt]. }
  clearbody b2.
  set (b3 := if HasRootYml layer then writeRootYml b2 layerName pkg else b2).
  assert (H3 : ranTo b b3 false).
  { unfold b3. destruct (HasRootYml layer); [by apply ranTo_rootYml|done]. }
  clearbody b3. clear H2 b2.
  user_stage (HasPixiToml layer) layerName;
    user_stage (HasPackageJson layer) layerName;
    user_stage (HasCargoToml layer) layerName;
    user_stage (HasUserYml layer) layerName.
  all: split; [by eauto|].
  all: match goal with
       | H : ranTo _ ?bc ?uc |- _ => destruct H as (written & -> & Hrun)
       end.
  all: unfold WriteString; rewrite <- ?app_assoc; eexists; split; [done|].
  all: rewrite runAs_app, Hrun; cbn [mbind option_bind app].
  all: rewrite ?runAs_cons_USER_root; by rewrite runAs_cons_neutral
         by neutral_string.
Qed.
End LayerSteps.

(** ** The properties on concrete inputs *)

Lemma keys_enumerate {V} (m : gmap string V) k :
  is_Some (m !! k) → k ∈ (map_to_list m).*1.
Proof.
  intros [v Hk]. apply list_elem_of_fmap. exists (k, v).
  split; [done|]. by apply elem_of_map_to_list.
Qed.

(** Replace the keys of a concrete map by their list. *)
Ltac enumerate_keys H :=
  match type of H with
  | _ ∈ ?keys =>
      let l := eval vm_compute in keys in
      change keys with l in H;
      rewrite ?elem_of_cons, ?elem_of_nil in H
  end.

Lemma LoneImage_result :
  computeWith rangeAscending LoneImage.images plainLayers testConfig "v1"
  = Some (LoneImage.result, None).
Proof. vm_compute. reflexivity. Qed.

Lemma ApartImages_result :
  computeWith rangeAscending ApartImages.images plainLayers testConfig "v1"
  = Some (ApartImages.images, None).
Proof. vm_compute. reflexivity. Qed.

(** An image without own layers is taken as the parent its group starts
    from; when it stands on an image of the group it is itself among the
    images that are put on that parent, and ends as its own base. *)
Lemma SelfBase_result :
  computeWith rangeAscending SelfBase.images plainLayers testConfig "v1"
  = Some (SelfBase.result, None).
Proof. vm_compute. reflexivity. Qed.

Lemma topoSortByPopularity_outcome_witness :
  ∃ order err,
    topoSortByPopularity rangeAscending {["a" := ["b"]]} ∅
    = Some (order, err) ∧
    (err = None
     ↔ closedGraph {["a" := ["b"]]} ∧ ¬ hasCycle {["a" := ["b"]]}) ∧
    (err = None →
     NoDup order ∧
     (∀ c, c ∈ order
           ↔ is_Some (({["a" := ["b"]]} : gmap string (list string)) !! c)) ∧
     ∀ c d j, edge {["a" := ["b"]]} c d → order !! j = Some c →
              ∃ i, (i < j)%nat ∧ order !! i = Some d) ∧
    (err ≠ None → order = [] ∧ err = Some ErrCycleDetected).
Proof.
  exact (topoSortByPopularity_outcome rangeAscending
           rangeAscending_Permutation {["a" := ["b"]]} ∅).
Defined.

Lemma GlobalLayerOrder_members_witness :
  "python" ∈ TieBreaking.order
  ↔ is_Some (TieBreaking.layers !! "python") ∧
    ∃ k img, TieBreaking.images !! k = Some img ∧
             needs LayerGraph.ResolveLayerOrder TieBreaking.images
                   TieBreaking.layers img "python".
Proof.
  exact (GlobalLayerOrder_members rangeAscending rangeAscending_Permutation
           LayerGraph.ResolveLayerOrder TieBreaking.images TieBreaking.layers
           TieBreaking.order TieBreaking_order "python").
Defined.

Lemma GlobalLayerOrder_iteration_order_witness :
  GlobalLayerOrder rangeDescending LayerGraph.ResolveLayerOrder
    TieBreaking.images TieBreaking.layers
  = Some (TieBreaking.order, None).
Proof.
  exact (GlobalLayerOrder_iteration_order rangeAscending rangeDescending
           rangeAscending_Permutation rangeDescending_Permutation
           LayerGraph.ResolveLayerOrder TieBreaking.images TieBreaking.layers
           TieBreaking.order None TieBreaking_order (or_introl eq_refl)).
Defined.

Lemma countPopularity_counts_images_witness :
  ∃ users : list (string * ResolvedImage.t),
    NoDup users ∧
    (∀ k img, (k, img) ∈ users
              ↔ TieBreaking.images !! k = Some img ∧
                needs LayerGraph.ResolveLayerOrder TieBreaking.images
                      TieBreaking.layers img "pixi") ∧
    intAt TieBreaking.popularity "pixi" = Z.of_nat (length users).
Proof.
  exact (countPopularity_counts_images rangeAscending
           rangeAscending_Permutation LayerGraph.ResolveLayerOrder
           TieBreaking.images TieBreaking.layers TieBreaking.popularity
           TieBreaking_popularity "pixi").
Defined.

Lemma UnknownLayer_order :
  GlobalLayerOrder rangeAscending LayerGraph.ResolveLayerOrder
    UnknownLayer.images plainLayers
  = Some ([], Some (ErrResolvingLayers "a" (ErrUnknownLayer "missing"))).
Proof. vm_compute. reflexivity. Qed.

Lemma UnknownLayer_result :
  computeWith rangeAscending UnknownLayer.images plainLayers testConfig "v1"
  = Some (∅, Some (ErrComputingGlobalOrder
                     (ErrResolvingLayers "a" (ErrUnknownLayer "missing")))).
Proof. vm_compute. reflexivity. Qed.

Lemma GlobalLayerOrder_resolve_error_witness :
  (([] : list string) = [] ∧
   ∃ k img resolved,
     UnknownLayer.images !! k = Some img ∧
     ResolvedImage.Name img = "a" ∧
     LayerGraph.ResolveLayerOrder (ResolvedImage.Layers img) plainLayers None
     = (resolved, Some (ErrUnknownLayer "missing"))) ∧
  ∃ name cause,
    Some (ErrResolvingLayers "a" (ErrUnknownLayer "missing"))
    = Some (ErrResolvingLayers name cause).
Proof.
  pose proof (GlobalLayerOrder_resolve_error rangeAscending
                rangeAscending_Permutation LayerGraph.ResolveLayerOrder
                UnknownLayer.images plainLayers) as [Hfrom Hto].
  split.
  - exact (Hfrom [] "a" (ErrUnknownLayer "missing") UnknownLayer_order).
  - exact (Hto "a" (testImage "a" "ext:1" true ["missing"]) []
             (ErrUnknownLayer "missing") [] _ eq_refl eq_refl
             UnknownLayer_order).
Defined.

Lemma InternalBase_app_layers :
  collectAllImageLayers LayerGraph.ResolveLayerOrder "app"
    InternalBase.images TieBreaking.layers
  = Some ["pixi"; "python"; "testapi"].
Proof. vm_compute. reflexivity. Qed.

Lemma collectAllImageLayers_inherits_witness :
  ∃ inherited new,
    collectAllImageLayers LayerGraph.ResolveLayerOrder "base"
      InternalBase.images TieBreaking.layers = Some inherited ∧
    ["pixi"; "python"; "testapi"] = inherited ++ new ∧
    NoDup ["pixi"; "python"; "testapi"] ∧
    match LayerGraph.ResolveLayerOrder ["python"; "testapi"]
            TieBreaking.layers None with
    | (_, Some _) => new = []
    | (resolved, None) =>
        sublist new resolved ∧ ∀ l, l ∈ new ↔ l ∈ resolved ∧ l ∉ inherited
    end.
Proof.
  exact (collectAllImageLayers_inherits LayerGraph.ResolveLayerOrder
           InternalBase.images TieBreaking.layers "app"
           (testImage "app" "base" false ["python"; "testapi"])
           ["pixi"; "python"; "testapi"] eq_refl eq_refl
           InternalBase_app_layers).
Defined.

Lemma InternalBase_app_sequence :
  AbsoluteLayerSequence LayerGraph.ResolveLayerOrder "app"
    InternalBase.images TieBreaking.layers TieBreaking.order
  = Some ["pixi"; "python"; "testapi"].
Proof. vm_compute. reflexivity. Qed.

Lemma AbsoluteLayerSequence_base_witness :
  ∃ baseSeq,
    AbsoluteLayerSequence LayerGraph.ResolveLayerOrder "base"
      InternalBase.images TieBreaking.layers TieBreaking.order
    = Some baseSeq ∧
    sublist baseSeq ["pixi"; "python"; "testapi"].
Proof.
  exact (AbsoluteLayerSequence_base LayerGraph.ResolveLayerOrder
           InternalBase.images TieBreaking.layers "app"
           (testImage "app" "base" false ["python"; "testapi"])
           TieBreaking.order ["pixi"; "python"; "testapi"] eq_refl eq_refl
           InternalBase_app_sequence).
Defined.

Lemma pickIntermediateName_first_free_witness :
  ∃ name,
    pickIntermediateName (newTrieNode "a") ["a"] LoneImage.result
                         LoneImage.images = Some name ∧
    ∃ baseName,
      last ["a"] = Some baseName ∧
      ¬ nameTaken LoneImage.result LoneImage.images name ∧
      (name = baseName ∨
       ∃ k, 2 ≤ k ∧ name = candidateName baseName k ∧
            nameTaken LoneImage.result LoneImage.images baseName ∧
            ∀ j, 2 ≤ j < k →
                 nameTaken LoneImage.result LoneImage.images
                           (candidateName baseName j)).
Proof.
  exact (pickIntermediateName_first_free LoneImage.result LoneImage.images
           (newTrieNode "a") ["a"] ltac:(done)).
Defined.

Lemma SharedPrefix_own_layers :
  computeOwnLayers LayerGraph.LayersProvidedByImage "fedora"
    ["pixi"; "python"; "supervisord"] SharedPrefix.images SharedPrefix.layers
    ["pixi"; "python"; "supervisord"; "openclaw"; "testapi"]
  = Some ["pixi"; "python"; "supervisord"].
Proof. vm_compute. reflexivity. Qed.


Lemma OneGroup_buildTrie :
  buildTrie LayerGraph.ResolveLayerOrder ["p1"; "p2"] OneGroup.images
            plainLayers ["a"; "b"; "c"]
  = Some OneGroup_trie.
Proof. vm_compute. reflexivity. Qed.

Lemma buildTrie_imagesAt_witness :
  imagesAt ["a"; "c"] OneGroup_trie
  = filter (λ n, AbsoluteLayerSequence LayerGraph.ResolveLayerOrder n
                   OneGroup.images plainLayers ["a"; "b"; "c"]
                 = Some ["a"; "c"])
           ["p1"; "p2"].
Proof.
  exact (buildTrie_imagesAt LayerGraph.ResolveLayerOrder OneGroup.images
           plainLayers ["a"; "b"; "c"] ["p1"; "p2"] OneGroup_trie
           OneGroup_buildTrie ["a"; "c"]).
Defined.

Lemma buildBaseGroups_partition_witness :
  (∀ key names,
     ({["ext:1" := ["openclaw"; "fedora-test"; "fedora"]]}
        : gmap string (list string)) !! key = Some names →
     names ≠ [] ∧ NoDup names ∧
     ∀ n, n ∈ names
          ↔ is_Some (SharedPrefix.images !! n) ∧
            resolveExternalBase n SharedPrefix.images = Some key) ∧
  (∀ n, is_Some (SharedPrefix.images !! n) →
        ∃ key names,
          resolveExternalBase n SharedPrefix.images = Some key ∧
          ({["ext:1" := ["openclaw"; "fedora-test"; "fedora"]]}
             : gmap string (list string)) !! key = Some names ∧
          n ∈ names).
Proof.
  exact (buildBaseGroups_partition rangeAscending rangeAscending_Permutation
           SharedPrefix.images _ SharedPrefix_groups).
Defined.

Lemma ComputeIntermediates_error_witness :
  ((∅ : gmap string ResolvedImage.t) = ∅ ∧
   ∃ order e,
     GlobalLayerOrder rangeAscending LayerGraph.ResolveLayerOrder
       UnknownLayer.images plainLayers = Some (order, Some e) ∧
     ErrComputingGlobalOrder
       (ErrResolvingLayers "a" (ErrUnknownLayer "missing"))
     = ErrComputingGlobalOrder e) ∧
  computeWith rangeAscending UnknownLayer.images plainLayers testConfig "v1"
  = Some (∅, Some (ErrComputingGlobalOrder
                     (ErrResolvingLayers "a" (ErrUnknownLayer "missing")))).
Proof.
  pose proof (ComputeIntermediates_error rangeAscending
                rangeAscending_Permutation LayerGraph.ResolveLayerOrder
                LayerGraph.LayersProvidedByImage UnknownLayer.images
                plainLayers testConfig "v1") as [Hfrom Hto].
  split.
  - exact (Hfrom _ _ UnknownLayer_result).
  - apply (Hto [] _ UnknownLayer_order). unfold is_Some. eexists.
    vm_compute. reflexivity.
Defined.

Lemma ComputeIntermediates_auto_images_witness :
  let img := autoImage "supervisord" "fedora" false
                       ["pixi"; "python"; "supervisord"] in
  ResolvedImage.Name img = "supervisord" ∧
  ResolvedImage.Auto img = true ∧
  ResolvedImage.Tag img = "v1" ∧
  ResolvedImage.Registry img = ImageConfig.Registry (Defaults testConfig) ∧
  ResolvedImage.Merge img = ImageConfig.Merge (Defaults testConfig) ∧
  ResolvedImage.Pkg img ≠ "" ∧
  ResolvedImage.User img ≠ "" ∧
  ResolvedImage.Platforms img ≠ [] ∧
  ResolvedImage.Home img = "/home/" +:+ ResolvedImage.User img ∧
  ResolvedImage.FullTag img
  = (if decide (ResolvedImage.Registry img = "")
     then "supervisord" +:+ ":" +:+ "v1"
     else ResolvedImage.Registry img +:+ "/" +:+ "supervisord" +:+ ":"
          +:+ "v1") ∧
  ResolvedImage.Bootc img = false.
Proof.
  exact (ComputeIntermediates_auto_images rangeAscending
           rangeAscending_Permutation LayerGraph.ResolveLayerOrder
           LayerGraph.LayersProvidedByImage SharedPrefix.images
           SharedPrefix.layers testConfig "v1" SharedPrefix.result
           "supervisord" _ SharedPrefix_result eq_refl eq_refl).
Defined.

Lemma LoneImage_alone k :
  is_Some (LoneImage.images !! k) →
  resolveExternalBase k LoneImage.images
  = resolveExternalBase "s" LoneImage.images →
  k = "s".
Proof.
  intros Hk%keys_enumerate Hbase. enumerate_keys Hk.
  destruct Hk as [->|[->|[->|[]]]]; try done; by vm_compute in Hbase.
Qed.

Lemma ComputeIntermediates_alone_witness :
  LoneImage.result !! "s" = Some (testImage "s" "e2" true ["a"]).
Proof.
  exact (ComputeIntermediates_alone rangeAscending rangeAscending_Permutation
           LayerGraph.ResolveLayerOrder LayerGraph.LayersProvidedByImage
           LoneImage.images plainLayers testConfig "v1" LoneImage.result "s"
           _ LoneImage_result eq_refl LoneImage_alone).
Defined.

Lemma ApartImages_apart k1 k2 :
  is_Some (ApartImages.images !! k1) → is_Some (ApartImages.images !! k2) →
  resolveExternalBase k1 ApartImages.images
  = resolveExternalBase k2 ApartImages.images →
  k1 = k2.
Proof.
  intros H1%keys_enumerate H2%keys_enumerate Hbase.
  enumerate_keys H1. enumerate_keys H2.
  destruct H1 as [->|[->|[]]]; destruct H2 as [->|[->|[]]]; try done;
    by vm_compute in Hbase.
Qed.

Lemma ComputeIntermediates_no_shared_base_witness :
  ∃ result,
    computeWith rangeAscending ApartImages.images plainLayers testConfig "v1"
    = Some (result, None) ∧
    result = ApartImages.images.
Proof.
  exists ApartImages.images. split; [exact ApartImages_result|].
  exact (ComputeIntermediates_no_shared_base rangeAscending
           rangeAscending_Permutation LayerGraph.ResolveLayerOrder
           LayerGraph.LayersProvidedByImage ApartImages.images plainLayers
           testConfig "v1" ApartImages.images ApartImages_result
           ApartImages_apart).
Defined.


Lemma SharedPrefix_one_base k1 k2 :
  is_Some (SharedPrefix.images !! k1) → is_Some (SharedPrefix.images !! k2) →
  resolveExternalBase k1 SharedPrefix.images
  = resolveExternalBase k2 SharedPrefix.images.
Proof.
  intros H1%keys_enumerate H2%keys_enumerate.
  enumerate_keys H1. enumerate_keys H2.
  destruct H1 as [->|[->|[->|[]]]]; destruct H2 as [->|[->|[->|[]]]];
    by vm_compute.
Qed.

Lemma ComputeIntermediates_one_base_witness :
  ComputeIntermediates rangeDescending LayerGraph.ResolveLayerOrder
    LayerGraph.LayersProvidedByImage SharedPrefix.images SharedPrefix.layers
    testConfig "v1" = Some (SharedPrefix.result, None).
Proof.
  exact (ComputeIntermediates_one_base rangeAscending rangeDescending
           rangeAscending_Permutation rangeDescending_Permutation
           LayerGraph.ResolveLayerOrder LayerGraph.LayersProvidedByImage
           SharedPrefix.images SharedPrefix.layers testConfig "v1"
           SharedPrefix.result SharedPrefix_one_base SharedPrefix_result).
Defined.
